(** * Concurrency examples of go-study: goroutines and channels

    A shallow embedding of the channel and goroutine examples of
    [05-advanced/02-concurrency/channels.go] and [goroutines.go].

    Every goroutine is a small program-counter machine; a program is the
    interleaving of its goroutines.  [step l s] is the move of the goroutine
    (or rendezvous) named by the label [l] in state [s]; it is [None] when that
    goroutine is blocked or has finished.  A schedule is a list of labels, and
    properties are proved for every schedule. *)

From Stdlib Require Import ZArith Lia List Bool String DecimalString.
From stdpp Require Import base tactics option list.
Import ListNotations.

Local Open Scope Z_scope.

(** ** Interleaving semantics, generic part *)

Section Interleaving.
Context {state label : Type}.
Variable step : label -> state -> option state.

(** Run a schedule; [None] when it names a goroutine that cannot move. *)
Fixpoint run (sched : list label) (s : state) : option state :=
  match sched with
  | [] => Some s
  | l :: sched' =>
      match step l s with
      | Some s' => run sched' s'
      | None => None
      end
  end.

(** No goroutine can move: the program has ended or is deadlocked. *)
Definition stuck (s : state) : Prop := forall l, step l s = None.

Definition preserved (P : state -> Prop) : Prop :=
  forall l s s', P s -> step l s = Some s' -> P s'.

Definition decreasing (P : state -> Prop) (mu : state -> nat) : Prop :=
  forall l s s', P s -> step l s = Some s' -> (mu s' < mu s)%nat.

Lemma run_app sched1 sched2 s :
  run (sched1 ++ sched2) s =
  match run sched1 s with Some s' => run sched2 s' | None => None end.
Proof.
  revert s. induction sched1 as [|l sched1 IH]; intros s; simpl; [reflexivity|].
  destruct (step l s); [apply IH | reflexivity].
Qed.

Lemma run_invariant (P : state -> Prop) :
  preserved P ->
  forall sched s s', P s -> run sched s = Some s' -> P s'.
Proof.
  intros HP sched. induction sched as [|l sched IH]; intros s s' Hs Hrun; simpl in Hrun.
  - congruence.
  - destruct (step l s) as [s1|] eqn:E; [|discriminate].
    eapply IH; [|exact Hrun]. eapply HP; eauto.
Qed.

(** A measure that decreases at every step bounds every schedule. *)
Lemma run_bounded (P : state -> Prop) (mu : state -> nat) :
  preserved P -> decreasing P mu ->
  forall sched s s', P s -> run sched s = Some s' ->
    (length sched + mu s' <= mu s)%nat.
Proof.
  intros HP Hmu sched. induction sched as [|l sched IH]; intros s s' Hs Hrun; simpl in Hrun.
  - inversion Hrun; subst. simpl. lia.
  - destruct (step l s) as [s1|] eqn:E; [|discriminate].
    pose proof (Hmu _ _ _ Hs E). pose proof (HP _ _ _ Hs E) as Hs1.
    specialize (IH _ _ Hs1 Hrun). simpl. lia.
Qed.

(** From a state that is stuck or can move (decidably), some schedule
    reaches a stuck state, provided a measure decreases. *)
Lemma run_reaches_stuck (P : state -> Prop) (mu : state -> nat) :
  preserved P -> decreasing P mu ->
  (forall s, P s -> stuck s \/ exists l s', step l s = Some s') ->
  forall s, P s -> exists sched s', run sched s = Some s' /\ stuck s'.
Proof.
  intros HP Hmu Hdec s.
  remember (mu s) as n eqn:Hn. revert s Hn.
  induction n as [n IH] using lt_wf_ind. intros s Hn Hs.
  destruct (Hdec s Hs) as [Hst | (l & s1 & E)].
  - exists [], s. split; [reflexivity | exact Hst].
  - pose proof (Hmu _ _ _ Hs E) as Hlt.
    destruct (IH (mu s1) ltac:(lia) s1 eq_refl (HP _ _ _ Hs E)) as (sched & s' & Hrun & Hst).
    exists (l :: sched), s'. split; [|exact Hst]. simpl. rewrite E. exact Hrun.
Qed.

(** Total correctness from an invariant, a measure and progress: along
  every schedule the invariant holds and the schedule is no longer than the
  initial measure; a state where nothing moves satisfies [Q]; and every
  reachable state can be run on to such a state. *)
Lemma run_total (P Q : state -> Prop) (mu : state -> nat) (s0 : state) :
  P s0 -> preserved P -> decreasing P mu ->
  (forall s, P s -> stuck s \/ exists l s', step l s = Some s') ->
  (forall s, P s -> stuck s -> Q s) ->
  forall sched s, run sched s0 = Some s ->
    P s /\ (length sched + mu s <= mu s0)%nat /\ (stuck s -> Q s) /\
    exists sched' s', run sched' s = Some s' /\ stuck s' /\ Q s'.
Proof.
  intros H0 HP Hmu Hmove HQ sched s Hrun.
  pose proof (run_invariant P HP _ _ _ H0 Hrun) as Hs.
  split; [exact Hs|]. split; [eapply run_bounded; eauto|].
  split; [auto|].
  destruct (run_reaches_stuck P mu HP Hmu Hmove s Hs) as (sched' & s' & Hrun' & Hst).
  exists sched', s'. split; [exact Hrun'|]. split; [exact Hst|].
  apply HQ; [|exact Hst]. eapply run_invariant; eauto.
Qed.

(** How often a kind of step occurs in a schedule, read off a counter
  of the state that exactly those steps advance. *)
Lemma run_count (P : state -> Prop) (f : state -> nat) (w : label -> nat) :
  preserved P ->
  (forall l s s', P s -> step l s = Some s' -> f s' = (f s + w l)%nat) ->
  forall sched s s', P s -> run sched s = Some s' ->
    f s' = (f s + sum_list (map w sched))%nat.
Proof.
  intros HP Hw sched. induction sched as [|l sched IH]; intros s s' Hs Hrun; simpl in Hrun.
  - inversion Hrun; subst. simpl. lia.
  - destruct (step l s) as [s1|] eqn:E; [|discriminate].
    rewrite (IH _ _ (HP _ _ _ Hs E) Hrun), (Hw _ _ _ Hs E). simpl. lia.
Qed.

(** When only the labels of a list can be enabled, a state is stuck or
  can move. *)
Lemma stuck_or_move (ls : list label) (s : state) :
  (forall l s', step l s = Some s' -> In l ls) ->
  stuck s \/ exists l s', step l s = Some s'.
Proof.
  intros Hls.
  assert (H : (forall l, In l ls -> step l s = None) \/ exists l s', step l s = Some s').
  { clear Hls. induction ls as [|l ls IH].
    - left. intros l [].
    - destruct IH as [IH | IH]; [|right; exact IH].
      destruct (step l s) as [s'|] eqn:E; [right; eauto|].
      left. intros l' [<- | Hin]; auto. }
  destruct H as [H | H]; [left | right; exact H].
  intros l. destruct (step l s) as [s'|] eqn:E; [|reflexivity].
  pose proof (H l (Hls _ _ E)). congruence.
Qed.
End Interleaving.

(** ** Go's [int] on a 64-bit platform: two's complement wrap-around *)

Module GoInt.
Definition min_int : Z := - 2 ^ 63.
Definition max_int : Z := 2 ^ 63 - 1.

Definition wrap (z : Z) : Z := (z + 2 ^ 63) mod 2 ^ 64 - 2 ^ 63.

Definition add (a b : Z) : Z := wrap (a + b).
Definition mul (a b : Z) : Z := wrap (a * b).

Definition in_range (z : Z) : Prop := min_int <= z <= max_int.

Lemma wrap_in_range z : in_range (wrap z).
Proof.
  unfold in_range, wrap, min_int, max_int.
  pose proof (Z.mod_pos_bound (z + 2 ^ 63) (2 ^ 64) ltac:(lia)). lia.
Qed.

Lemma wrap_small z : in_range z -> wrap z = z.
Proof.
  unfold in_range, wrap, min_int, max_int. intros H.
  rewrite Z.mod_small by lia. lia.
Qed.

Lemma wrap_add_l a b : wrap (wrap a + b) = wrap (a + b).
Proof.
  unfold wrap.
  replace ((a + 2 ^ 63) mod 2 ^ 64 - 2 ^ 63 + b + 2 ^ 63)
    with ((a + 2 ^ 63) mod 2 ^ 64 + b) by lia.
  rewrite Zplus_mod_idemp_l. do 2 f_equal. lia.
Qed.

Lemma wrap_add_r a b : wrap (a + wrap b) = wrap (a + b).
Proof. rewrite (Z.add_comm a), wrap_add_l. f_equal. lia. Qed.

Lemma wrap_wrap a : wrap (wrap a) = wrap a.
Proof. apply wrap_small, wrap_in_range. Qed.
End GoInt.

(** ** Go's built-in channel

  A channel is a FIFO buffer of bounded capacity with a closed flag
  ([make(chan T, cap)]; [cap = 0] for [make(chan T)]).  The three
  operations follow the language: a send on a closed channel panics in the
  sending goroutine, a send on a full open channel blocks, a receive takes
  the oldest buffered value, and a receive on a closed, drained channel
  yields the zero value with [ok = false].  On an unbuffered channel a send
  completes only together with a receive; the programs below have a step
  for that meeting.  On a buffered channel a send that finds a waiting
  receiver is the enqueue followed by the dequeue. *)

Module Chan.
Record chan (A : Type) : Type :=
  Build { buf : list A; cap : nat; closed : bool }.
Arguments Build {A}.
Arguments buf {A}.
Arguments cap {A}.
Arguments closed {A}.

(** [make(chan A, n)] *)
Definition make {A} (n : nat) : chan A := Build [] n false.

Inductive send_result (A : Type) : Type :=
  | SendOk (c : chan A)   (* value enqueued *)
  | SendBlock             (* full and open: the sender waits, holding its value *)
  | SendPanic.            (* panic: send on closed channel *)
Arguments SendOk {A}.
Arguments SendBlock {A}.
Arguments SendPanic {A}.

(** [c <- v] *)
Definition send {A} (v : A) (c : chan A) : send_result A :=
  if closed c then SendPanic
  else if (length (buf c) <? cap c)%nat
       then SendOk (Build (buf c ++ [v]) (cap c) (closed c))
       else SendBlock.

Inductive recv_result (A : Type) : Type :=
  | RecvOk (v : A) (c : chan A)
  | RecvClosed            (* closed and drained *)
  | RecvBlock.            (* open and empty: the receiver waits *)
Arguments RecvOk {A}.
Arguments RecvClosed {A}.
Arguments RecvBlock {A}.

(** [<-c] *)
Definition recv {A} (c : chan A) : recv_result A :=
  match buf c with
  | v :: rest => RecvOk v (Build rest (cap c) (closed c))
  | [] => if closed c then RecvClosed else RecvBlock
  end.

(** [v, ok := <-c]: what the receiver sees, [None] while it waits. *)
Definition comma_ok {A} (zero : A) (r : recv_result A) : option (A * bool) :=
  match r with
  | RecvOk v _ => Some (v, true)
  | RecvClosed => Some (zero, false)
  | RecvBlock => None
  end.

(** [close(c)]; [None] is the panic "close of closed channel". *)
Definition close {A} (c : chan A) : option (chan A) :=
  if closed c then None else Some (Build (buf c) (cap c) true).

(** [for v := range c] run by a receiver alone (nobody sends meanwhile):
    the values received and whether the loop ended ([true]) or is waiting
    on an open, empty channel ([false]).  [None] when out of fuel. *)
Fixpoint range {A} (fuel : nat) (c : chan A) : option (list A * bool * chan A) :=
  match fuel with
  | O => None
  | S fuel' =>
      match recv c with
      | RecvOk v c' =>
          match range fuel' c' with
          | Some (vs, ended, c'') => Some (v :: vs, ended, c'')
          | None => None
          end
      | RecvClosed => Some ([], true, c)
      | RecvBlock => Some ([], false, c)
      end
  end.

Lemma range_enough {A} (c : chan A) fuel :
  (length (buf c) < fuel)%nat ->
  range fuel c = Some (buf c, closed c, Build [] (cap c) (closed c)).
Proof.
  destruct c as [b n cl]. simpl. revert b.
  induction fuel as [|fuel IH]; intros b Hlt; [lia|].
  simpl. unfold recv; simpl. destruct b as [|v b]; simpl.
  - destruct cl; reflexivity.
  - simpl in Hlt. rewrite IH by lia. reflexivity.
Qed.
End Chan.

(** Panics of the runtime that the examples could raise. *)
Inductive panic_kind : Type :=
| SendOnClosedChannel
| CloseOfClosedChannel
| IntegerDivideByZero
| IndexOutOfRange
| MakeSliceLenOutOfRange
| NegativeWaitGroupCounter
| ProcessPanic.

(** ** One producer, one consumer over one channel

    [basicChannelExample] (a goroutine sends "Hello", "World", "from Go" on
    [messages] and closes it; the caller ranges over it) and
    [unidirectionalChannelExample] ([sender] sends 1..5 on [ch] and closes it;
    [receiver] ranges over it) have the same shape: the producer sends the
    values of a list in order and then closes, the consumer receives until the
    channel is closed and drained.  Both use [make(chan T)], capacity 0; the
    model keeps the capacity as a parameter. *)

Module Spsc.
Section Model.
Context {A : Type}.

Inductive label : Type :=
| Send      (* producer: ch <- v, into the buffer *)
| Handoff   (* producer and waiting consumer: ch <- v meets <-ch *)
| Close     (* producer: close(ch) *)
| Recv.     (* consumer: the receive of [range ch] *)

Record state : Type := State {
  to_send : list A;          (* values the producer has still to send *)
  prod_done : bool;          (* the producer has returned *)
  ch : Chan.chan A;
  received : list A;         (* values the consumer has received, oldest first *)
  cons_done : bool;          (* the consumer has left its range loop *)
  panic : option panic_kind  (* a goroutine panicked: the program is over *)
}.

Definition init (capacity : nat) (vs : list A) : state :=
  State vs false (Chan.make capacity) [] false None.

Definition step (l : label) (s : state) : option state :=
  match panic s with
  | Some _ => None
  | None =>
      match l with
      | Send =>
          match to_send s with
          | v :: rest =>
              match Chan.send v (ch s) with
              | Chan.SendOk c' =>
                  Some (State rest (prod_done s) c' (received s) (cons_done s) None)
              | Chan.SendBlock => None
              | Chan.SendPanic =>
                  Some (State (to_send s) (prod_done s) (ch s) (received s)
                          (cons_done s) (Some SendOnClosedChannel))
              end
          | [] => None
          end
      | Handoff =>
          match to_send s, Chan.buf (ch s) with
          | v :: rest, [] =>
              if Chan.closed (ch s) || cons_done s then None
              else Some (State rest (prod_done s) (ch s) (received s ++ [v])
                           (cons_done s) None)
          | _, _ => None
          end
      | Close =>
          match to_send s with
          | [] =>
              if prod_done s then None
              else match Chan.close (ch s) with
                   | Some c' => Some (State [] true c' (received s) (cons_done s) None)
                   | None => Some (State [] (prod_done s) (ch s) (received s)
                                     (cons_done s) (Some CloseOfClosedChannel))
                   end
          | _ :: _ => None
          end
      | Recv =>
          if cons_done s then None
          else match Chan.recv (ch s) with
               | Chan.RecvOk v c' =>
                   Some (State (to_send s) (prod_done s) c' (received s ++ [v])
                           false None)
               | Chan.RecvClosed =>
                   Some (State (to_send s) (prod_done s) (ch s) (received s) true None)
               | Chan.RecvBlock => None
               end
      end
  end.

(** What holds in every state reachable from [init capacity vs]. *)
Record inv (capacity : nat) (vs : list A) (s : state) : Prop := Inv {
  inv_panic : panic s = None;
  inv_fifo : received s ++ Chan.buf (ch s) ++ to_send s = vs;
  inv_cap : Chan.cap (ch s) = capacity;
  inv_closed : Chan.closed (ch s) = prod_done s;
  inv_prod : prod_done s = true -> to_send s = [];
  inv_cons : cons_done s = true -> Chan.closed (ch s) = true /\ Chan.buf (ch s) = []
}.

Definition measure (s : state) : nat :=
  2 * length (to_send s) + length (Chan.buf (ch s))
  + (if prod_done s then 0 else 1) + (if cons_done s then 0 else 1).

Lemma spsc_inv_init capacity vs : inv capacity vs (init capacity vs).
Proof. split; simpl; auto; try discriminate. Qed.

Lemma spsc_inv_preserved capacity vs : preserved step (inv capacity vs).
Proof.
  intros l s s' [Hp Hf Hc Hcl Hpr Hco] Hstep.
  unfold step in Hstep. rewrite Hp in Hstep.
  destruct s as [ts pd c rc cd pn]; simpl in *. destruct c as [b n cl]; simpl in *.
  subst pn cl.
  assert (Hfin : forall P : Prop, cd = true -> pd = false -> P).
  { intros P Hcd Hpd. destruct (Hco Hcd) as [Hx _]. congruence. }
  destruct l.
  - destruct ts as [|v rest]; [discriminate|].
    unfold Chan.send in Hstep; simpl in Hstep.
    destruct pd; [specialize (Hpr eq_refl); discriminate|].
    destruct (length b <? n)%nat; [|discriminate].
    inversion Hstep; subst; clear Hstep.
    split; simpl; auto; try discriminate.
    + rewrite <- app_assoc. reflexivity.
    + intros Hcd. eapply Hfin; eauto.
  - destruct ts as [|v rest]; [discriminate|].
    destruct b; [|discriminate].
    destruct pd; simpl in Hstep; [discriminate|].
    destruct cd; simpl in Hstep; [discriminate|].
    inversion Hstep; subst; clear Hstep.
    split; simpl; auto; try discriminate.
    rewrite <- app_assoc. reflexivity.
  - destruct ts; [|discriminate].
    destruct pd; [discriminate|]. unfold Chan.close in Hstep; simpl in Hstep.
    inversion Hstep; subst; clear Hstep.
    split; simpl; auto; try discriminate.
    intros Hcd. eapply Hfin; eauto.
  - destruct cd; [discriminate|]. unfold Chan.recv in Hstep; simpl in Hstep.
    destruct b as [|v b].
    + destruct pd; [|discriminate].
      inversion Hstep; subst; clear Hstep. split; simpl; auto.
    + inversion Hstep; subst; clear Hstep.
      split; simpl; auto; try discriminate.
      rewrite <- app_assoc. reflexivity.
Qed.

Lemma spsc_measure_decreasing capacity vs : decreasing step (inv capacity vs) measure.
Proof.
  intros l s s' [Hp Hf Hc Hcl Hpr Hco] Hstep.
  unfold step in Hstep. rewrite Hp in Hstep.
  destruct s as [ts pd c rc cd pn]; simpl in *. destruct c as [b n cl]; simpl in *.
  subst pn cl. unfold measure; simpl.
  destruct l.
  - destruct ts as [|v rest]; [discriminate|].
    unfold Chan.send in Hstep; simpl in Hstep.
    destruct pd; [specialize (Hpr eq_refl); discriminate|].
    destruct (length b <? n)%nat; [|discriminate].
    inversion Hstep; subst; clear Hstep. simpl. rewrite length_app. simpl. lia.
  - destruct ts as [|v rest]; [discriminate|].
    destruct b; [|discriminate].
    destruct pd; simpl in Hstep; [discriminate|].
    destruct cd; simpl in Hstep; [discriminate|].
    inversion Hstep; subst; clear Hstep. simpl. lia.
  - destruct ts; [|discriminate].
    destruct pd; [discriminate|]. unfold Chan.close in Hstep; simpl in Hstep.
    inversion Hstep; subst; clear Hstep. simpl. lia.
  - destruct cd; [discriminate|]. unfold Chan.recv in Hstep; simpl in Hstep.
    destruct b as [|v b].
    + destruct pd; [|discriminate].
      inversion Hstep; subst; clear Hstep. simpl. lia.
    + inversion Hstep; subst; clear Hstep. simpl. lia.
Qed.

(** A reachable state in which nobody can move is the normal end: the
    producer has closed, the consumer has seen the close, everything that
    was sent has been received. *)
Lemma spsc_stuck_final capacity vs s :
  inv capacity vs s -> stuck step s ->
  received s = vs /\ cons_done s = true /\ prod_done s = true.
Proof.
  intros [Hp Hf Hc Hcl Hpr Hco] Hst.
  pose proof (Hst Send) as HS. pose proof (Hst Handoff) as HH.
  pose proof (Hst Close) as HC. pose proof (Hst Recv) as HR.
  unfold step in *. rewrite Hp in *.
  destruct s as [ts pd c rc cd pn]; simpl in *. destruct c as [b n cl]; simpl in *.
  subst pn cl.
  destruct cd.
  - destruct (Hco eq_refl) as [-> ->]. rewrite (Hpr eq_refl) in Hf.
    simpl in Hf. rewrite app_nil_r in Hf. auto.
  - unfold Chan.recv in HR; simpl in HR. destruct b; [|discriminate].
    destruct pd; [discriminate|]. simpl in *.
    destruct ts; [|discriminate].
    unfold Chan.close in HC; simpl in HC. discriminate.
Qed.

Lemma spsc_can_move capacity vs s :
  inv capacity vs s -> stuck step s \/ exists l s', step l s = Some s'.
Proof.
  intros Hinv. destruct (step Send s) eqn:ES; [right; eauto|].
  destruct (step Handoff s) eqn:EH; [right; eauto|].
  destruct (step Close s) eqn:EC; [right; eauto|].
  destruct (step Recv s) eqn:ER; [right; eauto|].
  left. intros []; assumption.
Qed.
End Model.

(** The two programs of the source. *)
Definition basicChannelExample : state (A := string) :=
  init 0 ["Hello"; "World"; "from Go"]%string.

(** [sender]: [for i := 1; i <= 5; i++ { ch <- i }; close(ch)]. *)
Definition unidirectionalChannelExample : state (A := Z) :=
  init 0 [1; 2; 3; 4; 5].
End Spsc.

(** *** Claims about the queue itself *)

(** C9 — FIFO for one producer and one consumer: for every capacity, every
    list of values sent and every schedule, what the consumer has received is
    always a prefix of what the producer sends, in the same order; no schedule
    is longer than the initial measure; when nothing can move any more the
    consumer has received exactly the values sent, in order, and has seen the
    close; and every reachable state can be run on to that end. *)
Theorem spsc_fifo {A : Type} (capacity : nat) (vs : list A)
    (sched : list Spsc.label) (s : Spsc.state) :
  run Spsc.step sched (Spsc.init capacity vs) = Some s ->
  Spsc.panic s = None /\
  (exists later, vs = Spsc.received s ++ later) /\
  (length sched <= Spsc.measure (Spsc.init capacity vs))%nat /\
  (stuck Spsc.step s -> Spsc.received s = vs /\ Spsc.cons_done s = true) /\
  (exists sched' s', run Spsc.step sched' s = Some s' /\ stuck Spsc.step s' /\
                     Spsc.received s' = vs /\ Spsc.cons_done s' = true).
Proof.
  intros Hrun.
  destruct (run_total Spsc.step (Spsc.inv capacity vs)
              (fun s => Spsc.received s = vs /\ Spsc.cons_done s = true)
              Spsc.measure (Spsc.init capacity vs)
              (Spsc.spsc_inv_init capacity vs)
              (Spsc.spsc_inv_preserved capacity vs)
              (Spsc.spsc_measure_decreasing capacity vs)
              (Spsc.spsc_can_move capacity vs)) with (sched := sched) (s := s)
    as (Hinv & Hlen & Hst & Hex); auto.
  { intros s1 H1 H2. destruct (Spsc.spsc_stuck_final capacity vs s1 H1 H2) as (? & ? & ?); auto. }
  destruct Hinv as [Hp Hf _ _ _ _].
  split; [exact Hp|]. split; [eexists; symmetry; exact Hf|].
  split; [lia|]. split; [exact Hst | exact Hex].
Qed.

(** [basicChannelExample] under the schedule in which the three sends each
    meet the waiting receive, then close, then the receive that sees it. *)
Lemma spsc_fifo_witness :
  run Spsc.step [Spsc.Handoff; Spsc.Handoff; Spsc.Handoff; Spsc.Close; Spsc.Recv]
      Spsc.basicChannelExample
  = Some (Spsc.State [] true (Chan.Build [] 0 true)
            ["Hello"; "World"; "from Go"]%string true None) /\
  exists later, ["Hello"; "World"; "from Go"]%string
                = ["Hello"; "World"; "from Go"]%string ++ later.
Proof.
  split; [reflexivity|].
  exact (proj1 (proj2 (spsc_fifo 0 ["Hello"; "World"; "from Go"]%string
     [Spsc.Handoff; Spsc.Handoff; Spsc.Handoff; Spsc.Close; Spsc.Recv]
     (Spsc.State [] true (Chan.Build [] 0 true)
            ["Hello"; "World"; "from Go"]%string true None) eq_refl))).
Defined.

(** C6 — a send on a closed channel fails in the sending goroutine: the
    primitive answers with the panic, the producer's step records it, the
    channel and what was received are untouched, and the program stops there.
    A send on a full, open channel blocks: the primitive answers [SendBlock],
    the producer's buffered send is not enabled, and whatever step is taken
    next the value is either still the producer's next value or has just been
    handed to the consumer. *)
Theorem send_closed_panics_full_blocks {A : Type} (s : Spsc.state) (v : A)
    (rest : list A) :
  Spsc.to_send s = v :: rest -> Spsc.panic s = None ->
  (Chan.closed (Spsc.ch s) = true ->
     Chan.send v (Spsc.ch s) = Chan.SendPanic /\
     exists s', Spsc.step Spsc.Send s = Some s' /\
                Spsc.panic s' = Some SendOnClosedChannel /\
                Spsc.ch s' = Spsc.ch s /\ Spsc.received s' = Spsc.received s /\
                Spsc.to_send s' = v :: rest /\ stuck Spsc.step s') /\
  (Chan.closed (Spsc.ch s) = false ->
   (Chan.cap (Spsc.ch s) <= length (Chan.buf (Spsc.ch s)))%nat ->
     Chan.send v (Spsc.ch s) = Chan.SendBlock /\
     Spsc.step Spsc.Send s = None /\
     forall l s', Spsc.step l s = Some s' ->
       Spsc.panic s' = None /\
       (Spsc.to_send s' = v :: rest \/
        (Spsc.to_send s' = rest /\ Spsc.received s' = Spsc.received s ++ [v]))).
Proof.
  intros Hts Hp. destruct s as [ts pd c rc cd pn]; simpl in *. subst ts pn.
  destruct c as [b n cl]; simpl. split.
  - intros ->. split; [reflexivity|].
    eexists. split; [reflexivity|]. simpl. repeat split; auto.
  - intros -> Hfull. unfold Spsc.step, Chan.send; simpl.
    assert (Hlt : (length b <? n)%nat = false) by (apply Nat.ltb_ge; lia).
    rewrite Hlt. split; [reflexivity|]. split; [reflexivity|].
    intros l s' Hstep. destruct l; simpl in Hstep.
    + discriminate.
    + destruct b; [|discriminate]. destruct cd; [discriminate|].
      inversion Hstep; subst; simpl. auto.
    + discriminate.
    + destruct cd; [discriminate|]. unfold Chan.recv in Hstep; simpl in Hstep.
      destruct b; [discriminate|]. inversion Hstep; subst; simpl. auto.
Qed.

(** A closed channel with a value still to send, and the unbuffered channel
    of [sender] at its first send. *)
Lemma send_closed_panics_full_blocks_witness :
  Chan.send 1 (Chan.Build [] 0 true) = Chan.SendPanic (A := Z) /\
  Chan.send 1 (Chan.make 0) = Chan.SendBlock (A := Z).
Proof.
  split.
  - exact (proj1 (proj1 (send_closed_panics_full_blocks
       (Spsc.State [1; 2] false (Chan.Build [] 0 true) [] false None) 1 [2]
       eq_refl eq_refl) eq_refl)).
  - exact (proj1 (proj2 (send_closed_panics_full_blocks
       Spsc.unidirectionalChannelExample 1 [2; 3; 4; 5]
       eq_refl eq_refl) eq_refl (le_n 0))).
Defined.

(** C7 — a receive yields [(v, true)] whenever a value is buffered, closed or
    not; it yields [(zero, false)] exactly when the channel is closed and
    drained; after a close the values sent before it are all received, in
    order, by a [range] loop, which then ends; and the consumer of
    [receiver] leaves its loop exactly in that closed, drained case. *)
Theorem recv_ok_until_closed_and_drained {A : Type} (zero : A) (c : Chan.chan A) :
  (forall v rest, Chan.buf c = v :: rest ->
     Chan.comma_ok zero (Chan.recv c) = Some (v, true)) /\
  (Chan.comma_ok zero (Chan.recv c) = Some (zero, false) <->
     Chan.closed c = true /\ Chan.buf c = []) /\
  (forall c', Chan.close c = Some c' ->
     Chan.range (S (length (Chan.buf c))) c'
     = Some (Chan.buf c, true, Chan.Build [] (Chan.cap c) true)) /\
  (forall s : Spsc.state, Spsc.ch s = c -> Spsc.panic s = None ->
     Spsc.cons_done s = false ->
     ((exists s', Spsc.step Spsc.Recv s = Some s' /\ Spsc.cons_done s' = true) <->
      Chan.closed c = true /\ Chan.buf c = [])).
Proof.
  destruct c as [b n cl].
  split; [|split; [|split]].
  - simpl. intros v rest ->. reflexivity.
  - unfold Chan.recv; simpl. split.
    + intros H. destruct b; [|discriminate]. destruct cl; [auto | discriminate].
    + intros [-> ->]. reflexivity.
  - intros c' Hc. unfold Chan.close in Hc; simpl in Hc.
    destruct cl; [discriminate|]. inversion Hc; subst; clear Hc.
    rewrite Chan.range_enough by (simpl; lia). reflexivity.
  - intros s Hch Hp Hcd. unfold Spsc.step. rewrite Hch, Hp, Hcd.
    unfold Chan.recv; simpl. split.
    + intros (s' & Hstep & Hd).
      destruct b; [|inversion Hstep; subst; discriminate].
      destruct cl; [auto | discriminate].
    + intros [-> ->]. eexists; split; reflexivity.
Qed.

(** ** Lists of goroutines updated in place *)

Section ListUpdate.
Context {B : Type}.

Lemma sum_list_insert (f : B -> nat) (l : list B) (k : nat) (x y : B) :
  l !! k = Some x ->
  (sum_list (map f (<[k:=y]> l)) + f x = sum_list (map f l) + f y)%nat.
Proof.
  revert k. induction l as [|a l IH]; intros [|k] Hk; simpl in *; try discriminate.
  - inversion Hk; subst. lia.
  - specialize (IH k Hk). lia.
Qed.

Lemma concat_insert_perm {C : Type} (f : B -> list C) (l : list B) (k : nat) (x y : B) :
  l !! k = Some x ->
  f x ++ concat (map f (<[k:=y]> l)) ≡ₚ f y ++ concat (map f l).
Proof.
  revert k. induction l as [|a l IH]; intros [|k] Hk; simpl in *; try discriminate.
  - inversion Hk; subst. rewrite !app_assoc. apply Permutation_app_tail, Permutation_app_comm.
  - specialize (IH k Hk).
    rewrite !app_assoc, (Permutation_app_comm (f x)), (Permutation_app_comm (f y)).
    rewrite <- !app_assoc. apply Permutation_app_head, IH.
Qed.

Lemma lookup_insert_cases (l : list B) (k j : nat) (y z : B) :
  <[k:=y]> l !! j = Some z -> (j = k /\ z = y) \/ (j <> k /\ l !! j = Some z).
Proof.
  intros H. apply list_lookup_insert_Some in H.
  destruct H as [(-> & -> & _) | (Hne & H)]; [left | right]; auto.
Qed.
End ListUpdate.

(** ** Fan-in: [fanIn] merges its inputs into one output

    [fanIn] starts one forwarding goroutine per input, each after a
    [wg.Add(1)], then a closing goroutine that waits for the counter to reach
    zero and closes [output], and returns [output] to its caller, which ranges
    over it.  Input [k] delivers the values of a list (its producer sends
    them one by one on the unbuffered input and closes it after the last). *)

Module FanIn.
Section Model.
Context {V : Type}.

(** The goroutine [func(ch <-chan string) { defer wg.Done(); for data := range ch { output <- data } }]. *)
Inductive fwd : Type :=
| FNotStarted     (* fanIn's loop has not reached this input *)
| FRecv           (* at the receive of [range ch] *)
| FSend (v : V)   (* at [output <- data] *)
| FDone.          (* returned, [wg.Done()] executed *)

(** One input with its producer and its forwarder. *)
Record lane : Type := Lane {
  pending : list V;    (* values the producer has still to send on the input *)
  in_closed : bool;    (* the producer has closed the input *)
  fw : fwd
}.

(** The goroutine [func() { wg.Wait(); close(output) }]. *)
Inductive closer_pc : Type := CNotStarted | CWait | CDone.

Record state : Type := State {
  lanes : list lane;
  spawned : nat;              (* inputs the loop of fanIn has gone through *)
  wg : Z;                     (* counter of the sync.WaitGroup *)
  closer : closer_pc;
  out_closed : bool;          (* [output] has been closed *)
  merged : list V;            (* values the caller has received from [output] *)
  cons_done : bool;           (* the caller's range over [output] has ended *)
  panic : option panic_kind
}.

Inductive label : Type :=
| Spawn              (* fanIn: wg.Add(1); go func(ch){..}(input), next input *)
| SpawnCloser        (* fanIn: go func(){ wg.Wait(); close(output) }(); return output *)
| InClose (k : nat)  (* producer of input k: close(input), after its last value *)
| FwdRecv (k : nat)  (* forwarder k: the receive of range ch, a value or the end *)
| Deliver (k : nat)  (* forwarder k: output <- data meets the caller's receive *)
| CloserRun          (* closer: wg.Wait() returns; close(output) *)
| ConsExit.          (* caller: range output ends on the closed output *)

Definition init (inputs : list (list V)) : state :=
  State (map (fun vs => Lane vs false FNotStarted) inputs) 0 0 CNotStarted
        false [] false None.

Definition set_lane (s : state) (k : nat) (ln : lane) : state :=
  State (<[k:=ln]> (lanes s)) (spawned s) (wg s) (closer s) (out_closed s)
        (merged s) (cons_done s) (panic s).

Definition set_panic (s : state) (p : panic_kind) : state :=
  State (lanes s) (spawned s) (wg s) (closer s) (out_closed s)
        (merged s) (cons_done s) (Some p).

Definition step (l : label) (s : state) : option state :=
  match panic s with
  | Some _ => None
  | None =>
      match l with
      | Spawn =>
          match closer s, lanes s !! spawned s with
          | CNotStarted, Some ln =>
              Some (State (<[spawned s := Lane (pending ln) (in_closed ln) FRecv]> (lanes s))
                      (S (spawned s)) (wg s + 1) (closer s) (out_closed s)
                      (merged s) (cons_done s) None)
          | _, _ => None
          end
      | SpawnCloser =>
          match closer s, lanes s !! spawned s with
          | CNotStarted, None =>
              Some (State (lanes s) (spawned s) (wg s) CWait (out_closed s)
                      (merged s) (cons_done s) None)
          | _, _ => None
          end
      | InClose k =>
          match lanes s !! k with
          | Some (Lane [] false f) => Some (set_lane s k (Lane [] true f))
          | _ => None
          end
      | FwdRecv k =>
          match lanes s !! k with
          | Some (Lane (v :: rest) c FRecv) => Some (set_lane s k (Lane rest c (FSend v)))
          | Some (Lane [] true FRecv) =>
              (* the loop ends; the deferred wg.Done() runs *)
              if wg s - 1 <? 0 then Some (set_panic s NegativeWaitGroupCounter)
              else Some (State (<[k := Lane [] true FDone]> (lanes s)) (spawned s)
                           (wg s - 1) (closer s) (out_closed s) (merged s)
                           (cons_done s) None)
          | _ => None
          end
      | Deliver k =>
          match lanes s !! k with
          | Some (Lane p c (FSend v)) =>
              if out_closed s then Some (set_panic s SendOnClosedChannel)
              else match closer s with
                   | CNotStarted => None   (* fanIn has not returned: nobody receives *)
                   | _ =>
                       if cons_done s then None
                       else Some (State (<[k := Lane p c FRecv]> (lanes s)) (spawned s)
                                    (wg s) (closer s) (out_closed s) (merged s ++ [v])
                                    (cons_done s) None)
                   end
          | _ => None
          end
      | CloserRun =>
          match closer s with
          | CWait =>
              if wg s =? 0
              then if out_closed s then Some (set_panic s CloseOfClosedChannel)
                   else Some (State (lanes s) (spawned s) (wg s) CDone true
                                (merged s) (cons_done s) None)
              else None
          | _ => None
          end
      | ConsExit =>
          match closer s with
          | CNotStarted => None
          | _ => if out_closed s && negb (cons_done s)
                 then Some (State (lanes s) (spawned s) (wg s) (closer s) (out_closed s)
                              (merged s) true None)
                 else None
          end
      end
  end.
(** *** Invariant and measure *)

Definition active (ln : lane) : nat :=
  match fw ln with FRecv | FSend _ => 1 | _ => 0 end.

(** The values a lane still holds: the one its forwarder is sending, and
    those its producer has not sent yet. *)
Definition lane_values (ln : lane) : list V :=
  match fw ln with FSend v => v :: pending ln | _ => pending ln end.

Definition held (s : state) : list V := concat (map lane_values (lanes s)).

Definition lane_measure (ln : lane) : nat :=
  2 * length (pending ln) + (if in_closed ln then 0 else 1)
  + match fw ln with FNotStarted => 2 | FSend _ => 2 | FRecv => 1 | FDone => 0 end.

Definition measure (s : state) : nat :=
  sum_list (map lane_measure (lanes s))
  + match closer s with CNotStarted => 2 | CWait => 1 | CDone => 0 end
  + (if cons_done s then 0 else 1).

Definition lane_ok (sp : nat) (oc : bool) (k : nat) (ln : lane) : Prop :=
  (fw ln = FNotStarted <-> (sp <= k)%nat) /\
  (in_closed ln = true -> pending ln = []) /\
  (fw ln = FDone -> pending ln = [] /\ in_closed ln = true) /\
  (oc = true -> fw ln = FDone).

Record inv (inputs : list (list V)) (s : state) : Prop := Inv {
  inv_panic : panic s = None;
  inv_spawned : (spawned s <= length (lanes s))%nat;
  inv_lanes : forall k ln, lanes s !! k = Some ln ->
                lane_ok (spawned s) (out_closed s) k ln;
  inv_wg : wg s = Z.of_nat (sum_list (map active (lanes s)));
  inv_closer : closer s <> CNotStarted -> spawned s = length (lanes s);
  inv_out : out_closed s = true <-> closer s = CDone;
  inv_cons : cons_done s = true -> out_closed s = true;
  inv_values : merged s ++ held s ≡ₚ concat inputs
}.

Lemma fanin_inv_init inputs : inv inputs (init inputs).
Proof.
  split; simpl; try done.
  - lia.
  - intros k ln Hk. rewrite list_lookup_fmap in Hk.
    destruct (inputs !! k) as [vs|]; [|discriminate]. inversion Hk; subst.
    unfold lane_ok; simpl. repeat split; try done. lia.
  - induction inputs; simpl; auto.
  - unfold held; simpl. rewrite map_map; simpl. rewrite map_id. reflexivity.
Qed.

Lemma held_update (ls : list lane) (k : nat) (ln ln' : lane) (xs ys : list V) :
  ls !! k = Some ln -> lane_values ln = xs -> lane_values ln' = ys ->
  xs ++ concat (map lane_values (<[k:=ln']> ls))
  ≡ₚ ys ++ concat (map lane_values ls).
Proof. intros Hk <- <-. apply concat_insert_perm, Hk. Qed.

Lemma active_update (ls : list lane) (k : nat) (ln ln' : lane) (a a' : nat) :
  ls !! k = Some ln -> active ln = a -> active ln' = a' ->
  Z.of_nat (sum_list (map active (<[k:=ln']> ls)))
  = Z.of_nat (sum_list (map active ls)) - Z.of_nat a + Z.of_nat a'.
Proof.
  intros Hk <- <-. pose proof (sum_list_insert active ls k ln ln' Hk). lia.
Qed.

Lemma active_zero (ls : list lane) (k : nat) (ln : lane) :
  sum_list (map active ls) = 0%nat -> ls !! k = Some ln -> active ln = 0%nat.
Proof.
  intros Hsum Hk. apply list_elem_of_lookup_2 in Hk.
  induction Hk; simpl in Hsum; [lia | apply IHHk; lia].
Qed.

Lemma fanin_inv_preserved inputs : preserved step (inv inputs).
Proof.
  intros l s s' [Hp Hsp Hl Hwg Hcl Hout Hco Hval] Hstep.
  unfold step in Hstep. rewrite Hp in Hstep.
  destruct s as [ls sp w cl oc mg cd pn]; simpl in *. subst pn.
  destruct l.
  - (* Spawn *)
    destruct cl; try discriminate.
    destruct (ls !! sp) as [ln|] eqn:Hk; [|discriminate].
    inversion Hstep; subst; clear Hstep.
    pose proof (lookup_lt_Some _ _ _ Hk) as Hlt.
    destruct (Hl _ _ Hk) as (Hns & Hic & Hfd & Hoc).
    assert (Hfw : fw ln = FNotStarted) by (apply Hns; lia).
    assert (Hocf : oc = false).
    { destruct oc; [|reflexivity]. destruct Hout as [Hx _]. specialize (Hx eq_refl). discriminate. }
    split; simpl; try done.
    + rewrite length_insert. lia.
    + intros j lj Hj. apply lookup_insert_cases in Hj as [[-> ->]|[Hne Hj]].
      * unfold lane_ok; simpl. repeat split; try done; try lia. subst oc. discriminate.
      * destruct (Hl _ _ Hj) as (Hns' & Hic' & Hfd' & Hoc').
        unfold lane_ok. repeat split; try tauto.
        -- intros Hx. apply Hns' in Hx. lia.
        -- intros Hx. apply Hns'. lia.
    + rewrite (active_update ls sp ln _ 0 1 Hk); [lia | | reflexivity].
      unfold active. rewrite Hfw. reflexivity.
    + unfold held in *; simpl in *.
      pose proof (held_update ls sp ln (Lane (pending ln) (in_closed ln) FRecv)
                    (pending ln) (pending ln) Hk) as Hh.
      apply Permutation_app_inv_l in Hh; [rewrite Hh; exact Hval | | reflexivity].
      unfold lane_values. rewrite Hfw. reflexivity.
  - (* SpawnCloser *)
    destruct cl; try discriminate.
    destruct (ls !! sp) as [ln|] eqn:Hk; [discriminate|].
    inversion Hstep; subst; clear Hstep.
    apply lookup_ge_None in Hk.
    split; simpl; try done.
    + intros _. lia.
    + split; [intros Hx; apply Hout in Hx |]; discriminate.
  - (* InClose *)
    destruct (ls !! k) as [[p c f]|] eqn:Hk; [|discriminate].
    destruct p; [|discriminate]. destruct c; [discriminate|].
    inversion Hstep; subst; clear Hstep.
    destruct (Hl _ _ Hk) as (Hns & Hic & Hfd & Hoc). simpl in *.
    split; simpl; try done.
    + rewrite length_insert. lia.
    + intros j lj Hj. apply lookup_insert_cases in Hj as [[-> ->]|[Hne Hj]]; [|auto].
      unfold lane_ok; simpl. repeat split; try tauto.
    + rewrite (active_update ls k _ (Lane [] true f) _ _ Hk eq_refl eq_refl).
      unfold active; simpl. lia.
    + rewrite length_insert. exact Hcl.
    + unfold held in *; simpl in *.
      pose proof (held_update ls k _ (Lane [] true f) _ _ Hk eq_refl eq_refl) as Hh.
      unfold lane_values in Hh at 1 2; simpl in Hh.
      apply Permutation_app_inv_l in Hh. rewrite Hh. exact Hval.
  - (* FwdRecv *)
    destruct (ls !! k) as [[p c f]|] eqn:Hk; [|discriminate].
    destruct (Hl _ _ Hk) as (Hns & Hic & Hfd & Hoc). simpl in *.
    destruct p as [|v rest].
    + destruct c; [|discriminate]. destruct f; try discriminate.
      pose proof (active_update ls k _ (Lane [] true FDone) 1 0 Hk eq_refl eq_refl) as Hs.
      destruct (w - 1 <? 0) eqn:Hneg; [apply Z.ltb_lt in Hneg; lia|].
      inversion Hstep; subst; clear Hstep.
      split; simpl; try done.
      * rewrite length_insert. lia.
      * intros j lj Hj. apply lookup_insert_cases in Hj as [[-> ->]|[Hne Hj]]; [|auto].
        unfold lane_ok; simpl. repeat split; try tauto; try discriminate.
        intros Hx. apply Hns in Hx. discriminate.
      * lia.
      * rewrite length_insert. exact Hcl.
      * unfold held in *; simpl in *.
        pose proof (held_update ls k _ (Lane [] true FDone) [] [] Hk eq_refl eq_refl) as Hh.
        simpl in Hh. rewrite Hh. exact Hval.
    + destruct f; try discriminate.
      inversion Hstep; subst; clear Hstep.
      assert (Hocf : oc = false) by (destruct oc; [specialize (Hoc eq_refl); discriminate | reflexivity]).
      split; simpl; try done.
      * rewrite length_insert. lia.
      * intros j lj Hj. apply lookup_insert_cases in Hj as [[-> ->]|[Hne Hj]]; [|auto].
        unfold lane_ok; simpl. repeat split; try tauto; try discriminate.
        -- intros Hx. apply Hns in Hx. discriminate.
        -- intros Hx. specialize (Hic Hx). discriminate.
        -- subst oc. discriminate.
      * rewrite (active_update ls k _ (Lane rest c (FSend v)) 1 1 Hk eq_refl eq_refl). lia.
      * rewrite length_insert. exact Hcl.
      * unfold held in *; simpl in *.
        pose proof (held_update ls k _ (Lane rest c (FSend v)) (v :: rest) (v :: rest)
                      Hk eq_refl eq_refl) as Hh.
        apply Permutation_app_inv_l in Hh. rewrite Hh. exact Hval.
  - (* Deliver *)
    destruct (ls !! k) as [[p c f]|] eqn:Hk; [|discriminate].
    destruct (Hl _ _ Hk) as (Hns & Hic & Hfd & Hoc). simpl in *.
    destruct f; try discriminate.
    destruct oc; [specialize (Hoc eq_refl); discriminate|].
    destruct cl; try discriminate.
    + destruct cd; [discriminate|].
      inversion Hstep; subst; clear Hstep.
      split; simpl; try done.
      * rewrite length_insert. lia.
      * intros j lj Hj. apply lookup_insert_cases in Hj as [[-> ->]|[Hne Hj]]; [|auto].
        unfold lane_ok; simpl. repeat split; try tauto; try discriminate.
        intros Hx. apply Hns in Hx. discriminate.
      * rewrite (active_update ls k _ (Lane p c FRecv) 1 1 Hk eq_refl eq_refl). lia.
      * rewrite length_insert. exact Hcl.
      * unfold held in *; simpl in *.
        pose proof (held_update ls k _ (Lane p c FRecv) (v :: p) p Hk eq_refl eq_refl) as Hh.
        rewrite <- Hval, <- app_assoc. apply Permutation_app_head.
        apply (Permutation_app_inv_l p). rewrite <- Hh. simpl.
        symmetry. apply Permutation_middle.
    + destruct Hout as [_ Hx]. specialize (Hx eq_refl). discriminate.
  - (* CloserRun *)
    destruct cl; try discriminate.
    destruct (w =? 0) eqn:Hw; [|discriminate]. apply Z.eqb_eq in Hw.
    destruct oc; [destruct Hout as [Hx _]; specialize (Hx eq_refl); discriminate|].
    inversion Hstep; subst; clear Hstep.
    specialize (Hcl ltac:(discriminate)).
    split; simpl; try done.
    intros j lj Hj. destruct (Hl _ _ Hj) as (Hns & Hic & Hfd & Hoc).
    unfold lane_ok. repeat split; try tauto.
    intros _.
    assert (Hact : active lj = 0%nat) by (apply (active_zero ls j lj); [lia | exact Hj]).
    pose proof (lookup_lt_Some _ _ _ Hj) as Hlt.
    unfold active in Hact. destruct (fw lj) eqn:Hf; try discriminate; auto.
    destruct Hns as [Hx _]. specialize (Hx eq_refl). lia.
  - (* ConsExit *)
    destruct cl; try discriminate.
    + destruct oc; [|discriminate]. destruct cd; [discriminate|].
      inversion Hstep; subst; clear Hstep. split; simpl; try done.
    + destruct oc; [|discriminate]. destruct cd; [discriminate|].
      inversion Hstep; subst; clear Hstep. split; simpl; try done.
Qed.

Lemma measure_update (ls : list lane) (k : nat) (ln ln' : lane) :
  ls !! k = Some ln -> (lane_measure ln' < lane_measure ln)%nat ->
  (sum_list (map lane_measure (<[k:=ln']> ls)) < sum_list (map lane_measure ls))%nat.
Proof.
  intros Hk Hlt. pose proof (sum_list_insert lane_measure ls k ln ln' Hk). lia.
Qed.

Ltac lane_decr Hk ln' :=
  match type of Hk with
  | ?ls !! ?k = Some ?ln =>
      let Hlt := fresh "Hlt" in
      assert (Hlt : (lane_measure ln' < lane_measure ln)%nat)
        by (unfold lane_measure; simpl; repeat case_match; lia);
      pose proof (measure_update ls k ln ln' Hk Hlt);
      repeat case_match; lia
  end.

Lemma fanin_measure_decreasing inputs : decreasing step (inv inputs) measure.
Proof.
  intros l s s' Hinv Hstep.
  pose proof (inv_panic _ _ (fanin_inv_preserved inputs l s s' Hinv Hstep)) as Hp'.
  destruct Hinv as [Hp _ Hl _ _ _ _ _].
  unfold step in Hstep. rewrite Hp in Hstep.
  destruct s as [ls sp w cl oc mg cd pn]; simpl in *. subst pn.
  unfold measure; simpl.
  destruct l.
  - destruct cl; try discriminate.
    destruct (ls !! sp) as [[p c f]|] eqn:Hk; [|discriminate].
    inversion Hstep; subst; clear Hstep. simpl.
    destruct (Hl _ _ Hk) as ((_ & Hns) & _). simpl in Hns.
    rewrite (Hns (le_n _)) in Hk.
    lane_decr Hk (Lane p c FRecv).
  - destruct cl; try discriminate.
    destruct (ls !! sp); [discriminate|].
    inversion Hstep; subst; clear Hstep. simpl. lia.
  - destruct (ls !! k) as [[p c f]|] eqn:Hk; [|discriminate].
    destruct p; [|discriminate]. destruct c; [discriminate|].
    inversion Hstep; subst; clear Hstep. simpl.
    lane_decr Hk (Lane [] true f).
  - destruct (ls !! k) as [[p c f]|] eqn:Hk; [|discriminate].
    destruct p as [|v rest].
    + destruct c; [|discriminate]. destruct f; try discriminate.
      destruct (w - 1 <? 0); inversion Hstep; subst; clear Hstep; simpl in *; [discriminate|].
      lane_decr Hk (Lane [] true FDone).
    + destruct f; try discriminate.
      inversion Hstep; subst; clear Hstep. simpl.
      lane_decr Hk (Lane rest c (FSend v)).
  - destruct (ls !! k) as [[p c f]|] eqn:Hk; [|discriminate].
    destruct f; try discriminate.
    destruct oc; [inversion Hstep; subst; discriminate|].
    destruct cl; try discriminate; (destruct cd; [discriminate|]);
      inversion Hstep; subst; clear Hstep; simpl;
      lane_decr Hk (Lane p c FRecv).
  - destruct cl; try discriminate.
    destruct (w =? 0); [|discriminate].
    destruct oc; inversion Hstep; subst; clear Hstep; simpl in *; [discriminate|]. lia.
  - destruct cl; try discriminate;
      (destruct oc; [|discriminate]); (destruct cd; [discriminate|]);
      inversion Hstep; subst; clear Hstep; simpl; lia.
Qed.

Definition lane_done (ln : lane) : Prop :=
  fw ln = FDone /\ pending ln = [] /\ in_closed ln = true.

Lemma done_no_values (ls : list lane) :
  Forall lane_done ls ->
  concat (map lane_values ls) = [] /\ sum_list (map active ls) = 0%nat.
Proof.
  induction 1 as [|ln ls (Hf & Hp & _) _ [IH1 IH2]]; [split; reflexivity|].
  simpl. rewrite IH1, IH2. unfold lane_values, active. rewrite Hf, Hp.
  split; reflexivity.
Qed.

(** The end of every run: all forwarders have returned, the closer has
    closed [output], the caller has left its loop with every value. *)
Definition final (inputs : list (list V)) (s : state) : Prop :=
  Forall lane_done (lanes s) /\ closer s = CDone /\ out_closed s = true /\
  cons_done s = true /\ merged s ≡ₚ concat inputs.

Lemma fanin_stuck_final inputs s : inv inputs s -> stuck step s -> final inputs s.
Proof.
  intros [Hp Hsp Hl Hwg Hcl Hout Hco Hval] Hst.
  assert (Hstep : forall l, step l s = None) by exact Hst. clear Hst.
  unfold step in Hstep. rewrite Hp in Hstep.
  destruct s as [ls sp w cl oc mg cd pn]; simpl in *. subst pn.
  assert (Hcl' : cl <> CNotStarted).
  { intros ->. pose proof (Hstep Spawn) as H1. pose proof (Hstep SpawnCloser) as H2.
    simpl in *. destruct (ls !! sp); discriminate. }
  specialize (Hcl Hcl').
  assert (Hdone : Forall lane_done ls).
  { apply Forall_lookup_2. intros j [p c f] Hj.
    destruct (Hl _ _ Hj) as (Hns & Hic & Hfd & Hoc). simpl in *.
    pose proof (lookup_lt_Some _ _ _ Hj) as Hlt.
    pose proof (Hstep (FwdRecv j)) as HR. pose proof (Hstep (InClose j)) as HC.
    pose proof (Hstep (Deliver j)) as HD. simpl in *. rewrite Hj in HR, HC, HD.
    destruct f.
    - destruct Hns as [Hx _]. specialize (Hx eq_refl). lia.
    - destruct p; [|discriminate]. destruct c; [|discriminate].
      destruct (w - 1 <? 0); discriminate.
    - destruct oc; [discriminate|]. destruct cd; [specialize (Hco eq_refl); discriminate|].
      destruct cl; try discriminate. congruence.
    - destruct (Hfd eq_refl) as [-> ->]. repeat split. }
  destruct (done_no_values ls Hdone) as [Hheld Hact].
  unfold held in Hval; simpl in Hval. rewrite Hheld, app_nil_r in Hval.
  pose proof (Hstep CloserRun) as HC. pose proof (Hstep ConsExit) as HE. simpl in *.
  rewrite Hwg, Hact in HC. simpl in HC.
  destruct cl; try congruence.
  - destruct oc; discriminate.
  - destruct Hout as [_ Hx]. specialize (Hx eq_refl). subst oc.
    destruct cd; [|discriminate]. repeat split; auto.
Qed.

Definition labels_of (s : state) : list label :=
  [Spawn; SpawnCloser; CloserRun; ConsExit]
  ++ flat_map (fun k => [InClose k; FwdRecv k; Deliver k]) (seq 0 (length (lanes s))).

Lemma fanin_can_move (s : state) : stuck step s \/ exists l s', step l s = Some s'.
Proof.
  apply (stuck_or_move step (labels_of s)).
  intros l s' Hstep. unfold labels_of.
  assert (Hk : forall k, is_Some (lanes s !! k) ->
            In k (seq 0 (length (lanes s)))).
  { intros k Hk. apply lookup_lt_is_Some in Hk. apply in_seq. lia. }
  unfold step in Hstep. destruct (panic s); [discriminate|].
  destruct l; simpl; auto 6;
    do 4 right; apply in_flat_map; exists k;
    (split; [apply Hk; destruct (lanes s !! k); [eauto | discriminate] | simpl; auto]).
Qed.

(** [close(output)] is executed by the [CloserRun] step and by no other. *)
Definition is_close (l : label) : nat :=
  match l with CloserRun => 1 | _ => 0 end.

Lemma fanin_close_count inputs l s s' :
  inv inputs s -> step l s = Some s' ->
  (if out_closed s' then 1 else 0)%nat
  = ((if out_closed s then 1 else 0) + is_close l)%nat.
Proof.
  intros Hinv Hstep.
  pose proof (inv_panic _ _ (fanin_inv_preserved inputs l s s' Hinv Hstep)) as Hp'.
  destruct Hinv as [Hp _ _ _ _ _ _ _].
  unfold step in Hstep. rewrite Hp in Hstep.
  destruct s as [ls sp w cl oc mg cd pn]; simpl in *.
  destruct l; simpl;
    repeat (match type of Hstep with
            | context [match ?x with _ => _ end] => destruct x eqn:?
            end; try discriminate);
    inversion Hstep; subst; simpl in *; try discriminate; try lia.
Qed.

Lemma fanin_lanes_length (n : nat) :
  preserved step (fun s => length (lanes s) = n).
Proof.
  intros l s s' Hlen Hstep. unfold step in Hstep.
  destruct s as [ls sp w cl oc mg cd pn]; simpl in *.
  destruct pn; [discriminate|].
  destruct l; simpl in Hstep;
    repeat (match type of Hstep with
            | context [match ?x with _ => _ end] => destruct x eqn:?
            end; try discriminate);
    inversion Hstep; subst; simpl; rewrite ?length_insert; reflexivity.
Qed.

(** With no forwarder left to wait for, [wg.Wait()] returns at once and the
    closer closes [output]. *)
Lemma fanin_closer_enabled inputs s :
  inv inputs s -> Forall lane_done (lanes s) -> closer s = CWait ->
  exists s', step CloserRun s = Some s' /\ out_closed s' = true /\ merged s' = merged s.
Proof.
  intros [Hp _ _ Hwg _ Hout _ _] Hdone Hc.
  destruct (done_no_values _ Hdone) as [_ Hact].
  unfold step. rewrite Hp, Hc, Hwg, Hact. simpl.
  destruct (out_closed s) eqn:Ho.
  - destruct Hout as [Hx _]. specialize (Hx eq_refl). congruence.
  - eexists. split; [reflexivity|]. simpl. auto.
Qed.

End Model.

(** [fanInExample]: two inputs of five values each. *)
Definition fanInExample : state (V := string) :=
  init [ ["输入1-1"; "输入1-2"; "输入1-3"; "输入1-4"; "输入1-5"]%string;
         ["输入2-1"; "输入2-2"; "输入2-3"; "输入2-4"; "输入2-5"]%string ].
End FanIn.

(** C1 — fan-in conservation and closure.  For every list of inputs (any
    number [K >= 0], input [k] carrying the values of its list) and every
    schedule: no goroutine panics; the values the caller has received,
    together with those still held by the lanes, are a permutation of all the
    inputs' values (nothing lost, nothing duplicated); [close(output)] has
    been executed exactly once if [output] is closed and not at all
    otherwise; [output] is closed only when every forwarder has drained its
    input and returned, and then the caller has been given exactly the sum of
    the [m_k] values; once every forwarder has returned (at once when
    [K = 0]) the waiting closer closes [output] without further delay; no
    schedule is longer than the initial measure; when nothing can move, the
    run is in its final state; and every reachable state can be run on to the
    final state. *)
Theorem fanin_conservation_and_closure {V : Type} (inputs : list (list V))
    (sched : list FanIn.label) (s : FanIn.state) :
  run FanIn.step sched (FanIn.init inputs) = Some s ->
  FanIn.panic s = None /\
  FanIn.merged s ++ FanIn.held s ≡ₚ concat inputs /\
  sum_list (map FanIn.is_close sched) = (if FanIn.out_closed s then 1 else 0)%nat /\
  (FanIn.out_closed s = true ->
     Forall FanIn.lane_done (FanIn.lanes s) /\
     FanIn.merged s ≡ₚ concat inputs /\
     length (FanIn.merged s) = sum_list (map length inputs)) /\
  (FanIn.closer s = FanIn.CWait ->
   inputs = [] \/ Forall FanIn.lane_done (FanIn.lanes s) ->
     exists s', FanIn.step FanIn.CloserRun s = Some s' /\
                FanIn.out_closed s' = true /\ FanIn.merged s' = FanIn.merged s) /\
  (length sched <= FanIn.measure (FanIn.init inputs))%nat /\
  (stuck FanIn.step s -> FanIn.final inputs s) /\
  (exists sched' s', run FanIn.step sched' s = Some s' /\ stuck FanIn.step s' /\
                     FanIn.final inputs s').
Proof.
  intros Hrun.
  destruct (run_total FanIn.step (FanIn.inv inputs) (FanIn.final inputs)
              FanIn.measure (FanIn.init inputs)
              (FanIn.fanin_inv_init inputs)
              (FanIn.fanin_inv_preserved inputs)
              (FanIn.fanin_measure_decreasing inputs)
              (fun s _ => FanIn.fanin_can_move s)
              (FanIn.fanin_stuck_final inputs) sched s Hrun)
    as (Hinv & Hlen & Hst & Hex).
  pose proof (run_count FanIn.step (FanIn.inv inputs)
                (fun s => if FanIn.out_closed s then 1 else 0)%nat FanIn.is_close
                (FanIn.fanin_inv_preserved inputs)
                (fun l s s' => FanIn.fanin_close_count inputs l s s')
                sched _ _ (FanIn.fanin_inv_init inputs) Hrun) as Hcount.
  assert (Hlanes : length (FanIn.lanes s) = length inputs).
  { apply (run_invariant FanIn.step _ (FanIn.fanin_lanes_length (length inputs))
             sched (FanIn.init inputs) s); [apply length_map | exact Hrun]. }
  simpl in Hcount.
  assert (Hclosed : FanIn.out_closed s = true -> Forall FanIn.lane_done (FanIn.lanes s)).
  { intros Ho. apply Forall_lookup_2. intros k ln Hk.
    destruct (FanIn.inv_lanes _ _ Hinv _ _ Hk) as (_ & _ & Hfd & Hoc).
    rewrite Ho in Hoc. specialize (Hoc eq_refl). destruct (Hfd Hoc). repeat split; auto. }
  split; [apply Hinv|]. split; [apply Hinv|]. split; [auto|].
  split; [|split; [|split; [lia | split; [exact Hst | exact Hex]]]].
  - intros Ho. specialize (Hclosed Ho). split; [exact Hclosed|].
    destruct (FanIn.done_no_values _ Hclosed) as [Hheld _].
    pose proof (FanIn.inv_values _ _ Hinv) as Hval.
    unfold FanIn.held in Hval. rewrite Hheld, app_nil_r in Hval.
    split; [exact Hval|]. rewrite Hval. clear. induction inputs as [|x xs IH]; simpl; [reflexivity|].
    rewrite length_app, IH. reflexivity.
  - intros Hc Hdone. apply (FanIn.fanin_closer_enabled inputs); auto.
    destruct Hdone as [-> | Hdone]; [|exact Hdone].
    simpl in Hlanes. destruct (FanIn.lanes s); [constructor | discriminate].
Qed.

(** Two inputs with one and two values, forwarded and closed. *)
Definition fanin_sched_example : list FanIn.label :=
  [FanIn.Spawn; FanIn.Spawn; FanIn.SpawnCloser;
   FanIn.FwdRecv 1; FanIn.Deliver 1; FanIn.FwdRecv 0; FanIn.Deliver 0;
   FanIn.InClose 0; FanIn.FwdRecv 0; FanIn.FwdRecv 1; FanIn.Deliver 1;
   FanIn.InClose 1; FanIn.FwdRecv 1; FanIn.CloserRun; FanIn.ConsExit].

Definition fanin_end_example : FanIn.state (V := Z) :=
  FanIn.State [FanIn.Lane [] true FanIn.FDone; FanIn.Lane [] true FanIn.FDone]
    2 0 FanIn.CDone true [20; 10; 21] true None.

Lemma fanin_conservation_and_closure_witness :
  run FanIn.step fanin_sched_example (FanIn.init [[10]; [20; 21]])
  = Some fanin_end_example /\
  sum_list (map FanIn.is_close fanin_sched_example) = 1%nat.
Proof.
  split; [reflexivity|].
  exact (proj1 (proj2 (proj2 (fanin_conservation_and_closure [[10]; [20; 21]]
           fanin_sched_example fanin_end_example eq_refl)))).
Defined.

(** ** Worker pool: [worker] and [workerPoolExample]

    [workerPoolExample] makes two buffered channels of capacity [numTasks],
    starts [numWorkers] workers (each after a [wg.Add(1)]), a goroutine that
    sends the tasks 1..numTasks and closes [tasks], and a goroutine that waits
    for the workers and closes [results]; then it ranges over [results].
    The source fixes [numWorkers = 3] and [numTasks = 8]; both are parameters
    here.  [time.Sleep] and printing only take time and are left out. *)

Module WorkerPool.

Record Task : Type := MkTask { ID : Z; Name : string; Data : string }.

(** [%d] of [fmt.Sprintf] *)
Definition itoa (z : Z) : string := NilZero.string_of_int (Z.to_int z).

(** The task built in the sending goroutine for loop index [i]. *)
Definition mkTask (i : Z) : Task :=
  MkTask i ("任务_" ++ itoa i) ("数据_" ++ itoa (GoInt.mul i 10)).

(** [for i := 1; i <= numTasks; i++]: the tasks in the order they are sent. *)
Definition tasks_of (numTasks : nat) : list Task :=
  map (fun i => mkTask (Z.of_nat i)) (seq 1 numTasks).

(** [fmt.Sprintf("Worker %d 完成任务 %d: %s -> 处理了 %s", id, task.ID, task.Name, task.Data)] *)
Definition sprintf_result (id : Z) (t : Task) : string :=
  "Worker " ++ itoa id ++ " 完成任务 " ++ itoa (ID t) ++ ": " ++ Name t
  ++ " -> 处理了 " ++ Data t.

(** The processing of [worker] as the source has it: it cannot fail. *)
Definition process_src (id : Z) (t : Task) : option string :=
  Some (sprintf_result id t).

Inductive worker_pc : Type :=
| WNotStarted      (* the loop of workerPoolExample has not started it *)
| WRecv            (* at the receive of [range tasks] *)
| WHold (t : Task) (* has a task: formats the result and sends it *)
| WDone.           (* returned, [wg.Done()] executed *)

Inductive producer_pc : Type := PNotStarted | PRunning | PDone.
Inductive closer_pc : Type := CNotStarted | CWait | CDone.

Record state : Type := State {
  workers : list worker_pc;   (* worker at index k has id k+1 *)
  spawned : nat;              (* workers started so far *)
  wg : Z;
  to_send : list Task;        (* tasks the sending goroutine has still to send *)
  producer : producer_pc;
  tasks : Chan.chan Task;
  results : Chan.chan string;
  closer : closer_pc;
  collected : list string;    (* results received by workerPoolExample *)
  main_done : bool;           (* its range over results has ended *)
  panic : option panic_kind
}.

Inductive label : Type :=
| Spawn               (* wg.Add(1); go worker(i, tasks, results, &wg) *)
| SpawnProducer       (* go func() { for ... { tasks <- task }; close(tasks) }() *)
| SpawnCloser         (* go func() { wg.Wait(); close(results) }() *)
| Produce             (* tasks <- task *)
| CloseTasks          (* close(tasks) *)
| WorkerRecv (k : nat)  (* worker k+1: receive of range tasks, a task or the end *)
| WorkerSend (k : nat)  (* worker k+1: result := ...; results <- result *)
| CloserRun           (* wg.Wait() returns; close(results) *)
| Collect.            (* receive of range results, a result or the end *)

Definition init (numWorkers numTasks : nat) : state :=
  State (replicate numWorkers WNotStarted) 0 0 (tasks_of numTasks) PNotStarted
        (Chan.make numTasks) (Chan.make numTasks) CNotStarted [] false None.

Definition set_panic (s : state) (p : panic_kind) : state :=
  State (workers s) (spawned s) (wg s) (to_send s) (producer s) (tasks s)
        (results s) (closer s) (collected s) (main_done s) (Some p).

Section Model.
(** What a worker does with a task: [Some] result, or [None] for a panic.
    The source's worker uses [process_src]. *)
Variable process : Z -> Task -> option string.

Definition step (l : label) (s : state) : option state :=
  match panic s with
  | Some _ => None
  | None =>
      match l with
      | Spawn =>
          match producer s, workers s !! spawned s with
          | PNotStarted, Some _ =>
              Some (State (<[spawned s := WRecv]> (workers s)) (S (spawned s))
                      (wg s + 1) (to_send s) (producer s) (tasks s) (results s)
                      (closer s) (collected s) (main_done s) None)
          | _, _ => None
          end
      | SpawnProducer =>
          match producer s, workers s !! spawned s with
          | PNotStarted, None =>
              Some (State (workers s) (spawned s) (wg s) (to_send s) PRunning
                      (tasks s) (results s) (closer s) (collected s)
                      (main_done s) None)
          | _, _ => None
          end
      | SpawnCloser =>
          match producer s, closer s with
          | PNotStarted, _ => None
          | _, CNotStarted =>
              Some (State (workers s) (spawned s) (wg s) (to_send s) (producer s)
                      (tasks s) (results s) CWait (collected s) (main_done s) None)
          | _, _ => None
          end
      | Produce =>
          match producer s, to_send s with
          | PRunning, t :: rest =>
              match Chan.send t (tasks s) with
              | Chan.SendOk c' =>
                  Some (State (workers s) (spawned s) (wg s) rest (producer s) c'
                          (results s) (closer s) (collected s) (main_done s) None)
              | Chan.SendBlock => None
              | Chan.SendPanic => Some (set_panic s SendOnClosedChannel)
              end
          | _, _ => None
          end
      | CloseTasks =>
          match producer s, to_send s with
          | PRunning, [] =>
              match Chan.close (tasks s) with
              | Some c' =>
                  Some (State (workers s) (spawned s) (wg s) [] PDone c'
                          (results s) (closer s) (collected s) (main_done s) None)
              | None => Some (set_panic s CloseOfClosedChannel)
              end
          | _, _ => None
          end
      | WorkerRecv k =>
          match workers s !! k with
          | Some WRecv =>
              match Chan.recv (tasks s) with
              | Chan.RecvOk t c' =>
                  Some (State (<[k := WHold t]> (workers s)) (spawned s) (wg s)
                          (to_send s) (producer s) c' (results s) (closer s)
                          (collected s) (main_done s) None)
              | Chan.RecvClosed =>
                  (* the loop ends; the deferred wg.Done() runs *)
                  if wg s - 1 <? 0 then Some (set_panic s NegativeWaitGroupCounter)
                  else Some (State (<[k := WDone]> (workers s)) (spawned s)
                               (wg s - 1) (to_send s) (producer s) (tasks s)
                               (results s) (closer s) (collected s) (main_done s) None)
              | Chan.RecvBlock => None
              end
          | _ => None
          end
      | WorkerSend k =>
          match workers s !! k with
          | Some (WHold t) =>
              match process (Z.of_nat k + 1) t with
              | None => Some (set_panic s ProcessPanic)  (* no recover in worker *)
              | Some r =>
                  match Chan.send r (results s) with
                  | Chan.SendOk c' =>
                      Some (State (<[k := WRecv]> (workers s)) (spawned s) (wg s)
                              (to_send s) (producer s) (tasks s) c' (closer s)
                              (collected s) (main_done s) None)
                  | Chan.SendBlock => None
                  | Chan.SendPanic => Some (set_panic s SendOnClosedChannel)
                  end
              end
          | _ => None
          end
      | CloserRun =>
          match closer s with
          | CWait =>
              if wg s =? 0
              then match Chan.close (results s) with
                   | Some c' =>
                       Some (State (workers s) (spawned s) (wg s) (to_send s)
                               (producer s) (tasks s) c' CDone (collected s)
                               (main_done s) None)
                   | None => Some (set_panic s CloseOfClosedChannel)
                   end
              else None
          | _ => None
          end
      | Collect =>
          match closer s with
          | CNotStarted => None
          | _ =>
              if main_done s then None
              else match Chan.recv (results s) with
                   | Chan.RecvOk r c' =>
                       Some (State (workers s) (spawned s) (wg s) (to_send s)
                               (producer s) (tasks s) c' (closer s)
                               (collected s ++ [r]) false None)
                   | Chan.RecvClosed =>
                       Some (State (workers s) (spawned s) (wg s) (to_send s)
                               (producer s) (tasks s) (results s) (closer s)
                               (collected s) true None)
                   | Chan.RecvBlock => None
                   end
          end
      end
  end.
End Model.

(** *** Invariant and measure *)

Section Proofs.
Variable process : Z -> Task -> option string.
Variables numWorkers numTasks : nat.

Definition active (pc : worker_pc) : nat :=
  match pc with WRecv | WHold _ => 1 | _ => 0 end.

Definition holding (pc : worker_pc) : list Task :=
  match pc with WHold t => [t] | _ => [] end.

(** Tasks received by a worker and not answered yet. *)
Definition held (s : state) : list Task := concat (map holding (workers s)).

(** A finished piece of work: which worker turned which task into which
    result. *)
Record job : Type := Job { job_worker : Z; job_task : Task; job_result : string }.

Definition job_ok (j : job) : Prop :=
  process (job_worker j) (job_task j) = Some (job_result j) /\
  1 <= job_worker j <= Z.of_nat numWorkers.

Definition worker_ok (s : state) (k : nat) (pc : worker_pc) : Prop :=
  (pc = WNotStarted <-> (spawned s <= k)%nat) /\
  (pc = WDone -> Chan.closed (tasks s) = true /\ Chan.buf (tasks s) = []) /\
  (Chan.closed (results s) = true -> pc = WDone).

Record inv (s : state) : Prop := Inv {
  inv_panic : panic s = None;
  inv_len : length (workers s) = numWorkers;
  inv_spawned : (spawned s <= numWorkers)%nat;
  inv_workers : forall k pc, workers s !! k = Some pc -> worker_ok s k pc;
  inv_wg : wg s = Z.of_nat (sum_list (map active (workers s)));
  inv_producer : producer s <> PNotStarted -> spawned s = numWorkers;
  inv_closer : closer s <> CNotStarted -> producer s <> PNotStarted;
  inv_tasks_cap : Chan.cap (tasks s) = numTasks;
  inv_tasks_closed : Chan.closed (tasks s) = true <-> producer s = PDone;
  inv_to_send : producer s = PDone -> to_send s = [];
  inv_results_cap : Chan.cap (results s) = numTasks;
  inv_results_closed : Chan.closed (results s) = true <-> closer s = CDone;
  inv_main : main_done s = true ->
             Chan.closed (results s) = true /\ Chan.buf (results s) = [];
  inv_jobs : exists jobs,
      Forall job_ok jobs /\
      map job_task jobs ++ held s ++ Chan.buf (tasks s) ++ to_send s
        ≡ₚ tasks_of numTasks /\
      collected s ++ Chan.buf (results s) ≡ₚ map job_result jobs
}.

Definition worker_measure (pc : worker_pc) : nat :=
  match pc with WNotStarted => 2 | WRecv => 1 | WHold _ => 3 | WDone => 0 end.

Definition measure (s : state) : nat :=
  sum_list (map worker_measure (workers s))
  + 4 * length (to_send s) + 3 * length (Chan.buf (tasks s))
  + length (Chan.buf (results s))
  + match producer s with PNotStarted => 2 | PRunning => 1 | PDone => 0 end
  + match closer s with CNotStarted => 2 | CWait => 1 | CDone => 0 end
  + (if main_done s then 0 else 1).

Lemma wp_inv_init : inv (init numWorkers numTasks).
Proof.
  split; simpl; try done.
  - apply length_replicate.
  - lia.
  - intros k pc Hk. apply lookup_replicate in Hk as [-> _].
    unfold worker_ok; simpl. repeat split; try done. lia.
  - induction numWorkers; simpl; auto.
  - exists []. simpl. split; [constructor|]. split; [|reflexivity].
    unfold held; simpl.
    assert (H : concat (map holding (replicate numWorkers WNotStarted)) = [])
      by (induction numWorkers; simpl; auto).
    rewrite H. reflexivity.
Qed.

Lemma wp_held_update (ws : list worker_pc) (k : nat) (pc pc' : worker_pc)
    (xs ys : list Task) :
  ws !! k = Some pc -> holding pc = xs -> holding pc' = ys ->
  xs ++ concat (map holding (<[k:=pc']> ws)) ≡ₚ ys ++ concat (map holding ws).
Proof. intros Hk <- <-. apply concat_insert_perm, Hk. Qed.

Lemma wp_active_update (ws : list worker_pc) (k : nat) (pc pc' : worker_pc)
    (a a' : nat) :
  ws !! k = Some pc -> active pc = a -> active pc' = a' ->
  Z.of_nat (sum_list (map active (<[k:=pc']> ws)))
  = Z.of_nat (sum_list (map active ws)) - Z.of_nat a + Z.of_nat a'.
Proof.
  intros Hk <- <-. pose proof (sum_list_insert active ws k pc pc' Hk). lia.
Qed.

Lemma wp_active_zero (ws : list worker_pc) (k : nat) (pc : worker_pc) :
  sum_list (map active ws) = 0%nat -> ws !! k = Some pc -> active pc = 0%nat.
Proof.
  intros Hsum Hk. apply list_elem_of_lookup_2 in Hk.
  induction Hk; simpl in Hsum; [lia | apply IHHk; lia].
Qed.
Definition total : Prop := forall id t, is_Some (process id t).

Lemma wp_inv_preserved : total -> preserved (step process) inv.
Proof.
  intros Htot l s s'
    [Hp Hlen Hsp Hw Hwg Hpr Hcl Htc Htcl Hts Hrc Hrcl Hm (jobs & Hjok & Hjt & Hjr)] Hstep.
  unfold step in Hstep. rewrite Hp in Hstep.
  destruct s as [ws sp w ts pr tk rs cl col md pn]; simpl in *. subst pn.
  unfold worker_ok in Hw; simpl in Hw. unfold held in Hjt; simpl in Hjt.
  destruct l.
  - (* Spawn *)
    destruct pr; try discriminate.
    destruct (ws !! sp) as [pc|] eqn:Hk; [|discriminate].
    inversion Hstep; subst; clear Hstep.
    destruct (Hw _ _ Hk) as ((_ & Hns) & _). specialize (Hns (le_n _)). subst pc.
    assert (Hcl0 : cl = CNotStarted) by (destruct cl; auto; exfalso; apply Hcl; done).
    pose proof (lookup_lt_Some _ _ _ Hk) as Hlt.
    split; simpl; try done; try (intros _; auto; fail).
    + rewrite length_insert. done.
    + lia.
    + intros j pc Hj. apply lookup_insert_cases in Hj as [[-> ->]|[Hne Hj]].
      * unfold worker_ok; simpl. repeat split; try done; try lia.
        intros Hx. apply Hrcl in Hx. congruence.
      * destruct (Hw _ _ Hj) as (Ha & Hb & Hc).
        unfold worker_ok; simpl. repeat split; try tauto.
        -- intros Hx. apply Ha in Hx. lia.
        -- intros Hx. apply Ha. lia.
    + rewrite (wp_active_update ws sp _ WRecv 0 1 Hk eq_refl eq_refl). lia.
    + exists jobs. split; [done|]. split; [|done].
      unfold held; simpl.
      pose proof (wp_held_update ws sp _ WRecv [] [] Hk eq_refl eq_refl) as Hh.
      simpl in Hh. rewrite Hh. done.
  - (* SpawnProducer *)
    destruct pr; try discriminate.
    destruct (ws !! sp) as [pc|] eqn:Hk; [discriminate|].
    inversion Hstep; subst; clear Hstep.
    apply lookup_ge_None in Hk.
    split; simpl; try done; try (intros _; auto; fail).
    + intros _. lia.
    + split; [intros Hx; apply Htcl in Hx |]; discriminate.
    + exists jobs. done.
  - (* SpawnCloser *)
    destruct pr; try discriminate;
      (destruct cl; try discriminate);
      inversion Hstep; subst; clear Hstep;
      (split; simpl; try done; try (intros _; auto; fail);
       [ split; [intros Hx; apply Hrcl in Hx |]; discriminate
       | exists jobs; done ]).
  - (* Produce *)
    destruct pr; try discriminate. destruct ts as [|t rest]; [discriminate|].
    unfold Chan.send in Hstep. destruct tk as [tb tn tc]; simpl in *.
    destruct tc; [destruct Htcl as [Hx _]; specialize (Hx eq_refl); discriminate|].
    destruct (length tb <? tn)%nat; [|discriminate].
    inversion Hstep; subst; clear Hstep.
    split; simpl; try done; try (intros _; auto; fail).
    + intros j pc Hj. destruct (Hw _ _ Hj) as (Ha & Hb & Hc).
      unfold worker_ok; simpl. intuition discriminate.
    + exists jobs. split; [done|]. split; [|done].
      unfold held; simpl. rewrite <- Hjt. solve_Permutation.
  - (* CloseTasks *)
    destruct pr; try discriminate. destruct ts; [|discriminate].
    unfold Chan.close in Hstep. destruct tk as [tb tn tc]; simpl in *.
    destruct tc; [destruct Htcl as [Hx _]; specialize (Hx eq_refl); discriminate|].
    inversion Hstep; subst; clear Hstep.
    split; simpl; try done; try (intros _; auto; fail).
    + intros j pc Hj. destruct (Hw _ _ Hj) as (Ha & Hb & Hc).
      unfold worker_ok; simpl. intuition discriminate.
    + exists jobs. done.
  - (* WorkerRecv *)
    destruct (ws !! k) as [pc|] eqn:Hk; [|discriminate].
    destruct pc; try discriminate.
    destruct (Hw _ _ Hk) as (Ha & Hb & Hc).
    unfold Chan.recv in Hstep. destruct tk as [tb tn tc]; simpl in *.
    destruct tb as [|t tb].
    + destruct tc; [|discriminate].
      pose proof (wp_active_update ws k _ WDone 1 0 Hk eq_refl eq_refl) as Hs.
      destruct (w - 1 <? 0) eqn:Hneg; [apply Z.ltb_lt in Hneg; lia|].
      inversion Hstep; subst; clear Hstep.
      split; simpl; try done; try (intros _; auto; fail).
      * rewrite length_insert. done.
      * intros j pc Hj. apply lookup_insert_cases in Hj as [[-> ->]|[Hne Hj]]; [|unfold worker_ok; simpl; auto].
        unfold worker_ok; simpl. repeat split; try done.
        intros Hx. apply Ha in Hx. discriminate.
      * lia.
      * exists jobs. split; [done|]. split; [|done].
        unfold held; simpl.
        pose proof (wp_held_update ws k _ WDone [] [] Hk eq_refl eq_refl) as Hh.
        simpl in Hh. rewrite Hh. done.
    + inversion Hstep; subst; clear Hstep.
      split; simpl; try done; try (intros _; auto; fail).
      * rewrite length_insert. done.
      * intros j pc Hj. apply lookup_insert_cases in Hj as [[-> ->]|[Hne Hj]].
        -- unfold worker_ok; simpl. repeat split; try done.
           ++ intros Hx. apply Ha in Hx. discriminate.
           ++ intros Hx. specialize (Hc Hx). discriminate.
        -- destruct (Hw _ _ Hj) as (Ha' & Hb' & Hc').
           unfold worker_ok; simpl. intuition discriminate.
      * rewrite (wp_active_update ws k _ (WHold t) 1 1 Hk eq_refl eq_refl). lia.
      * exists jobs. split; [done|]. split; [|done].
        unfold held; simpl.
        pose proof (wp_held_update ws k _ (WHold t) [] [t] Hk eq_refl eq_refl) as Hh.
        simpl in Hh. rewrite Hh, <- Hjt. solve_Permutation.
  - (* WorkerSend *)
    destruct (ws !! k) as [pc|] eqn:Hk; [|discriminate].
    destruct pc; try discriminate.
    destruct (Hw _ _ Hk) as (Ha & Hb & Hc).
    destruct (Htot (Z.of_nat k + 1) t) as [r Hr]. rewrite Hr in Hstep.
    unfold Chan.send in Hstep. destruct rs as [rb rn rc]; simpl in *.
    destruct rc; [specialize (Hc eq_refl); discriminate|].
    destruct (length rb <? rn)%nat; [|discriminate].
    inversion Hstep; subst; clear Hstep.
    pose proof (lookup_lt_Some _ _ _ Hk) as Hlt.
    split; simpl; try done; try (intros _; auto; fail).
    + rewrite length_insert. done.
    + intros j pc Hj. apply lookup_insert_cases in Hj as [[-> ->]|[Hne Hj]]; [|unfold worker_ok; simpl; auto].
      unfold worker_ok; simpl. repeat split; try done.
      intros Hx. apply Ha in Hx. discriminate.
    + rewrite (wp_active_update ws k _ WRecv 1 1 Hk eq_refl eq_refl). lia.
    + intros Hx. destruct (Hm Hx); discriminate.
    + exists (Job (Z.of_nat k + 1) t r :: jobs). split; [|split].
      * constructor; [|done]. split; simpl; [done | lia].
      * unfold held; simpl.
        pose proof (wp_held_update ws k _ WRecv [t] [] Hk eq_refl eq_refl) as Hh.
        simpl in Hh. rewrite <- Hjt, <- Hh. solve_Permutation.
      * simpl. rewrite <- Hjr. solve_Permutation.
  - (* CloserRun *)
    destruct cl; try discriminate.
    destruct (w =? 0) eqn:Hw0; [|discriminate]. apply Z.eqb_eq in Hw0.
    unfold Chan.close in Hstep. destruct rs as [rb rn rc]; simpl in *.
    destruct rc; [destruct Hrcl as [Hx _]; specialize (Hx eq_refl); discriminate|].
    inversion Hstep; subst; clear Hstep.
    split; simpl; try done; try (intros _; auto; fail).
    + intros j pc Hj. destruct (Hw _ _ Hj) as (Ha & Hb & Hc).
      unfold worker_ok; simpl. repeat split; try tauto.
      intros _.
      assert (Hact : active pc = 0%nat) by (apply (wp_active_zero ws j pc); [lia | done]).
      pose proof (lookup_lt_Some _ _ _ Hj) as Hlt.
      specialize (Hpr (Hcl ltac:(discriminate))).
      destruct pc; try discriminate; auto.
      destruct Ha as [Hx _]. specialize (Hx eq_refl). lia.
    + intros Hx. destruct (Hm Hx); discriminate.
    + exists jobs. done.
  - (* Collect *)
    assert (Hcl' : cl <> CNotStarted -> md = false ->
      match Chan.recv rs with
      | Chan.RecvOk r c' =>
          Some (State ws sp w ts pr tk c' cl (col ++ [r]) false None)
      | Chan.RecvClosed => Some (State ws sp w ts pr tk rs cl col true None)
      | Chan.RecvBlock => None
      end = Some s' -> inv s').
    { clear Hstep. intros Hne -> Hstep.
      unfold Chan.recv in Hstep. destruct rs as [rb rn rc]; simpl in *.
      destruct rb as [|r rb].
      - destruct rc; [|discriminate].
        inversion Hstep; subst; clear Hstep.
        split; simpl; try done; try (intros _; auto; fail). exists jobs. done.
      - inversion Hstep; subst; clear Hstep.
        split; simpl; try done; try (intros _; auto; fail). exists jobs. split; [done|]. split; [done|].
        rewrite <- Hjr. solve_Permutation. }
    destruct cl; try discriminate; (destruct md; [discriminate|]); apply Hcl'; done.
Qed.

Lemma wp_measure_update (ws : list worker_pc) (k : nat) (pc pc' : worker_pc) :
  ws !! k = Some pc ->
  (sum_list (map worker_measure (<[k:=pc']> ws)) + worker_measure pc
   = sum_list (map worker_measure ws) + worker_measure pc')%nat.
Proof. apply sum_list_insert. Qed.

Lemma wp_measure_decreasing : total -> decreasing (step process) inv measure.
Proof.
  intros Htot l s s' Hinv Hstep.
  pose proof (inv_panic _ (wp_inv_preserved Htot l s s' Hinv Hstep)) as Hp'.
  destruct Hinv as [Hp _ _ Hw _ _ _ _ _ _ _ _ _ _].
  unfold step in Hstep. rewrite Hp in Hstep.
  destruct s as [ws sp w ts pr tk rs cl col md pn]; simpl in *. subst pn.
  unfold measure; simpl.
  destruct tk as [tb tn tc], rs as [rb rn rc].
  unfold Chan.send, Chan.recv, Chan.close in Hstep; simpl in *.
  destruct l.
  - (* Spawn: the worker the loop reaches has not started *)
    destruct pr; try discriminate.
    destruct (ws !! sp) as [pc|] eqn:Hk; [|discriminate].
    destruct (Hw _ _ Hk) as ((_ & Hns) & _). specialize (Hns (le_n _)). subst pc.
    inversion Hstep; subst; clear Hstep; simpl.
    pose proof (wp_measure_update ws sp _ WRecv Hk) as Hm. simpl in Hm. lia.
  - repeat (case_match; simplify_eq/=); lia.
  - repeat (case_match; simplify_eq/=); lia.
  - repeat (case_match; simplify_eq/=); rewrite ?length_app; simpl; lia.
  - repeat (case_match; simplify_eq/=); lia.
  - destruct (ws !! k) as [pc|] eqn:Hk; [|discriminate].
    destruct pc; try discriminate.
    destruct tb as [|t tb].
    + destruct tc; [|discriminate].
      destruct (w - 1 <? 0); inversion Hstep; subst; clear Hstep; simpl in *; [discriminate|].
      pose proof (wp_measure_update ws k _ WDone Hk) as Hm. simpl in Hm. lia.
    + inversion Hstep; subst; clear Hstep; simpl.
      pose proof (wp_measure_update ws k _ (WHold t) Hk) as Hm. simpl in Hm. lia.
  - destruct (ws !! k) as [pc|] eqn:Hk; [|discriminate].
    destruct pc; try discriminate.
    destruct (process (Z.of_nat k + 1) t); [|inversion Hstep; subst; discriminate].
    destruct rc; [inversion Hstep; subst; discriminate|].
    destruct (length rb <? rn)%nat; [|discriminate].
    inversion Hstep; subst; clear Hstep; simpl. rewrite length_app; simpl.
    pose proof (wp_measure_update ws k _ WRecv Hk) as Hm. simpl in Hm. lia.
  - repeat (case_match; simplify_eq/=); lia.
  - repeat (case_match; simplify_eq/=); rewrite ?length_app; simpl; lia.
Qed.

Definition final (s : state) : Prop :=
  main_done s = true /\
  exists jobs, Forall job_ok jobs /\
               map job_task jobs ≡ₚ tasks_of numTasks /\
               collected s ≡ₚ map job_result jobs.

Lemma wp_all_done_held (ws : list worker_pc) :
  Forall (fun pc => pc = WDone) ws -> concat (map holding ws) = [].
Proof. induction 1 as [|pc ws -> _ IH]; simpl; auto. Qed.

Lemma wp_active_pos (ws : list worker_pc) :
  sum_list (map active ws) <> 0%nat ->
  exists k pc, ws !! k = Some pc /\ (pc = WRecv \/ exists t, pc = WHold t).
Proof.
  induction ws as [|pc ws IH]; simpl; [congruence|]. intros Hne.
  destruct pc; simpl in Hne;
    try (exists 0%nat; eexists; split; [reflexivity | eauto]; fail);
    destruct (IH Hne) as (k & pc & Hk & H); exists (S k), pc; auto.
Qed.

Lemma wp_held_pos (ws : list worker_pc) (k : nat) (t : Task) :
  ws !! k = Some (WHold t) -> (0 < length (concat (map holding ws)))%nat.
Proof.
  revert k. induction ws as [|pc ws IH]; intros [|k] Hk; simpl in *; try discriminate.
  - inversion Hk; subst. simpl. lia.
  - rewrite length_app. specialize (IH _ Hk). lia.
Qed.

Lemma tasks_of_length n : length (tasks_of n) = n.
Proof. unfold tasks_of. rewrite length_map, length_seq. reflexivity. Qed.

(** Once [results] is closed every task has been processed exactly once and
    its result has been sent. *)
Lemma wp_closed_all_processed s :
  inv s -> (1 <= numWorkers)%nat -> Chan.closed (results s) = true ->
  exists jobs, Forall job_ok jobs /\
               map job_task jobs ≡ₚ tasks_of numTasks /\
               collected s ++ Chan.buf (results s) ≡ₚ map job_result jobs.
Proof.
  intros [Hp Hlen Hsp Hw Hwg Hpr Hcl Htc Htcl Hts Hrc Hrcl Hm (jobs & Hjok & Hjt & Hjr)] HW Hc.
  exists jobs. split; [done|]. split; [|done].
  assert (Hall : Forall (fun pc => pc = WDone) (workers s)).
  { apply Forall_lookup_2. intros k pc Hk. destruct (Hw _ _ Hk) as (_ & _ & Hx). auto. }
  destruct (workers s !! 0%nat) as [pc0|] eqn:H0.
  - destruct (Hw _ _ H0) as (_ & Hb & Hx). destruct (Hb (Hx Hc)) as [Hb1 Hb2].
    apply Htcl in Hb1. specialize (Hts Hb1).
    unfold held in Hjt. rewrite (wp_all_done_held _ Hall), Hb2, Hts in Hjt.
    simpl in Hjt. rewrite app_nil_r in Hjt. done.
  - apply lookup_ge_None in H0. lia.
Qed.

Lemma wp_stuck_final s :
  total -> (1 <= numWorkers)%nat -> inv s -> stuck (step process) s -> final s.
Proof.
  intros Htot HW Hinv Hst.
  assert (Hmd : main_done s = true).
  { destruct Hinv as [Hp Hlen Hsp Hw Hwg Hpr Hcl Htc Htcl Hts Hrc Hrcl Hm (jobs & Hjok & Hjt & Hjr)].
    assert (Hstep : forall l, step process l s = None) by exact Hst. clear Hst.
    unfold step in Hstep. rewrite Hp in Hstep.
    destruct s as [ws sp w ts pr tk rs cl col md pn]; simpl in *. subst pn.
    unfold held in Hjt; simpl in Hjt.
    apply Permutation_length in Hjt. rewrite !length_app, tasks_of_length in Hjt.
    destruct tk as [tb tn tc], rs as [rb rn rc].
    unfold Chan.send, Chan.recv, Chan.close in Hstep; simpl in *. subst tn rn.
    assert (Hpr' : pr <> PNotStarted).
    { intros ->. pose proof (Hstep Spawn) as H1. pose proof (Hstep SpawnProducer) as H2.
      simpl in *. destruct (ws !! sp); discriminate. }
    assert (Hcl' : cl <> CNotStarted).
    { intros ->. pose proof (Hstep SpawnCloser) as H1. simpl in H1.
      destruct pr; congruence. }
    destruct md; [done|]. exfalso.
    pose proof (Hstep Collect) as HC. simpl in HC.
    assert (Hrb : rb = [] /\ rc = false).
    { destruct cl; [congruence| |]; destruct rb; try discriminate; destruct rc; try discriminate; auto. }
    destruct Hrb as [-> ->]. clear HC.
    assert (Hcw : cl = CWait).
    { destruct cl; [congruence | done |]. destruct Hrcl as [_ Hx]. specialize (Hx eq_refl). discriminate. }
    subst cl. pose proof (Hstep CloserRun) as HR. simpl in HR.
    destruct (w =? 0) eqn:Hw0; [discriminate|]. apply Z.eqb_neq in Hw0.
    destruct (wp_active_pos ws ltac:(lia)) as (k & pc & Hk & Hpc).
    destruct Hpc as [-> | [t ->]].
    - pose proof (Hstep (WorkerRecv k)) as HW1. simpl in HW1. rewrite Hk in HW1.
      destruct tb; [|discriminate].
      destruct tc; [destruct (w - 1 <? 0); discriminate|].
      destruct pr; [congruence | | destruct Htcl as [_ Hx]; specialize (Hx eq_refl); discriminate].
      pose proof (Hstep Produce) as HP. pose proof (Hstep CloseTasks) as HC. simpl in HP, HC.
      destruct ts as [|t rest]; [discriminate|].
      destruct (0 <? numTasks)%nat eqn:HN; [discriminate|].
      apply Nat.ltb_ge in HN. simpl in Hjt. lia.
    - pose proof (Hstep (WorkerSend k)) as HW1. simpl in HW1. rewrite Hk in HW1.
      destruct (Htot (Z.of_nat k + 1) t) as [r Hr]. rewrite Hr in HW1.
      destruct (0 <? numTasks)%nat eqn:HN; [discriminate|].
      apply Nat.ltb_ge in HN. pose proof (wp_held_pos ws k t Hk). lia. }
  split; [done|].
  destruct (inv_main _ Hinv Hmd) as [Hc Hb].
  destruct (wp_closed_all_processed s Hinv HW Hc) as (jobs & H1 & H2 & H3).
  exists jobs. rewrite Hb, app_nil_r in H3. done.
Qed.

Definition labels_of (s : state) : list label :=
  [Spawn; SpawnProducer; SpawnCloser; Produce; CloseTasks; CloserRun; Collect]
  ++ flat_map (fun k => [WorkerRecv k; WorkerSend k]) (seq 0 (length (workers s))).

Lemma wp_can_move (s : state) :
  stuck (step process) s \/ exists l s', step process l s = Some s'.
Proof.
  apply (stuck_or_move (step process) (labels_of s)).
  intros l s' Hstep. unfold labels_of.
  assert (Hk : forall k, is_Some (workers s !! k) ->
            In k (seq 0 (length (workers s)))).
  { intros k Hk. apply lookup_lt_is_Some in Hk. apply in_seq. lia. }
  unfold step in Hstep. destruct (panic s); [discriminate|].
  destruct l; simpl; auto 10;
    do 7 right; apply in_flat_map; exists k;
    (split; [apply Hk; destruct (workers s !! k); [eauto | discriminate] | simpl; auto]).
Qed.

End Proofs.

Lemma tasks_of_NoDup n : NoDup (tasks_of n).
Proof.
  unfold tasks_of. apply (NoDup_fmap_2_strong (fun i => mkTask (Z.of_nat i))).
  - intros x y _ _ H. inversion H. lia.
  - apply NoDup_seq.
Qed.

Lemma process_src_total : total process_src.
Proof. intros id t. eexists. reflexivity. Qed.

(** [workerPoolExample] with the constants of the source. *)
Definition workerPoolExample : state := init 3 8.
End WorkerPool.

(** The result string of worker 1 for task 1. *)
Example sprintf_result_1_1 :
  WorkerPool.sprintf_result 1 (WorkerPool.mkTask 1)
  = "Worker 1 完成任务 1: 任务_1 -> 处理了 数据_10"%string.
Proof. reflexivity. Qed.

(** C2 — worker-pool conservation.  For every number of tasks and every
    number of workers [>= 1], along every schedule of [workerPoolExample]:
    no goroutine panics; the tasks are pairwise distinct and each is in
    exactly one place (not yet sent, buffered, held by one worker, or
    processed, with its result buffered or collected); when [results] is
    closed exactly [numTasks] results have been produced, one per task; no
    schedule is longer than the initial measure; when nothing can move the
    caller has left its loop with exactly one result per task; and every
    reachable state can be run on to that end. *)
Theorem worker_pool_conservation (numWorkers numTasks : nat)
    (sched : list WorkerPool.label) (s : WorkerPool.state) :
  (1 <= numWorkers)%nat ->
  run (WorkerPool.step WorkerPool.process_src) sched
      (WorkerPool.init numWorkers numTasks) = Some s ->
  WorkerPool.panic s = None /\
  NoDup (WorkerPool.tasks_of numTasks) /\
  (exists jobs,
      Forall (WorkerPool.job_ok WorkerPool.process_src numWorkers) jobs /\
      map WorkerPool.job_task jobs ++ WorkerPool.held s
        ++ Chan.buf (WorkerPool.tasks s) ++ WorkerPool.to_send s
        ≡ₚ WorkerPool.tasks_of numTasks /\
      WorkerPool.collected s ++ Chan.buf (WorkerPool.results s)
        ≡ₚ map WorkerPool.job_result jobs) /\
  (Chan.closed (WorkerPool.results s) = true ->
     length (WorkerPool.collected s ++ Chan.buf (WorkerPool.results s)) = numTasks /\
     exists jobs,
       Forall (WorkerPool.job_ok WorkerPool.process_src numWorkers) jobs /\
       map WorkerPool.job_task jobs ≡ₚ WorkerPool.tasks_of numTasks /\
       WorkerPool.collected s ++ Chan.buf (WorkerPool.results s)
         ≡ₚ map WorkerPool.job_result jobs) /\
  (length sched <= WorkerPool.measure (WorkerPool.init numWorkers numTasks))%nat /\
  (stuck (WorkerPool.step WorkerPool.process_src) s ->
     WorkerPool.final WorkerPool.process_src numWorkers numTasks s /\
     length (WorkerPool.collected s) = numTasks) /\
  (exists sched' s',
      run (WorkerPool.step WorkerPool.process_src) sched' s = Some s' /\
      stuck (WorkerPool.step WorkerPool.process_src) s' /\
      WorkerPool.final WorkerPool.process_src numWorkers numTasks s' /\
      length (WorkerPool.collected s') = numTasks).
Proof.
  intros HW Hrun.
  pose proof WorkerPool.process_src_total as Htot.
  assert (Hfin : forall s0,
            WorkerPool.final WorkerPool.process_src numWorkers numTasks s0 ->
            length (WorkerPool.collected s0) = numTasks).
  { intros s0 (_ & jobs & _ & H1 & H2).
    rewrite H2, length_map, <- (length_map WorkerPool.job_task), H1.
    apply WorkerPool.tasks_of_length. }
  destruct (run_total (WorkerPool.step WorkerPool.process_src)
              (WorkerPool.inv WorkerPool.process_src numWorkers numTasks)
              (fun s0 => WorkerPool.final WorkerPool.process_src numWorkers numTasks s0
                         /\ length (WorkerPool.collected s0) = numTasks)
              WorkerPool.measure (WorkerPool.init numWorkers numTasks)
              (WorkerPool.wp_inv_init _ _ _)
              (WorkerPool.wp_inv_preserved _ _ _ Htot)
              (WorkerPool.wp_measure_decreasing _ _ _ Htot)
              (fun s0 _ => WorkerPool.wp_can_move _ s0)) with (sched := sched) (s := s)
    as (Hinv & Hlen & Hst & Hex); auto.
  { intros s0 H0 H1. split; [|apply Hfin]; apply WorkerPool.wp_stuck_final; auto. }
  split; [apply Hinv|]. split; [apply WorkerPool.tasks_of_NoDup|].
  split; [apply Hinv|]. split; [|split; [lia|split; [exact Hst|]]].
  - intros Hc.
    destruct (WorkerPool.wp_closed_all_processed _ _ _ s Hinv HW Hc) as (jobs & H1 & H2 & H3).
    split; [|exists jobs; auto].
    rewrite H3, length_map, <- (length_map WorkerPool.job_task), H2.
    apply WorkerPool.tasks_of_length.
  - destruct Hex as (sched' & s' & H1 & H2 & H3 & H4). exists sched', s'. auto.
Qed.

(** One worker, one task, run to the end. *)
Definition wp_sched_example : list WorkerPool.label :=
  [WorkerPool.Spawn; WorkerPool.SpawnProducer; WorkerPool.SpawnCloser;
   WorkerPool.Produce; WorkerPool.WorkerRecv 0; WorkerPool.WorkerSend 0;
   WorkerPool.CloseTasks; WorkerPool.WorkerRecv 0; WorkerPool.CloserRun;
   WorkerPool.Collect; WorkerPool.Collect].

Definition wp_end_example : WorkerPool.state :=
  WorkerPool.State [WorkerPool.WDone] 1 0 [] WorkerPool.PDone
    (Chan.Build [] 1 true) (Chan.Build [] 1 true) WorkerPool.CDone
    ["Worker 1 完成任务 1: 任务_1 -> 处理了 数据_10"%string] true None.

Lemma worker_pool_conservation_witness :
  (1 <= 1)%nat /\
  run (WorkerPool.step WorkerPool.process_src) wp_sched_example (WorkerPool.init 1 1)
  = Some wp_end_example /\
  WorkerPool.panic wp_end_example = None.
Proof.
  split; [lia|]. split; [reflexivity|].
  exact (proj1 (worker_pool_conservation 1 1 wp_sched_example wp_end_example
                  (le_n 1) eq_refl)).
Defined.

(** *** A panic while processing a task *)









(** ** Fan-out: [fanOut] deals its input round-robin to its outputs

    [fanOut] makes [numWorkers] unbuffered output channels and starts one
    goroutine that sends the [i]-th value it receives to
    [outputs[i%numWorkers]], and closes every output from a deferred function
    when its range over [input] ends.  That goroutine is sequential; each
    output has its own receiver (as in [fanOutExample]), so every send is
    taken.  The model runs the goroutine over the values the input delivers
    before it is closed, and records what each output was given, whether it
    is closed, and the order of the sends and closes. *)

Module FanOut.

(** One output channel as its receiver sees it. *)
Record out : Type := Out { got : list Z; closed : bool }.

Inductive event : Type :=
| Put (k : nat) (v : Z)   (* outputs[k] <- v *)
| CloseOut (k : nat).     (* close(outputs[k]) *)

Record result : Type := Result {
  outputs : list out;
  log : list event;             (* sends and closes, oldest first *)
  panicked : option panic_kind  (* the goroutine ended in a panic *)
}.

(** [for data := range input { outputs[i%numWorkers] <- data; i++ }] over the
    values still to come; [i] is a Go [int], [%] truncates toward zero. *)
Fixpoint dispatch (numWorkers : Z) (i : Z) (input : list Z)
    (outs : list out) (lg : list event) : result :=
  match input with
  | [] => Result outs lg None
  | data :: rest =>
      if numWorkers =? 0 then Result outs lg (Some IntegerDivideByZero)
      else
        let idx := Z.rem i numWorkers in
        if (idx <? 0) || (Z.of_nat (length outs) <=? idx)
        then Result outs lg (Some IndexOutOfRange)
        else
          match outs !! Z.to_nat idx with
          | Some (Out g false) =>
              dispatch numWorkers (GoInt.add i 1) rest
                (<[Z.to_nat idx := Out (g ++ [data]) false]> outs)
                (lg ++ [Put (Z.to_nat idx) data])
          | Some (Out _ true) => Result outs lg (Some SendOnClosedChannel)
          | None => Result outs lg (Some IndexOutOfRange)
          end
  end.

(** The deferred [for _, output := range outputs { close(output) }], from
    output [j] on. *)
Fixpoint close_from (j : nat) (todo : list out) : list out * list event * option panic_kind :=
  match todo with
  | [] => ([], [], None)
  | o :: rest =>
      if closed o then (todo, [], Some CloseOfClosedChannel)
      else
        let '(rest', lg, p) := close_from (S j) rest in
        (Out (got o) true :: rest', CloseOut j :: lg, p)
  end.

(** The goroutine of [fanOut(input, numWorkers)], run to its end.  A panic
    in the loop still runs the deferred closes, then ends the program. *)
Definition fanOut (input : list Z) (numWorkers : Z) : result :=
  if numWorkers <? 0 then Result [] [] (Some MakeSliceLenOutOfRange)
  else
    let r := dispatch numWorkers 0 input
               (replicate (Z.to_nat numWorkers) (Out [] false)) [] in
    let '(outs, lg, p) := close_from 0 (outputs r) in
    Result outs (log r ++ lg)
           (match panicked r with Some q => Some q | None => p end).

(** The values at the indices congruent to [k] modulo [K], in their order;
    [i] is the index of the first value of [input]. *)
Fixpoint residue_class (K k i : nat) (input : list Z) : list Z :=
  match input with
  | [] => []
  | v :: rest =>
      if (i mod K =? k)%nat then v :: residue_class K k (S i) rest
      else residue_class K k (S i) rest
  end.

(** Value [i] goes to output [i mod K]: the sends in order. *)
Fixpoint round_robin (K i : nat) (input : list Z) : list event :=
  match input with
  | [] => []
  | v :: rest => Put (i mod K) v :: round_robin K (S i) rest
  end.

Definition total_got (outs : list out) : nat :=
  sum_list (map (fun o => length (got o)) outs).

Lemma rem_index (i K : nat) :
  (0 < K)%nat -> Z.rem (Z.of_nat i) (Z.of_nat K) = Z.of_nat (i mod K).
Proof.
  intros HK. rewrite Z.rem_mod_nonneg by lia.
  rewrite Nat2Z.inj_mod. reflexivity.
Qed.

(** The loop over a first stretch [xs] of the input, while the counter
    has not wrapped: round-robin, and on to the rest [ys] with the counter
    advanced by [length xs] (wrapped if it has reached [2^63]). *)
Lemma dispatch_app (K : nat) (xs : list Z) :
  (0 < K)%nat ->
  forall (i : nat) (ys : list Z) (outs : list out) (lg : list event),
    length outs = K ->
    Forall (fun o => closed o = false) outs ->
    Z.of_nat i + Z.of_nat (length xs) <= GoInt.max_int + 1 ->
    exists outs',
      dispatch (Z.of_nat K) (GoInt.wrap (Z.of_nat i)) (xs ++ ys) outs lg
      = dispatch (Z.of_nat K) (GoInt.wrap (Z.of_nat (i + length xs))) ys outs'
          (lg ++ round_robin K i xs) /\
      length outs' = K /\
      Forall (fun o => closed o = false) outs' /\
      total_got outs' = (total_got outs + length xs)%nat /\
      forall k o, outs !! k = Some o ->
        outs' !! k = Some (Out (got o ++ residue_class K k i xs) false).
Proof.
  intros HK. induction xs as [|v rest IH]; intros i ys outs lg Hlen Hopen Hbound.
  - exists outs. simpl. rewrite Nat.add_0_r, app_nil_r.
    repeat split; auto.
    intros k [g c] Hk. rewrite app_nil_r. rewrite Hk. f_equal.
    rewrite Forall_lookup in Hopen. specialize (Hopen _ _ Hk). simpl in *. congruence.
  - simpl length in Hbound.
    assert (Hi : GoInt.wrap (Z.of_nat i) = Z.of_nat i).
    { apply GoInt.wrap_small. unfold GoInt.in_range, GoInt.min_int, GoInt.max_int in *. lia. }
    assert (HK0 : (Z.of_nat K =? 0) = false) by (apply Z.eqb_neq; lia).
    pose proof (Nat.mod_upper_bound i K ltac:(lia)) as Hmod.
    assert (Hb : (Z.of_nat (i mod K) <? 0) || (Z.of_nat (length outs) <=? Z.of_nat (i mod K)) = false).
    { apply orb_false_iff. split; [apply Z.ltb_ge | apply Z.leb_gt]; lia. }
    destruct (lookup_lt_is_Some_2 outs (i mod K)%nat ltac:(lia)) as [[g c] Hk].
    assert (c = false) as ->.
    { rewrite Forall_lookup in Hopen. apply (Hopen _ _ Hk). }
    assert (Hadd : GoInt.add (Z.of_nat i) 1 = GoInt.wrap (Z.of_nat (S i))).
    { unfold GoInt.add. f_equal. lia. }
    destruct (IH (S i) ys (<[(i mod K)%nat := Out (g ++ [v]) false]> outs)
                (lg ++ [Put (i mod K) v])) as (outs' & IH1 & IH2 & IH3 & IH4 & IH5).
    + rewrite length_insert. exact Hlen.
    + apply Forall_insert; auto.
    + lia.
    + exists outs'. split; [|split; [exact IH2 | split; [exact IH3 | split]]].
      * simpl. rewrite Hi, HK0, (rem_index i K HK), Hb, Nat2Z.id, Hk, Hadd, IH1.
        rewrite <- app_assoc. simpl. do 3 f_equal. lia.
      * rewrite IH4. unfold total_got.
        pose proof (sum_list_insert (fun o => length (got o)) outs (i mod K)%nat
                      _ (Out (g ++ [v]) false) Hk) as Hs.
        simpl in Hs. rewrite length_app in Hs. simpl in *. lia.
      * intros k o Ho. destruct (decide (k = (i mod K)%nat)) as [-> | Hne].
        -- rewrite Hk in Ho. inversion Ho; subst o; clear Ho.
           rewrite (IH5 (i mod K)%nat (Out (g ++ [v]) false)).
           ++ simpl. rewrite Nat.eqb_refl, <- app_assoc. reflexivity.
           ++ apply list_lookup_insert_eq. lia.
        -- rewrite (IH5 k o).
           ++ simpl. destruct (i mod K =? k)%nat eqn:E; [apply Nat.eqb_eq in E; congruence|].
              reflexivity.
           ++ rewrite list_lookup_insert_ne by congruence. exact Ho.
Qed.

Lemma close_from_open (j : nat) (outs : list out) :
  Forall (fun o => closed o = false) outs ->
  close_from j outs
  = (map (fun o => Out (got o) true) outs, map CloseOut (seq j (length outs)), None).
Proof.
  intros H. revert j. induction H as [|o outs Ho _ IH]; intros j; simpl; [reflexivity|].
  rewrite Ho, IH. reflexivity.
Qed.

Lemma total_got_close (outs : list out) :
  total_got (map (fun o => Out (got o) true) outs) = total_got outs.
Proof. unfold total_got. rewrite map_map. reflexivity. Qed.

(** [fanOutExample]: the values 1..10 over three outputs. *)
Definition fanOutExample : result := fanOut [1; 2; 3; 4; 5; 6; 7; 8; 9; 10] 3.

Example fanOutExample_outputs :
  outputs fanOutExample
  = [Out [1; 4; 7; 10] true; Out [2; 5; 8] true; Out [3; 6; 9] true]
  /\ panicked fanOutExample = None.
Proof. split; reflexivity. Qed.
End FanOut.

(** [fanOut] for at least one output and an input the counter can count:
    what its goroutine leaves behind. *)
Lemma fanout_result (input : list Z) (K : nat) :
  (1 <= K)%nat -> Z.of_nat (length input) <= GoInt.max_int ->
  exists outs,
    FanOut.fanOut input (Z.of_nat K)
    = FanOut.Result (map (fun o => FanOut.Out (FanOut.got o) true) outs)
        (FanOut.round_robin K 0 input ++ map FanOut.CloseOut (seq 0 K)) None /\
    length outs = K /\
    FanOut.total_got outs = length input /\
    forall k, (k < K)%nat ->
      outs !! k = Some (FanOut.Out (FanOut.residue_class K k 0 input) false).
Proof.
  intros HK Hn. unfold FanOut.fanOut.
  assert (Hneg : (Z.of_nat K <? 0) = false) by (apply Z.ltb_ge; lia).
  rewrite Hneg, Nat2Z.id.
  destruct (FanOut.dispatch_app K input ltac:(lia) 0 []
              (replicate K (FanOut.Out [] false)) [])
    as (outs & H1 & H2 & H3 & H4 & H5).
  - apply length_replicate.
  - apply Forall_replicate. reflexivity.
  - simpl. lia.
  - rewrite app_nil_r in H1. change (GoInt.wrap (Z.of_nat 0)) with 0 in H1.
    rewrite H1. simpl. rewrite (FanOut.close_from_open 0 outs H3), H2.
    exists outs. split; [reflexivity|]. split; [exact H2|]. split.
    + rewrite H4. unfold FanOut.total_got.
      assert (Hz : forall n, sum_list (map (fun o => length (FanOut.got o))
                                (replicate n (FanOut.Out [] false))) = 0%nat)
        by (induction n; simpl; auto).
      rewrite Hz. reflexivity.
    + intros k Hk. apply (H5 k (FanOut.Out [] false)).
      apply lookup_replicate. auto.
Qed.

(** C3, counterexample — with no output ([K = 0]) the first value makes the
    goroutine panic on [i % 0]: nothing is delivered although one value was
    taken from the input.  And past [2^63] values the counter [i] has
    wrapped to a negative number, so with three outputs the index
    [i % 3] is negative and the send panics. *)
Lemma fanout_zero_outputs_panics :
  FanOut.fanOut [7] 0 = FanOut.Result [] [] (Some IntegerDivideByZero) /\
  FanOut.total_got (FanOut.outputs (FanOut.fanOut [7] 0)) <> length [7] /\
  FanOut.panicked (FanOut.fanOut (replicate (Z.to_nat (2 ^ 63)) 0 ++ [0]) 3)
  = Some IndexOutOfRange.
Proof.
  split; [reflexivity|]. split; [discriminate|].
  assert (H : forall n, Z.of_nat n = 2 ^ 63 ->
            FanOut.panicked (FanOut.fanOut (replicate n 0 ++ [0]) 3) = Some IndexOutOfRange).
  { intros n Hn. unfold FanOut.fanOut.
    change (3 <? 0) with false. cbv iota.
    change (Z.to_nat 3) with 3%nat.
    destruct (FanOut.dispatch_app 3 (replicate n 0) ltac:(lia) 0 [0]
                (replicate 3 (FanOut.Out [] false)) [])
      as (outs & H1 & H2 & H3 & _).
    - reflexivity.
    - apply Forall_replicate. reflexivity.
    - rewrite length_replicate. unfold GoInt.max_int. lia.
    - change (GoInt.wrap (Z.of_nat 0)) with 0 in H1.
      change (Z.of_nat 3) with 3 in H1. rewrite H1.
      rewrite length_replicate, Nat.add_0_l, Hn.
      change (GoInt.wrap (2 ^ 63)) with (- 2 ^ 63).
      destruct outs as [|o1 [|o2 [|o3 [|o4 outs]]]]; try discriminate.
      unfold FanOut.dispatch.
      change (3 =? 0) with false. cbv iota.
      change (Z.rem (- 2 ^ 63) 3) with (-2).
      change (-2 <? 0) with true. cbv iota. simpl orb. cbv iota.
      simpl FanOut.outputs. simpl FanOut.panicked.
      destruct (FanOut.closed o1), (FanOut.closed o2), (FanOut.closed o3); reflexivity. }
  apply H. rewrite Z2Nat.id by lia. reflexivity.
Qed.

(** C3, amended — for [K >= 1] outputs and an input of at most [2^63 - 1]
    values: the goroutine of [fanOut] does not panic; its sends are, in
    order, value [i] to output [i mod K], followed by the closes of outputs
    [0 .. K-1], once each, after the last send; output [k] has been given
    exactly the values at the indices congruent to [k] modulo [K], in their
    original order, and is closed; and the outputs together have been given
    as many values as the input delivered. *)
Theorem fanout_round_robin (input : list Z) (K : nat) :
  (1 <= K)%nat -> Z.of_nat (length input) <= GoInt.max_int ->
  FanOut.panicked (FanOut.fanOut input (Z.of_nat K)) = None /\
  FanOut.log (FanOut.fanOut input (Z.of_nat K))
  = FanOut.round_robin K 0 input ++ map FanOut.CloseOut (seq 0 K) /\
  FanOut.outputs (FanOut.fanOut input (Z.of_nat K))
  = map (fun k => FanOut.Out (FanOut.residue_class K k 0 input) true) (seq 0 K) /\
  FanOut.total_got (FanOut.outputs (FanOut.fanOut input (Z.of_nat K))) = length input.
Proof.
  intros HK Hn.
  destruct (fanout_result input K HK Hn) as (outs & -> & Hlen & Htot & Hk).
  simpl. split; [reflexivity|]. split; [reflexivity|]. split.
  - apply list_eq. intros k. rewrite !list_lookup_fmap.
    destruct (decide (k < K)%nat) as [Hlt | Hge].
    + rewrite (Hk k Hlt). rewrite lookup_seq_lt by lia. reflexivity.
    + rewrite (lookup_ge_None_2 outs k) by lia.
      rewrite (lookup_ge_None_2 (seq 0 K) k) by (rewrite length_seq; lia).
      reflexivity.
  - rewrite FanOut.total_got_close. exact Htot.
Qed.

Lemma fanout_round_robin_witness :
  (1 <= 3)%nat /\ Z.of_nat (length [1; 2; 3; 4; 5; 6; 7; 8; 9; 10]) <= GoInt.max_int /\
  FanOut.outputs FanOut.fanOutExample
  = map (fun k => FanOut.Out (FanOut.residue_class 3 k 0 [1; 2; 3; 4; 5; 6; 7; 8; 9; 10]) true)
        (seq 0 3).
Proof.
  assert (H1 : (1 <= 3)%nat) by lia.
  assert (H2 : Z.of_nat (length [1; 2; 3; 4; 5; 6; 7; 8; 9; 10]) <= GoInt.max_int)
    by (unfold GoInt.max_int; simpl; lia).
  split; [exact H1|]. split; [exact H2|].
  exact (proj1 (proj2 (proj2 (fanout_round_robin [1; 2; 3; 4; 5; 6; 7; 8; 9; 10] 3 H1 H2)))).
Defined.

(** ** Pipeline: [generateNumbers], [square], [filter]

    Each stage is one goroutine that ranges over its input, sends on its own
    unbuffered output and closes it (deferred) when its loop ends.  A send
    on an unbuffered channel and the matching receive are one step.
    [time.Sleep] and printing are left out. *)

Module Pipeline.

(** [for i := start; i <= end; i++ { ch <- i }], then the deferred close. *)
Inductive gen_pc : Type :=
| GLoop (i : Z)   (* at the loop test with counter i *)
| GDone.

(** [for num := range input { result := num * num; output <- result }] *)
Inductive sq_pc : Type :=
| SqRecv          (* at the receive of range input *)
| SqSend (r : Z)  (* at output <- result *)
| SqDone.

(** [for num := range input { if predicate(num) { output <- num } }] *)
Inductive fl_pc : Type :=
| FlRecv
| FlSend (v : Z)  (* predicate held: at output <- num *)
| FlDone.

Record state : Type := State {
  gen : gen_pc;
  numbers_closed : bool;
  sq : sq_pc;
  squared_closed : bool;
  fl : fl_pc;
  filtered_closed : bool;
  collected : list Z;     (* what the caller's range over the last channel received *)
  main_done : bool
}.

Inductive label : Type :=
| GenSend     (* generateNumbers: ch <- i meets square's receive *)
| GenClose    (* generateNumbers: loop over, close(ch) *)
| SqSendL     (* square: output <- result meets filter's receive *)
| SqClose     (* square: input closed, close(output) *)
| FlSendL     (* filter: output <- num meets the caller's receive *)
| FlClose     (* filter: input closed, close(output) *)
| MainExit.   (* caller: its range ends on the closed channel *)

Section Model.
Variable predicate : Z -> bool.
Variable end_ : Z.

Definition step (l : label) (s : state) : option state :=
  match l with
  | GenSend =>
      match gen s, sq s with
      | GLoop i, SqRecv =>
          if i <=? end_
          then Some (State (GLoop (GoInt.add i 1)) (numbers_closed s)
                       (SqSend (GoInt.mul i i)) (squared_closed s) (fl s)
                       (filtered_closed s) (collected s) (main_done s))
          else None
      | _, _ => None
      end
  | GenClose =>
      match gen s with
      | GLoop i =>
          if i <=? end_ then None
          else Some (State GDone true (sq s) (squared_closed s) (fl s)
                       (filtered_closed s) (collected s) (main_done s))
      | GDone => None
      end
  | SqSendL =>
      match sq s, fl s with
      | SqSend r, FlRecv =>
          Some (State (gen s) (numbers_closed s) SqRecv (squared_closed s)
                  (if predicate r then FlSend r else FlRecv)
                  (filtered_closed s) (collected s) (main_done s))
      | _, _ => None
      end
  | SqClose =>
      match sq s with
      | SqRecv =>
          if numbers_closed s
          then Some (State (gen s) (numbers_closed s) SqDone true (fl s)
                       (filtered_closed s) (collected s) (main_done s))
          else None
      | _ => None
      end
  | FlSendL =>
      match fl s with
      | FlSend v =>
          if main_done s then None
          else Some (State (gen s) (numbers_closed s) (sq s) (squared_closed s)
                       FlRecv (filtered_closed s) (collected s ++ [v]) (main_done s))
      | _ => None
      end
  | FlClose =>
      match fl s with
      | FlRecv =>
          if squared_closed s
          then Some (State (gen s) (numbers_closed s) (sq s) (squared_closed s)
                       FlDone true (collected s) (main_done s))
          else None
      | _ => None
      end
  | MainExit =>
      if filtered_closed s && negb (main_done s)
      then Some (State (gen s) (numbers_closed s) (sq s) (squared_closed s)
                   (fl s) (filtered_closed s) (collected s) true)
      else None
  end.
End Model.

Definition init (start : Z) : state :=
  State (GLoop start) false SqRecv false FlRecv false [] false.

(** *** Invariant and measure *)

Section Proofs.
Variable predicate : Z -> bool.
Variables start end_ : Z.
Hypothesis start_in_range : GoInt.in_range start.
Hypothesis end_below_max : end_ < GoInt.max_int.

(** [result := num * num] *)
Definition square_of (num : Z) : Z := GoInt.mul num num.

(** What the whole pipeline is to deliver. *)
Definition expected : list Z :=
  List.filter predicate (map square_of (seqZ start (end_ - start + 1))).

Definition todo (g : gen_pc) : list Z :=
  match g with GLoop i => seqZ i (end_ - i + 1) | GDone => [] end.

Definition sq_hold (c : sq_pc) : list Z :=
  match c with SqSend r => [r] | _ => [] end.

Definition fl_hold (c : fl_pc) : list Z :=
  match c with FlSend v => [v] | _ => [] end.

Definition is_gdone (g : gen_pc) : bool := match g with GDone => true | _ => false end.
Definition is_sqdone (c : sq_pc) : bool := match c with SqDone => true | _ => false end.
Definition is_fldone (c : fl_pc) : bool := match c with FlDone => true | _ => false end.

Record inv (s : state) : Prop := Inv {
  inv_gen : forall i, gen s = GLoop i -> GoInt.min_int <= i;
  inv_numbers : numbers_closed s = is_gdone (gen s);
  inv_squared : squared_closed s = is_sqdone (sq s);
  inv_sq : squared_closed s = true -> numbers_closed s = true;
  inv_filtered : filtered_closed s = is_fldone (fl s);
  inv_fl : filtered_closed s = true -> squared_closed s = true;
  inv_main : main_done s = true -> filtered_closed s = true;
  inv_values :
    collected s ++ fl_hold (fl s) ++ List.filter predicate (sq_hold (sq s))
    ++ List.filter predicate (map square_of (todo (gen s))) = expected
}.

Definition measure (s : state) : nat :=
  match gen s with GLoop i => 1 + 3 * Z.to_nat (end_ - i + 1) | GDone => 0 end
  + match sq s with SqSend _ => 3 | SqRecv => 1 | SqDone => 0 end
  + match fl s with FlSend _ => 2 | FlRecv => 1 | FlDone => 0 end
  + (if main_done s then 0 else 1).

Lemma pipeline_inv_init : inv (init start).
Proof.
  split; simpl; try done.
  intros i Hi. inversion Hi; subst. apply start_in_range.
Qed.

Lemma pipeline_inv_preserved : preserved (step predicate end_) inv.
Proof.
  intros l s s' [Hg Hn Hs Hsq Hf Hfl Hm Hv] Hstep.
  destruct s as [g nc sc qc fc lc col md]; simpl in *.
  destruct l; simpl in Hstep.
  - destruct g as [i|]; try discriminate. destruct sc; try discriminate.
    destruct (i <=? end_) eqn:Hi; [|discriminate]. apply Z.leb_le in Hi.
    inversion Hstep; subst; clear Hstep.
    specialize (Hg i eq_refl).
    assert (Hadd : GoInt.add i 1 = i + 1).
    { apply GoInt.wrap_small. unfold GoInt.in_range. lia. }
    split; simpl in *; try done.
    + intros j Hj. inversion Hj; subst. lia.
    + rewrite <- Hv, Hadd. rewrite (seqZ_cons i) by lia. simpl.
      replace (Z.succ i) with (i + 1) by lia.
      replace (Z.pred (end_ - i + 1)) with (end_ - (i + 1) + 1) by lia.
      unfold square_of at 2. destruct (predicate (GoInt.mul i i)); reflexivity.
  - destruct g as [i|]; try discriminate.
    destruct (i <=? end_) eqn:Hi; [discriminate|]. apply Z.leb_gt in Hi.
    inversion Hstep; subst; clear Hstep.
    split; simpl in *; try done.
    rewrite <- Hv. rewrite seqZ_nil by lia. reflexivity.
  - destruct sc; try discriminate. destruct fc; try discriminate.
    inversion Hstep; subst; clear Hstep.
    split; simpl in *; try done.
    + destruct (predicate r); done.
    + rewrite <- Hv. destruct (predicate r); reflexivity.
  - destruct sc; try discriminate. destruct nc; [|discriminate].
    inversion Hstep; subst; clear Hstep.
    split; simpl in *; try done.
  - destruct fc; try discriminate. destruct md; [discriminate|].
    inversion Hstep; subst; clear Hstep.
    split; simpl in *; try done.
    rewrite <- Hv, <- app_assoc. reflexivity.
  - destruct fc; try discriminate. destruct qc; [|discriminate].
    inversion Hstep; subst; clear Hstep.
    split; simpl in *; try done.
  - destruct lc; [|discriminate]. destruct md; [discriminate|].
    inversion Hstep; subst; clear Hstep.
    split; simpl in *; try done.
Qed.

Lemma pipeline_measure_decreasing : decreasing (step predicate end_) inv measure.
Proof.
  intros l s s' [Hg Hn Hs Hsq Hf Hfl Hm Hv] Hstep.
  destruct s as [g nc sc qc fc lc col md]; simpl in *.
  unfold measure. destruct l; simpl in Hstep;
    repeat (case_match; simplify_eq/=); try lia.
  all: specialize (Hg _ eq_refl);
    match goal with H : (_ <=? _) = true |- _ => apply Z.leb_le in H end;
    unfold GoInt.add; rewrite GoInt.wrap_small by (unfold GoInt.in_range; lia);
    lia.
Qed.

Definition final (s : state) : Prop :=
  collected s = expected /\ main_done s = true /\ filtered_closed s = true.

Lemma pipeline_stuck_final s : inv s -> stuck (step predicate end_) s -> final s.
Proof.
  intros [Hg Hn Hs Hsq Hf Hfl Hm Hv] Hst.
  pose proof (Hst GenSend) as H1. pose proof (Hst GenClose) as H2.
  pose proof (Hst SqSendL) as H3. pose proof (Hst SqClose) as H4.
  pose proof (Hst FlSendL) as H5. pose proof (Hst FlClose) as H6.
  pose proof (Hst MainExit) as H7. clear Hst.
  destruct s as [g nc sc qc fc lc col md]; simpl in *.
  unfold final; simpl.
  destruct md.
  - assert (lc = true) as -> by auto. destruct fc; simpl in Hf; try discriminate.
    assert (qc = true) as -> by auto. destruct sc; simpl in Hs; try discriminate.
    assert (nc = true) as -> by auto. destruct g; simpl in Hn; try discriminate.
    simpl in Hv. rewrite app_nil_r in Hv. auto.
  - exfalso. destruct fc; simpl in *; try discriminate.
    + destruct qc; [discriminate|].
      destruct sc; simpl in *; try discriminate.
      destruct nc; [discriminate|].
      destruct g as [i|]; simpl in *; try discriminate.
      destruct (i <=? end_); discriminate.
    + subst lc. discriminate.
Qed.

Lemma pipeline_can_move (s : state) :
  stuck (step predicate end_) s \/ exists l s', step predicate end_ l s = Some s'.
Proof.
  apply (stuck_or_move _ [GenSend; GenClose; SqSendL; SqClose; FlSendL; FlClose; MainExit]).
  intros l s' _. destruct l; simpl; auto 10.
Qed.
End Proofs.

(** [pipelineExample]: the numbers 1..10, squared, those above 20 kept. *)
Definition keep (n : Z) : bool := 20 <? n.
Definition pipelineExample : state := init 1.
Definition pipeline_step : label -> state -> option state := step keep 10.
End Pipeline.

Example pipeline_expected :
  Pipeline.expected Pipeline.keep 1 10 = [25; 36; 49; 64; 81; 100].
Proof. reflexivity. Qed.

(** C4 — pipeline purity.  Along every schedule of [pipelineExample]
    (the numbers 1..10 through [square] and through [filter] with
    [n > 20]) what the caller has received is a prefix of
    25, 36, 49, 64, 81, 100; no schedule is longer than the initial measure;
    when nothing can move the caller has received exactly that sequence and
    has seen the last channel closed; and every reachable state can be run
    on to that end. *)
Theorem pipeline_squares_above_20 (sched : list Pipeline.label) (s : Pipeline.state) :
  run Pipeline.pipeline_step sched Pipeline.pipelineExample = Some s ->
  (exists later, [25; 36; 49; 64; 81; 100] = Pipeline.collected s ++ later) /\
  (length sched <= Pipeline.measure 10 Pipeline.pipelineExample)%nat /\
  (stuck Pipeline.pipeline_step s ->
     Pipeline.collected s = [25; 36; 49; 64; 81; 100] /\
     Pipeline.main_done s = true) /\
  (exists sched' s',
      run Pipeline.pipeline_step sched' s = Some s' /\
      stuck Pipeline.pipeline_step s' /\
      Pipeline.collected s' = [25; 36; 49; 64; 81; 100] /\
      Pipeline.main_done s' = true).
Proof.
  intros Hrun.
  assert (H1 : GoInt.in_range 1) by (unfold GoInt.in_range, GoInt.min_int, GoInt.max_int; lia).
  assert (H10 : 10 < GoInt.max_int) by (unfold GoInt.max_int; lia).
  destruct (run_total Pipeline.pipeline_step (Pipeline.inv Pipeline.keep 1 10)
              (fun s0 => Pipeline.collected s0 = [25; 36; 49; 64; 81; 100]
                         /\ Pipeline.main_done s0 = true)
              (Pipeline.measure 10) Pipeline.pipelineExample
              (Pipeline.pipeline_inv_init Pipeline.keep 1 10 H1)
              (Pipeline.pipeline_inv_preserved Pipeline.keep 1 10 H10)
              (Pipeline.pipeline_measure_decreasing Pipeline.keep 1 10 H10)
              (fun s0 _ => Pipeline.pipeline_can_move Pipeline.keep 10 s0))
    with (sched := sched) (s := s) as (Hinv & Hlen & Hst & Hex); auto.
  { intros s0 Hi Hs.
    destruct (Pipeline.pipeline_stuck_final Pipeline.keep 1 10 s0 Hi Hs) as (Hc & Hm & _).
    rewrite Hc. auto. }
  split; [|split; [lia | split; [exact Hst | exact Hex]]].
  pose proof (Pipeline.inv_values _ _ _ _ Hinv) as Hv.
  rewrite pipeline_expected in Hv. eexists. symmetry. exact Hv.
Qed.

(** The schedule in which every number goes through the three stages
    before the next one is generated. *)
Definition pipeline_sched_example : list Pipeline.label :=
  concat (replicate 4 [Pipeline.GenSend; Pipeline.SqSendL])
  ++ concat (replicate 6 [Pipeline.GenSend; Pipeline.SqSendL; Pipeline.FlSendL])
  ++ [Pipeline.GenClose; Pipeline.SqClose; Pipeline.FlClose; Pipeline.MainExit].

Definition pipeline_end_example : Pipeline.state :=
  Pipeline.State Pipeline.GDone true Pipeline.SqDone true Pipeline.FlDone true
    [25; 36; 49; 64; 81; 100] true.

Lemma pipeline_squares_above_20_witness :
  run Pipeline.pipeline_step pipeline_sched_example Pipeline.pipelineExample
  = Some pipeline_end_example /\
  exists later, [25; 36; 49; 64; 81; 100] = [25; 36; 49; 64; 81; 100] ++ later.
Proof.
  split; [reflexivity|].
  exact (proj1 (pipeline_squares_above_20 pipeline_sched_example
                  pipeline_end_example eq_refl)).
Defined.

(** ** Parallel sum: [cpuIntensiveTask] and [parallelComputingExample] *)

Module Parallel.

(** [result := 0; for i := 0; i < n; i++ { result += i * i }; return result].
    The [id] is only printed. *)
Definition cpuIntensiveTask (id n : Z) : Z :=
  fold_left (fun result i => GoInt.add result (GoInt.mul i i)) (seqZ 0 n) 0.

(** [serialResult := 0; for i := 0; i < numTasks; i++ { serialResult += cpuIntensiveTask(i, workSize) }] *)
Definition serialResult (numTasks : nat) (workSize : Z) : Z :=
  fold_left (fun acc i => GoInt.add acc (cpuIntensiveTask (Z.of_nat i) workSize))
            (seq 0 numTasks) 0.

(** The goroutine [func(id int) { result := cpuIntensiveTask(id, workSize); results <- result }(i)]. *)
Inductive task_pc : Type := TNotStarted | TRunning | TDone.

Record goroutine : Type := Goroutine { id : Z; pc : task_pc }.

Record state : Type := State {
  tasks : list goroutine;
  spawned : nat;              (* goroutines started by the second loop *)
  results : Chan.chan Z;      (* make(chan int, numTasks) *)
  received : nat;             (* index of the receiving loop *)
  parallelResult : Z;
  panic : option panic_kind
}.

Inductive label : Type :=
| Spawn               (* go func(id int) {...}(i) *)
| TaskSend (k : nat)  (* goroutine k: compute, results <- result *)
| MainRecv.           (* parallelResult += <-results *)

Definition init (numTasks : nat) : state :=
  State (map (fun i => Goroutine (Z.of_nat i) TNotStarted) (seq 0 numTasks)) 0
        (Chan.make numTasks) 0 0 None.

Section Model.
Variable workSize : Z.

Definition step (l : label) (s : state) : option state :=
  match panic s with
  | Some _ => None
  | None =>
      match l with
      | Spawn =>
          match tasks s !! spawned s with
          | Some g =>
              Some (State (<[spawned s := Goroutine (id g) TRunning]> (tasks s))
                      (S (spawned s)) (results s) (received s) (parallelResult s) None)
          | None => None
          end
      | TaskSend k =>
          match tasks s !! k with
          | Some (Goroutine i TRunning) =>
              match Chan.send (cpuIntensiveTask i workSize) (results s) with
              | Chan.SendOk c' =>
                  Some (State (<[k := Goroutine i TDone]> (tasks s)) (spawned s) c'
                          (received s) (parallelResult s) None)
              | Chan.SendBlock => None
              | Chan.SendPanic =>
                  Some (State (tasks s) (spawned s) (results s) (received s)
                          (parallelResult s) (Some SendOnClosedChannel))
              end
          | _ => None
          end
      | MainRecv =>
          match tasks s !! spawned s with
          | Some _ => None   (* the receiving loop comes after the starting loop *)
          | None =>
              if (received s <? length (tasks s))%nat
              then match Chan.recv (results s) with
                   | Chan.RecvOk v c' =>
                       Some (State (tasks s) (spawned s) c' (S (received s))
                               (GoInt.add (parallelResult s) v) None)
                   | Chan.RecvClosed =>
                       Some (State (tasks s) (spawned s) (results s) (S (received s))
                               (GoInt.add (parallelResult s) 0) None)
                   | Chan.RecvBlock => None
                   end
              else None
          end
      end
  end.
End Model.

(** *** Invariant and measure *)

Definition sumZ (l : list Z) : Z := fold_right Z.add 0 l.

Lemma sumZ_app (l1 l2 : list Z) : sumZ (l1 ++ l2) = sumZ l1 + sumZ l2.
Proof. induction l1 as [|x l1 IH]; simpl; [reflexivity | rewrite IH; lia]. Qed.

Lemma sumZ_insert {B : Type} (f : B -> Z) (l : list B) (k : nat) (x y : B) :
  l !! k = Some x -> sumZ (map f (<[k:=y]> l)) = sumZ (map f l) - f x + f y.
Proof.
  revert k. induction l as [|a l IH]; intros [|k] Hk; simpl in *; try discriminate.
  - inversion Hk; subst. lia.
  - rewrite (IH k Hk). lia.
Qed.

(** Adding with wrap-around, in any grouping, is adding and wrapping once. *)
Lemma fold_add_wrap {B : Type} (f : B -> Z) (l : list B) (a : Z) :
  fold_left (fun acc i => GoInt.add acc (f i)) l (GoInt.wrap a)
  = GoInt.wrap (a + sumZ (map f l)).
Proof.
  revert a. induction l as [|x l IH]; intros a; simpl.
  - f_equal. lia.
  - unfold GoInt.add at 2. rewrite GoInt.wrap_add_l, IH. f_equal. lia.
Qed.

Lemma serialResult_wrap (n : nat) (w : Z) :
  serialResult n w
  = GoInt.wrap (sumZ (map (fun i => cpuIntensiveTask (Z.of_nat i) w) (seq 0 n))).
Proof.
  unfold serialResult. change 0 with (GoInt.wrap 0) at 1.
  rewrite fold_add_wrap. reflexivity.
Qed.

Section Proofs.
Variable workSize : Z.
Variable numTasks : nat.

(** The value a goroutine has still to send. *)
Definition pending_value (g : goroutine) : Z :=
  match pc g with TDone => 0 | _ => cpuIntensiveTask (id g) workSize end.

Definition not_done (g : goroutine) : nat :=
  match pc g with TDone => 0 | _ => 1 end.

Definition task_measure (g : goroutine) : nat :=
  match pc g with TNotStarted => 3 | TRunning => 2 | TDone => 0 end.

Definition measure (s : state) : nat :=
  sum_list (map task_measure (tasks s)) + length (Chan.buf (results s))
  + (length (tasks s) - received s).

Record inv (s : state) : Prop := Inv {
  inv_panic : panic s = None;
  inv_len : length (tasks s) = numTasks;
  inv_tasks : forall k g, tasks s !! k = Some g ->
                (pc g = TNotStarted <-> (spawned s <= k)%nat);
  inv_open : Chan.closed (results s) = false;
  inv_cap : Chan.cap (results s) = numTasks;
  inv_count : (received s + length (Chan.buf (results s))
               + sum_list (map not_done (tasks s)) = numTasks)%nat;
  inv_range : GoInt.wrap (parallelResult s) = parallelResult s;
  inv_sum : GoInt.wrap (parallelResult s + sumZ (Chan.buf (results s))
                        + sumZ (map pending_value (tasks s)))
            = serialResult numTasks workSize
}.

Lemma parallel_inv_init : inv (init numTasks).
Proof.
  split; simpl; try done.
  - rewrite length_map, length_seq. reflexivity.
  - intros k g Hk. rewrite list_lookup_fmap in Hk.
    destruct (seq 0 numTasks !! k); [|discriminate]. inversion Hk; subst. simpl.
    split; [lia | reflexivity].
  - rewrite map_map. simpl.
    generalize 0%nat. induction numTasks as [|n IH]; intros m; simpl; auto.
  - rewrite serialResult_wrap, map_map. reflexivity.
Qed.

Lemma parallel_inv_preserved : preserved (step workSize) inv.
Proof.
  intros l s s' [Hp Hlen Ht Ho Hc Hn Hr Hs] Hstep.
  unfold step in Hstep. rewrite Hp in Hstep.
  destruct s as [ts sp rs rc pr pn]; simpl in *. subst pn.
  destruct rs as [rb rn rcl]; simpl in *. subst rcl rn.
  destruct l.
  - destruct (ts !! sp) as [[i p]|] eqn:Hk; [|discriminate].
    inversion Hstep; subst; clear Hstep.
    destruct (Ht _ _ Hk) as [_ Hns]. simpl in Hns. specialize (Hns (le_n _)). subst p.
    split; simpl; try done.
    + rewrite length_insert. done.
    + intros j g Hj. apply lookup_insert_cases in Hj as [[-> ->]|[Hne Hj]]; simpl.
      * split; [discriminate | lia].
      * specialize (Ht _ _ Hj). split; intros Hx; [apply Ht in Hx; lia | apply Ht; lia].
    + pose proof (sum_list_insert not_done ts sp _ (Goroutine i TRunning) Hk) as Hx.
      unfold not_done at 2 4 in Hx. simpl in Hx. lia.
    + rewrite (sumZ_insert pending_value ts sp _ (Goroutine i TRunning) Hk).
      unfold pending_value at 2 3. simpl. rewrite <- Hs. f_equal. lia.
  - destruct (ts !! k) as [[i p]|] eqn:Hk; [|discriminate].
    destruct p; try discriminate.
    unfold Chan.send in Hstep; simpl in Hstep.
    destruct (length rb <? numTasks)%nat; [|discriminate].
    inversion Hstep; subst; clear Hstep.
    split; simpl; try done.
    + rewrite length_insert. done.
    + intros j g Hj. apply lookup_insert_cases in Hj as [[-> ->]|[Hne Hj]]; simpl; [|auto].
      specialize (Ht _ _ Hk). simpl in Ht.
      split; [discriminate | intros Hx; apply Ht in Hx; discriminate].
    + pose proof (sum_list_insert not_done ts k _ (Goroutine i TDone) Hk) as Hx.
      unfold not_done at 2 4 in Hx. simpl in Hx. rewrite length_app. simpl. lia.
    + rewrite (sumZ_insert pending_value ts k _ (Goroutine i TDone) Hk).
      unfold pending_value at 2 3. simpl. rewrite sumZ_app. simpl.
      rewrite <- Hs. f_equal. lia.
  - destruct (ts !! sp) eqn:Hk; [discriminate|].
    destruct (rc <? length ts)%nat eqn:Hrc; [|discriminate].
    unfold Chan.recv in Hstep; simpl in Hstep.
    destruct rb as [|v rb]; [discriminate|].
    inversion Hstep; subst; clear Hstep.
    split; simpl in *; try done.
    + lia.
    + apply GoInt.wrap_wrap.
    + unfold GoInt.add. rewrite <- Hs, <- !Z.add_assoc, GoInt.wrap_add_l.
      f_equal. lia.
Qed.

Lemma parallel_measure_decreasing : decreasing (step workSize) inv measure.
Proof.
  intros l s s' [Hp Hlen Ht Ho Hc Hn Hr Hs] Hstep.
  unfold step in Hstep. rewrite Hp in Hstep.
  destruct s as [ts sp rs rc pr pn]; simpl in *. subst pn.
  destruct rs as [rb rn rcl]; simpl in *. subst rcl rn.
  unfold measure; simpl.
  destruct l.
  - destruct (ts !! sp) as [[i p]|] eqn:Hk; [|discriminate].
    inversion Hstep; subst; clear Hstep. simpl.
    destruct (Ht _ _ Hk) as [_ Hns]. simpl in Hns. specialize (Hns (le_n _)). subst p.
    pose proof (sum_list_insert task_measure ts sp _ (Goroutine i TRunning) Hk) as Hx.
    unfold task_measure at 2 4 in Hx. simpl in Hx. rewrite length_insert. lia.
  - destruct (ts !! k) as [[i p]|] eqn:Hk; [|discriminate].
    destruct p; try discriminate.
    unfold Chan.send in Hstep; simpl in Hstep.
    destruct (length rb <? numTasks)%nat; [|discriminate].
    inversion Hstep; subst; clear Hstep. simpl.
    pose proof (sum_list_insert task_measure ts k _ (Goroutine i TDone) Hk) as Hx.
    unfold task_measure at 2 4 in Hx. simpl in Hx.
    rewrite length_insert, length_app. simpl. lia.
  - destruct (ts !! sp) eqn:Hk; [discriminate|].
    destruct (rc <? length ts)%nat eqn:Hrc; [|discriminate].
    apply Nat.ltb_lt in Hrc.
    unfold Chan.recv in Hstep; simpl in Hstep.
    destruct rb as [|v rb]; [discriminate|].
    inversion Hstep; subst; clear Hstep. simpl. lia.
Qed.

Definition final (s : state) : Prop :=
  received s = numTasks /\ parallelResult s = serialResult numTasks workSize.

Lemma not_done_pos (ts : list goroutine) :
  sum_list (map not_done ts) <> 0%nat ->
  exists k g, ts !! k = Some g /\ pc g <> TDone.
Proof.
  induction ts as [|g ts IH]; simpl; [congruence|]. intros Hne.
  destruct (pc g) eqn:Hg.
  - exists 0%nat, g. split; [reflexivity | congruence].
  - exists 0%nat, g. split; [reflexivity | congruence].
  - unfold not_done in Hne at 1. rewrite Hg in Hne. simpl in Hne.
    destruct (IH Hne) as (k & g' & Hk & Hd). exists (S k), g'. auto.
Qed.

Lemma all_done_pending (ts : list goroutine) :
  sum_list (map not_done ts) = 0%nat -> sumZ (map pending_value ts) = 0.
Proof.
  induction ts as [|g ts IH]; simpl; [reflexivity|]. intros H.
  unfold not_done at 1 in H. unfold pending_value at 1.
  destruct (pc g); simpl in H; lia.
Qed.

Lemma parallel_stuck_final s : inv s -> stuck (step workSize) s -> final s.
Proof.
  intros [Hp Hlen Ht Ho Hc Hn Hr Hs] Hst.
  assert (Hstep : forall l, step workSize l s = None) by exact Hst. clear Hst.
  unfold step in Hstep. rewrite Hp in Hstep.
  destruct s as [ts sp rs rc pr pn]; simpl in *. subst pn.
  destruct rs as [rb rn rcl]; simpl in *. subst rcl rn.
  pose proof (Hstep Spawn) as H1. pose proof (Hstep MainRecv) as H2. simpl in H1, H2.
  destruct (ts !! sp) eqn:Hsp; [discriminate|]. apply lookup_ge_None in Hsp.
  assert (Hrc : rc = numTasks).
  { destruct (rc <? length ts)%nat eqn:Hlt; [|apply Nat.ltb_ge in Hlt; lia].
    apply Nat.ltb_lt in Hlt. exfalso.
    unfold Chan.recv in H2; simpl in H2. destruct rb; [|discriminate].
    destruct (not_done_pos ts ltac:(simpl in Hn; lia)) as (k & [i p] & Hk & Hd).
    pose proof (lookup_lt_Some _ _ _ Hk) as Hkl.
    pose proof (Hstep (TaskSend k)) as H3. simpl in H3. rewrite Hk in H3.
    simpl in Hd. destruct p; try congruence.
    - destruct (Ht _ _ Hk) as [Hx _]. simpl in Hx. specialize (Hx eq_refl). lia.
    - unfold Chan.send in H3; simpl in H3.
      destruct (0 <? numTasks)%nat eqn:E; [discriminate|].
      apply Nat.ltb_ge in E. lia. }
  split; simpl; [exact Hrc|].
  assert (rb = []) as -> by (destruct rb; [reflexivity | simpl in Hn; lia]).
  rewrite all_done_pending in Hs by (simpl in Hn; lia).
  simpl in Hs. rewrite !Z.add_0_r in Hs. congruence.
Qed.

Definition labels_of (s : state) : list label :=
  [Spawn; MainRecv] ++ map TaskSend (seq 0 (length (tasks s))).

Lemma parallel_can_move (s : state) :
  stuck (step workSize) s \/ exists l s', step workSize l s = Some s'.
Proof.
  apply (stuck_or_move (step workSize) (labels_of s)).
  intros l s' Hstep. unfold labels_of.
  unfold step in Hstep. destruct (panic s); [discriminate|].
  destruct l; simpl; auto.
  do 2 right. apply in_map, in_seq.
  destruct (tasks s !! k) eqn:Hk; [|discriminate].
  apply lookup_lt_Some in Hk. lia.
Qed.
End Proofs.

(** The constants of [parallelComputingExample]. *)
Definition numTasks : nat := 8.
Definition workSize : Z := 1000000.
Definition parallelComputingExample : state := init numTasks.
End Parallel.

(** C10 — the parallel total equals the serial total.  For every task count
    and work size (the source fixes 8 and 1000000), along every schedule of
    the goroutines of [parallelComputingExample]: nothing panics; what has
    been added to [parallelResult], what is buffered in [results] and what
    the goroutines have still to send add up, with wrap-around, to
    [serialResult]; [cpuIntensiveTask] does not depend on its [id]; no
    schedule is longer than the initial measure; when nothing can move the
    receiving loop has taken [numTasks] values and [parallelResult] equals
    [serialResult]; and every reachable state can be run on to that end. *)
Theorem parallel_equals_serial (numTasks : nat) (workSize : Z)
    (sched : list Parallel.label) (s : Parallel.state) :
  run (Parallel.step workSize) sched (Parallel.init numTasks) = Some s ->
  Parallel.panic s = None /\
  GoInt.wrap (Parallel.parallelResult s
              + Parallel.sumZ (Chan.buf (Parallel.results s))
              + Parallel.sumZ (map (Parallel.pending_value workSize) (Parallel.tasks s)))
  = Parallel.serialResult numTasks workSize /\
  (forall id id', Parallel.cpuIntensiveTask id workSize
                  = Parallel.cpuIntensiveTask id' workSize) /\
  (length sched <= Parallel.measure (Parallel.init numTasks))%nat /\
  (stuck (Parallel.step workSize) s ->
     Parallel.received s = numTasks /\
     Parallel.parallelResult s = Parallel.serialResult numTasks workSize) /\
  (exists sched' s',
      run (Parallel.step workSize) sched' s = Some s' /\
      stuck (Parallel.step workSize) s' /\
      Parallel.received s' = numTasks /\
      Parallel.parallelResult s' = Parallel.serialResult numTasks workSize).
Proof.
  intros Hrun.
  destruct (run_total (Parallel.step workSize) (Parallel.inv workSize numTasks)
              (Parallel.final workSize numTasks)
              Parallel.measure (Parallel.init numTasks)
              (Parallel.parallel_inv_init workSize numTasks)
              (Parallel.parallel_inv_preserved workSize numTasks)
              (Parallel.parallel_measure_decreasing workSize numTasks)
              (fun s0 _ => Parallel.parallel_can_move workSize s0)
              (Parallel.parallel_stuck_final workSize numTasks) sched s Hrun)
    as (Hinv & Hlen & Hst & Hex).
  split; [apply Hinv|]. split; [apply Hinv|]. split; [reflexivity|].
  split; [lia|]. split; [exact Hst|].
  destruct Hex as (sched' & s' & H1 & H2 & H3 & H4). exists sched', s'. auto.
Qed.

(** Two tasks of work size 3, the second finishing first. *)
Definition parallel_sched_example : list Parallel.label :=
  [Parallel.Spawn; Parallel.Spawn; Parallel.TaskSend 1; Parallel.MainRecv;
   Parallel.TaskSend 0; Parallel.MainRecv].

Definition parallel_end_example : Parallel.state :=
  Parallel.State [Parallel.Goroutine 0 Parallel.TDone; Parallel.Goroutine 1 Parallel.TDone]
    2 (Chan.Build [] 2 false) 2 10 None.

Lemma parallel_equals_serial_witness :
  run (Parallel.step 3) parallel_sched_example (Parallel.init 2)
  = Some parallel_end_example /\
  Parallel.serialResult 2 3 = 10 /\
  Parallel.panic parallel_end_example = None.
Proof.
  split; [reflexivity|]. split; [reflexivity|].
  exact (proj1 (parallel_equals_serial 2 3 parallel_sched_example
                  parallel_end_example eq_refl)).
Defined.

(** ** Receive with a timeout: [timeoutExample]

    A goroutine sleeps for [work] and then sends on the unbuffered
    [taskDone]; the caller selects between the receive from [taskDone] and
    [time.After(timeout)].  The source has [work = 3s], [timeout = 2s].

    Time is a logical clock in nanoseconds ([time.Duration]).  Steps of
    goroutines take no time; the clock advances, to the next pending timer,
    only when no goroutine can move.  When both cases of the [select] are
    ready either may be taken. *)

Module Timeout.

Inductive task_pc : Type :=
| TSleep (until : Z)  (* in time.Sleep, to wake at [until] *)
| TSend               (* at taskDone <- true *)
| TDone.

Inductive main_pc : Type :=
| MSelect (deadline : Z)  (* in the select; the timer of time.After fires at [deadline] *)
| MCompleted              (* case <-taskDone *)
| MTimedOut.              (* case <-time.After(timeout) *)

Record state : Type := State { now : Z; task : task_pc; mainpc : main_pc }.

Inductive label : Type :=
| Wake        (* time.Sleep returns *)
| Receive     (* select takes <-taskDone: the send and the receive meet *)
| TimerFires  (* select takes <-time.After(timeout) *)
| Tick.       (* everybody waits: the clock advances to the next timer *)

(** The goroutine and the select start at time 0. *)
Definition init (work timeout : Z) : state :=
  State 0 (TSleep work) (MSelect timeout).

(** The steps that take no time. *)
Definition act (l : label) (s : state) : option state :=
  match l with
  | Wake =>
      match task s with
      | TSleep u => if u <=? now s then Some (State (now s) TSend (mainpc s)) else None
      | _ => None
      end
  | Receive =>
      match task s, mainpc s with
      | TSend, MSelect _ => Some (State (now s) TDone MCompleted)
      | _, _ => None
      end
  | TimerFires =>
      match mainpc s with
      | MSelect d => if d <=? now s then Some (State (now s) (task s) MTimedOut) else None
      | _ => None
      end
  | Tick => None
  end.

Definition can_act (s : state) : bool :=
  match act Wake s, act Receive s, act TimerFires s with
  | None, None, None => false
  | _, _, _ => true
  end.

(** The earliest pending timer. *)
Definition next_timer (s : state) : option Z :=
  match task s, mainpc s with
  | TSleep u, MSelect d => Some (Z.min u d)
  | TSleep u, _ => Some u
  | _, MSelect d => Some d
  | _, _ => None
  end.

Definition step (l : label) (s : state) : option state :=
  match l with
  | Tick =>
      if can_act s then None
      else match next_timer s with
           | Some t => Some (State t (task s) (mainpc s))
           | None => None
           end
  | _ => act l s
  end.

(** *** Invariant and measure *)

Section Proofs.
Variables work timeout : Z.

(** The states a run goes through: while the caller selects, the clock has
    not passed the earlier of the two timers; the goroutine has reached its
    send inside the select only if its timer was not the later one; and each
    outcome excludes the other order of the timers. *)
Definition inv (s : state) : Prop :=
  match task s, mainpc s with
  | TSleep u, MSelect d => u = work /\ d = timeout /\ now s <= Z.min work timeout
  | TSend, MSelect d => d = timeout /\ work <= timeout /\ now s <= work
  | TDone, MCompleted => work <= timeout
  | TSleep u, MTimedOut => u = work /\ timeout <= work
  | TSend, MTimedOut => timeout <= work
  | _, _ => False
  end.

Definition measure (s : state) : nat :=
  match task s with
  | TSleep u => 2 + (if now s <? u then 1 else 0)
  | TSend => 1
  | TDone => 0
  end
  + match mainpc s with
    | MSelect d => 1 + (if now s <? d then 1 else 0)
    | _ => 0
    end.

Ltac timeout_cases Hstep :=
  unfold step, act, can_act, next_timer in Hstep; simpl in Hstep;
  repeat (case_match; simplify_eq/=);
  repeat match goal with
         | H : (_ <=? _) = true |- _ => apply Z.leb_le in H
         | H : (_ <=? _) = false |- _ => apply Z.leb_gt in H
         | H : (_ <? _) = true |- _ => apply Z.ltb_lt in H
         | H : (_ <? _) = false |- _ => apply Z.ltb_ge in H
         end.

Lemma timeout_inv_init : 0 <= work -> 0 <= timeout -> inv (init work timeout).
Proof. unfold inv; simpl. lia. Qed.

Lemma timeout_inv_preserved : preserved step inv.
Proof.
  intros l [n t m] s' Hinv Hstep. unfold inv in *; simpl in *.
  destruct l, t as [u| |], m as [d| |]; timeout_cases Hstep; simpl; try lia.
Qed.

Lemma timeout_measure_decreasing : decreasing step inv measure.
Proof.
  intros l [n t m] s' Hinv Hstep. unfold inv, measure in *; simpl in *.
  destruct l, t as [u| |], m as [d| |]; timeout_cases Hstep; simpl;
    repeat case_match;
    repeat match goal with
           | H : (_ <? _) = true |- _ => apply Z.ltb_lt in H
           | H : (_ <? _) = false |- _ => apply Z.ltb_ge in H
           end; try lia.
Qed.

Lemma timeout_can_move (s : state) :
  stuck step s \/ exists l s', step l s = Some s'.
Proof.
  apply (stuck_or_move step [Wake; Receive; TimerFires; Tick]).
  intros l s' _. destruct l; simpl; auto.
Qed.

(** When nothing can move the select has returned. *)
Lemma timeout_stuck_returned (s : state) :
  inv s -> stuck step s -> mainpc s = MCompleted \/ mainpc s = MTimedOut.
Proof.
  intros Hinv Hst. destruct s as [n t m]. simpl.
  destruct m as [d| |]; auto. exfalso.
  pose proof (Hst Wake) as H1. pose proof (Hst Receive) as H2.
  pose proof (Hst TimerFires) as H3. pose proof (Hst Tick) as H4.
  unfold inv in Hinv; simpl in Hinv.
  destruct t as [u| |]; try done.
  unfold step, act, can_act, next_timer in *; simpl in *.
  destruct (u <=? n); [discriminate|]. destruct (d <=? n); discriminate.
Qed.
End Proofs.

(** [timeoutExample]: 3 s of work against a timeout of 2 s. *)
Definition second : Z := 1000000000.
Definition timeoutExample : state := init (3 * second) (2 * second).
End Timeout.

Lemma timeout_outcome (work timeout : Z) (s : Timeout.state) :
  Timeout.inv work timeout s ->
  (work < timeout -> Timeout.mainpc s <> Timeout.MTimedOut) /\
  (timeout < work -> Timeout.mainpc s <> Timeout.MCompleted).
Proof.
  unfold Timeout.inv. destruct s as [n t m]; simpl.
  destruct t, m; intros H; split; intros Hlt; try discriminate; try lia; try done.
Qed.

(** With equal durations the select may go either way. *)
Lemma timeout_tie_either (d : Z) :
  0 < d ->
  run Timeout.step [Timeout.Tick; Timeout.TimerFires] (Timeout.init d d)
  = Some (Timeout.State d (Timeout.TSleep d) Timeout.MTimedOut) /\
  run Timeout.step [Timeout.Tick; Timeout.Wake; Timeout.Receive] (Timeout.init d d)
  = Some (Timeout.State d Timeout.TDone Timeout.MCompleted).
Proof.
  intros Hd. unfold Timeout.init. simpl.
  unfold Timeout.can_act, Timeout.act; simpl.
  assert (E : (d <=? 0) = false) by (apply Z.leb_gt; lia).
  rewrite E. simpl. rewrite Z.min_id. unfold Timeout.act; simpl.
  rewrite Z.leb_refl. simpl. auto.
Qed.

(** C8 — receive with a timeout.  With a value that becomes available after
    [work] and a deadline after [timeout] (both from the start of the select,
    neither negative), along every schedule: if the value comes strictly
    first the select never takes the timeout, and if the deadline comes
    strictly first it never takes the value; no schedule is longer than the
    initial measure; when nothing can move the select has returned,
    completed in the first case and timed out in the second; and every
    reachable state can be run on to that end. *)
Theorem receive_with_timeout (work timeout : Z)
    (sched : list Timeout.label) (s : Timeout.state) :
  0 <= work -> 0 <= timeout ->
  run Timeout.step sched (Timeout.init work timeout) = Some s ->
  (work < timeout -> Timeout.mainpc s <> Timeout.MTimedOut) /\
  (timeout < work -> Timeout.mainpc s <> Timeout.MCompleted) /\
  (length sched <= Timeout.measure (Timeout.init work timeout))%nat /\
  (stuck Timeout.step s ->
     (work < timeout -> Timeout.mainpc s = Timeout.MCompleted) /\
     (timeout < work -> Timeout.mainpc s = Timeout.MTimedOut)) /\
  (exists sched' s',
      run Timeout.step sched' s = Some s' /\ stuck Timeout.step s' /\
      (work < timeout -> Timeout.mainpc s' = Timeout.MCompleted) /\
      (timeout < work -> Timeout.mainpc s' = Timeout.MTimedOut)).
Proof.
  intros Hw Ht Hrun.
  destruct (run_total Timeout.step (Timeout.inv work timeout)
              (fun s0 => (work < timeout -> Timeout.mainpc s0 = Timeout.MCompleted) /\
                         (timeout < work -> Timeout.mainpc s0 = Timeout.MTimedOut))
              Timeout.measure (Timeout.init work timeout)
              (Timeout.timeout_inv_init work timeout Hw Ht)
              (Timeout.timeout_inv_preserved work timeout)
              (Timeout.timeout_measure_decreasing work timeout)
              (fun s0 _ => Timeout.timeout_can_move s0))
    with (sched := sched) (s := s) as (Hinv & Hlen & Hst & Hex); auto.
  { intros s0 Hi Hs.
    destruct (timeout_outcome work timeout s0 Hi) as [H1 H2].
    destruct (Timeout.timeout_stuck_returned work timeout s0 Hi Hs) as [Hc | Hc];
      split; intros Hlt; auto; exfalso; [apply (H2 Hlt) | apply (H1 Hlt)]; exact Hc. }
  destruct (timeout_outcome work timeout s Hinv) as [H1 H2].
  split; [exact H1|]. split; [exact H2|]. split; [lia|].
  split; [exact Hst|]. destruct Hex as (sched' & s' & Ha & Hb & Hc & Hd).
  exists sched', s'. auto.
Qed.

(** A value after 50 ms against a deadline of 100 ms, and [timeoutExample]
    (3 s of work against 2 s). *)
Lemma receive_with_timeout_witness :
  run Timeout.step [Timeout.Tick; Timeout.Wake; Timeout.Receive]
      (Timeout.init 50000000 100000000)
  = Some (Timeout.State 50000000 Timeout.TDone Timeout.MCompleted) /\
  Timeout.MCompleted <> Timeout.MTimedOut /\
  run Timeout.step [Timeout.Tick; Timeout.TimerFires] Timeout.timeoutExample
  = Some (Timeout.State 2000000000 (Timeout.TSleep 3000000000) Timeout.MTimedOut) /\
  Timeout.MTimedOut <> Timeout.MCompleted.
Proof.
  split; [reflexivity|]. split.
  - refine (proj1 (receive_with_timeout 50000000 100000000
              [Timeout.Tick; Timeout.Wake; Timeout.Receive]
              (Timeout.State 50000000 Timeout.TDone Timeout.MCompleted)
              _ _ eq_refl) _); lia.
  - split; [reflexivity|].
    refine (proj1 (proj2 (receive_with_timeout 3000000000 2000000000
              [Timeout.Tick; Timeout.TimerFires]
              (Timeout.State 2000000000 (Timeout.TSleep 3000000000) Timeout.MTimedOut)
              _ _ eq_refl)) _); lia.
Defined.

(** ** [selectExample]: two senders and a timeout, in a loop

    Two goroutines sleep ([1s], [2s]) and then send on [c1] and [c2]; the
    caller runs two rounds of a [select] over [c1], [c2] and a fresh
    [time.After(3s)], printing what it received, or printing the timeout and
    returning.  Same clock as above. *)

Module SelectLoop.

Inductive sender_pc : Type :=
| SSleep (until : Z)
| SSend
| SDone.

Inductive main_pc : Type :=
| MSelect (i : Z) (deadline : Z)  (* round i of the loop, in the select *)
| MReturned.

Record state : Type := State {
  now : Z;
  g1 : sender_pc;
  g2 : sender_pc;
  mainpc : main_pc;
  printed : list string   (* the lines printed by the caller *)
}.

Inductive label : Type :=
| Wake1 | Wake2   (* time.Sleep returns in the first, the second goroutine *)
| Recv1           (* case msg1 := <-c1 *)
| Recv2           (* case msg2 := <-c2 *)
| TimerFires      (* case <-time.After(3 * time.Second) *)
| Tick.

Section Model.
Variables sleep1 sleep2 timeout : Z.

Definition init : state :=
  State 0 (SSleep sleep1) (SSleep sleep2) (MSelect 0 timeout) [].

(** [i++; i < 2]: the next round, with a new timer, or the end of the loop. *)
Definition next_round (i : Z) (t : Z) : main_pc :=
  if GoInt.add i 1 <? 2 then MSelect (GoInt.add i 1) (t + timeout) else MReturned.

Definition wake (t : Z) (g : sender_pc) : option sender_pc :=
  match g with
  | SSleep u => if u <=? t then Some SSend else None
  | _ => None
  end.

Definition act (l : label) (s : state) : option state :=
  match l with
  | Wake1 =>
      match wake (now s) (g1 s) with
      | Some g => Some (State (now s) g (g2 s) (mainpc s) (printed s))
      | None => None
      end
  | Wake2 =>
      match wake (now s) (g2 s) with
      | Some g => Some (State (now s) (g1 s) g (mainpc s) (printed s))
      | None => None
      end
  | Recv1 =>
      match g1 s, mainpc s with
      | SSend, MSelect i _ =>
          Some (State (now s) SDone (g2 s) (next_round i (now s))
                  (printed s ++ ["收到: 来自 c1"%string]))
      | _, _ => None
      end
  | Recv2 =>
      match g2 s, mainpc s with
      | SSend, MSelect i _ =>
          Some (State (now s) (g1 s) SDone (next_round i (now s))
                  (printed s ++ ["收到: 来自 c2"%string]))
      | _, _ => None
      end
  | TimerFires =>
      match mainpc s with
      | MSelect _ d =>
          if d <=? now s
          then Some (State (now s) (g1 s) (g2 s) MReturned (printed s ++ ["超时"%string]))
          else None
      | MReturned => None
      end
  | Tick => None
  end.

Definition can_act (s : state) : bool :=
  match act Wake1 s, act Wake2 s, act Recv1 s, act Recv2 s, act TimerFires s with
  | None, None, None, None, None => false
  | _, _, _, _, _ => true
  end.

Definition timers (s : state) : list Z :=
  match g1 s with SSleep u => [u] | _ => [] end
  ++ match g2 s with SSleep u => [u] | _ => [] end
  ++ match mainpc s with MSelect _ d => [d] | MReturned => [] end.

Definition step (l : label) (s : state) : option state :=
  match l with
  | Tick =>
      if can_act s then None
      else match timers s with
           | t :: ts => Some (State (fold_right Z.min t ts) (g1 s) (g2 s)
                                (mainpc s) (printed s))
           | [] => None
           end
  | _ => act l s
  end.

(** The only run there is when the first message comes before the second
    and each comes before the timer of its round. *)
Definition inv (s : state) : Prop :=
  s = State (now s) (SSleep sleep1) (SSleep sleep2) (MSelect 0 timeout) []
    /\ now s <= sleep1
  \/ s = State sleep1 SSend (SSleep sleep2) (MSelect 0 timeout) []
  \/ s = State (now s) SDone (SSleep sleep2) (MSelect 1 (sleep1 + timeout))
           ["收到: 来自 c1"%string]
    /\ sleep1 <= now s <= sleep2
  \/ s = State sleep2 SDone SSend (MSelect 1 (sleep1 + timeout))
           ["收到: 来自 c1"%string]
  \/ s = State sleep2 SDone SDone MReturned
           ["收到: 来自 c1"; "收到: 来自 c2"]%string.

Definition measure (s : state) : nat :=
  match g1 s with SSleep u => 2 + (if now s <? u then 1 else 0) | SSend => 1 | SDone => 0 end
  + match g2 s with SSleep u => 2 + (if now s <? u then 1 else 0) | SSend => 1 | SDone => 0 end
  + match mainpc s with
    | MSelect i d => 1 + (if now s <? d then 1 else 0) + 3 * Z.to_nat (2 - i)
    | MReturned => 0
    end.

Hypothesis sleep1_nonneg : 0 <= sleep1.
Hypothesis first_before_second : sleep1 < sleep2.
Hypothesis first_in_time : sleep1 < timeout.
Hypothesis second_in_time : sleep2 < sleep1 + timeout.

Ltac cmp_hyps :=
  repeat match goal with
         | H : (_ <=? _) = true |- _ => apply Z.leb_le in H
         | H : (_ <=? _) = false |- _ => apply Z.leb_gt in H
         | H : (_ <? _) = true |- _ => apply Z.ltb_lt in H
         | H : (_ <? _) = false |- _ => apply Z.ltb_ge in H
         end.

Ltac select_cases Hstep :=
  unfold step, act, can_act, timers, wake, next_round in Hstep; simpl in Hstep;
  repeat (case_match; simplify_eq/=); simplify_eq/=; cmp_hyps.

Lemma select_inv_init : inv init.
Proof. left. split; [reflexivity | simpl; lia]. Qed.

Lemma select_inv_preserved : preserved step inv.
Proof.
  intros l [n a b m p] s' Hinv Hstep. unfold inv in *. simpl in Hinv.
  destruct Hinv as [[E H] | [E | [[E H] | [E | E]]]];
    inversion E; subst; clear E;
    destruct l; select_cases Hstep; simpl; try lia;
    first [ left; split; [reflexivity | simpl; lia]
          | right; left; reflexivity
          | right; right; left; split; [reflexivity | simpl; lia]
          | right; right; right; left; reflexivity
          | right; right; right; right; reflexivity
          | right; left; f_equal; lia
          | right; right; right; left; f_equal; lia ].
Qed.
Lemma select_measure_decreasing : decreasing step inv measure.
Proof.
  intros l [n a b m p] s' Hinv Hstep. unfold inv in *. simpl in Hinv.
  unfold measure.
  destruct Hinv as [[E H] | [E | [[E H] | [E | E]]]];
    inversion E; subst; clear E;
    destruct l; select_cases Hstep; simpl;
    repeat case_match; cmp_hyps; try lia.
Qed.

Lemma select_can_move (s : state) :
  stuck step s \/ exists l s', step l s = Some s'.
Proof.
  apply (stuck_or_move step [Wake1; Wake2; Recv1; Recv2; TimerFires; Tick]).
  intros l s' _. destruct l; simpl; auto 10.
Qed.

Lemma select_stuck_final (s : state) :
  inv s -> stuck step s ->
  printed s = ["收到: 来自 c1"; "收到: 来自 c2"]%string /\ mainpc s = MReturned.
Proof.
  intros Hinv Hst. destruct s as [n a b m p]. unfold inv in Hinv. simpl in Hinv.
  pose proof (Hst Wake1) as H1. pose proof (Hst Wake2) as H2.
  pose proof (Hst Recv1) as H3. pose proof (Hst Recv2) as H4.
  pose proof (Hst Tick) as H5. clear Hst.
  destruct Hinv as [[E H] | [E | [[E H] | [E | E]]]];
    inversion E; subst; clear E; simpl; auto; exfalso;
    unfold step, act, can_act, timers, wake, next_round in H1, H2, H3, H4, H5;
    simpl in *;
    repeat (case_match; simplify_eq/=); simplify_eq/=; cmp_hyps; lia.
Qed.
End Model.

(** [selectExample] with the durations of the source. *)
Definition second : Z := 1000000000.
Definition selectExample : state := init (1 * second) (2 * second) (3 * second).
Definition select_step : label -> state -> option state := step (3 * second).
End SelectLoop.

(** X1 — [selectExample] prints the message of [c1], then that of [c2], and
    never the timeout, along every schedule; and it comes to its end. *)
Lemma select_example_receives_both (sched : list SelectLoop.label)
    (s : SelectLoop.state) :
  run SelectLoop.select_step sched SelectLoop.selectExample = Some s ->
  (exists later, ["收到: 来自 c1"; "收到: 来自 c2"]%string
                 = SelectLoop.printed s ++ later) /\
  (stuck SelectLoop.select_step s ->
     SelectLoop.printed s = ["收到: 来自 c1"; "收到: 来自 c2"]%string /\
     SelectLoop.mainpc s = SelectLoop.MReturned) /\
  (exists sched' s',
      run SelectLoop.select_step sched' s = Some s' /\
      stuck SelectLoop.select_step s' /\
      SelectLoop.printed s' = ["收到: 来自 c1"; "收到: 来自 c2"]%string /\
      SelectLoop.mainpc s' = SelectLoop.MReturned).
Proof.
  intros Hrun.
  assert (H1 : 0 <= 1 * SelectLoop.second) by (unfold SelectLoop.second; lia).
  assert (H2 : 1 * SelectLoop.second < 2 * SelectLoop.second)
    by (unfold SelectLoop.second; lia).
  assert (H3 : 1 * SelectLoop.second < 3 * SelectLoop.second)
    by (unfold SelectLoop.second; lia).
  assert (H4 : 2 * SelectLoop.second < 1 * SelectLoop.second + 3 * SelectLoop.second)
    by (unfold SelectLoop.second; lia).
  destruct (run_total SelectLoop.select_step
              (SelectLoop.inv (1 * SelectLoop.second) (2 * SelectLoop.second)
                 (3 * SelectLoop.second))
              (fun s0 => SelectLoop.printed s0 = ["收到: 来自 c1"; "收到: 来自 c2"]%string
                         /\ SelectLoop.mainpc s0 = SelectLoop.MReturned)
              SelectLoop.measure SelectLoop.selectExample
              (SelectLoop.select_inv_init _ _ _ H1)
              (SelectLoop.select_inv_preserved _ _ _ H2 H3 H4)
              (SelectLoop.select_measure_decreasing _ _ _ H2 H3 H4)
              (fun s0 _ => SelectLoop.select_can_move _ s0)
              (SelectLoop.select_stuck_final _ _ _ H3 H4) sched s Hrun)
    as (Hinv & _ & Hst & Hex).
  split; [|split; [exact Hst | exact Hex]].
  destruct Hinv as [[-> _] | [-> | [[-> _] | [-> | ->]]]]; simpl; eauto.
Qed.


Lemma select_example_receives_both_witness :
  run SelectLoop.select_step
      [SelectLoop.Tick; SelectLoop.Wake1; SelectLoop.Recv1;
       SelectLoop.Tick; SelectLoop.Wake2; SelectLoop.Recv2]
      SelectLoop.selectExample
  = Some (SelectLoop.State 2000000000 SelectLoop.SDone SelectLoop.SDone
            SelectLoop.MReturned ["收到: 来自 c1"; "收到: 来自 c2"]%string) /\
  exists later, ["收到: 来自 c1"; "收到: 来自 c2"]%string
                = ["收到: 来自 c1"; "收到: 来自 c2"]%string ++ later.
Proof.
  split; [reflexivity|].
  exact (proj1 (select_example_receives_both
           [SelectLoop.Tick; SelectLoop.Wake1; SelectLoop.Recv1;
            SelectLoop.Tick; SelectLoop.Wake2; SelectLoop.Recv2]
           (SelectLoop.State 2000000000 SelectLoop.SDone SelectLoop.SDone
              SelectLoop.MReturned ["收到: 来自 c1"; "收到: 来自 c2"]%string)
           eq_refl)).
Defined.

(** ** Sums over lists of goroutines *)

Section SumLookup.
Context {B : Type}.

Lemma sum_list_zero_lookup (f : B -> nat) (l : list B) (k : nat) (x : B) :
  sum_list (map f l) = 0%nat -> l !! k = Some x -> f x = 0%nat.
Proof.
  intros Hsum Hk. apply list_elem_of_lookup_2 in Hk.
  induction Hk; simpl in Hsum; [lia | apply IHHk; lia].
Qed.

Lemma sum_list_pos_lookup (f : B -> nat) (l : list B) :
  sum_list (map f l) <> 0%nat -> exists k x, l !! k = Some x /\ f x <> 0%nat.
Proof.
  induction l as [|a l IH]; simpl; [congruence|]. intros Hne.
  destruct (f a) eqn:E.
  - destruct (IH Hne) as (k & x & Hk & Hx). exists (S k), x. auto.
  - exists 0%nat, a. split; [reflexivity | lia].
Qed.

(** When the values of [f] add up to at most one, two places cannot both
    have a positive value. *)
Lemma sum_list_unique (f : B -> nat) (l : list B) (k k' : nat) (x y : B) :
  (sum_list (map f l) <= 1)%nat -> l !! k = Some x -> l !! k' = Some y ->
  k <> k' -> f x <> 0%nat -> f y = 0%nat.
Proof.
  revert k k'. induction l as [|a l IH]; intros [|k] [|k'] Hsum Hk Hk' Hne Hx;
    simpl in *; try discriminate; try congruence.
  - inversion Hk; subst. eapply (sum_list_zero_lookup f l); [lia | exact Hk'].
  - inversion Hk'; subst. destruct (f y) eqn:E; [reflexivity|].
    exfalso. apply Hx. eapply (sum_list_zero_lookup f l); [lia | exact Hk].
  - eapply (IH k k'); eauto. lia.
Qed.
End SumLookup.
(** ** More on the pipeline: [generateNumbers] for any range *)

(** X2 — [generateNumbers(start, end)] sends [start, start+1, .., end] and then
    closes; behind it [square] and [filter predicate].  For every range whose
    end is below the largest [int] and every predicate, along every schedule:
    what the caller has received is a prefix of the squares (with wrap-around)
    of [start .. end] that satisfy the predicate, in the order of the numbers;
    the run ends, in a state where the caller has received all of them and has
    seen the last channel closed.  An empty range ([end < start]) delivers
    nothing and still closes. *)
Theorem pipeline_filtered_squares (predicate : Z -> bool) (start end_ : Z)
    (sched : list Pipeline.label) (s : Pipeline.state) :
  GoInt.in_range start -> end_ < GoInt.max_int ->
  run (Pipeline.step predicate end_) sched (Pipeline.init start) = Some s ->
  let squares :=
    List.filter predicate
      (map (fun num => GoInt.mul num num) (seqZ start (end_ - start + 1))) in
  (exists later, squares = Pipeline.collected s ++ later) /\
  (length sched <= Pipeline.measure end_ (Pipeline.init start))%nat /\
  (stuck (Pipeline.step predicate end_) s ->
     Pipeline.collected s = squares /\ Pipeline.main_done s = true) /\
  (exists sched' s',
      run (Pipeline.step predicate end_) sched' s = Some s' /\
      stuck (Pipeline.step predicate end_) s' /\
      Pipeline.collected s' = squares /\ Pipeline.main_done s' = true) /\
  (end_ < start -> squares = []).
Proof.
  intros Hstart Hend Hrun squares.
  destruct (run_total (Pipeline.step predicate end_)
              (Pipeline.inv predicate start end_)
              (fun s0 => Pipeline.collected s0 = squares /\ Pipeline.main_done s0 = true)
              (Pipeline.measure end_) (Pipeline.init start)
              (Pipeline.pipeline_inv_init predicate start end_ Hstart)
              (Pipeline.pipeline_inv_preserved predicate start end_ Hend)
              (Pipeline.pipeline_measure_decreasing predicate start end_ Hend)
              (fun s0 _ => Pipeline.pipeline_can_move predicate end_ s0))
    with (sched := sched) (s := s) as (Hinv & Hlen & Hst & Hex); auto.
  { intros s0 Hi Hs.
    destruct (Pipeline.pipeline_stuck_final predicate start end_ s0 Hi Hs) as (Hc & Hm & _).
    split; [exact Hc | exact Hm]. }
  split; [|split; [lia | split; [exact Hst | split; [exact Hex|]]]].
  - pose proof (Pipeline.inv_values _ _ _ _ Hinv) as Hv.
    eexists. symmetry. exact Hv.
  - intros Hlt. unfold squares. rewrite seqZ_nil by lia. reflexivity.
Qed.

(** The numbers 3..5 with the predicate of [pipelineExample]: 25 alone. *)
Definition pipeline_sched_3_5 : list Pipeline.label :=
  [Pipeline.GenSend; Pipeline.SqSendL; Pipeline.GenSend; Pipeline.SqSendL;
   Pipeline.GenSend; Pipeline.SqSendL; Pipeline.FlSendL; Pipeline.GenClose;
   Pipeline.SqClose; Pipeline.FlClose; Pipeline.MainExit].

Definition pipeline_end_3_5 : Pipeline.state :=
  Pipeline.State Pipeline.GDone true Pipeline.SqDone true Pipeline.FlDone
    true [25] true.

Lemma pipeline_filtered_squares_witness :
  run (Pipeline.step Pipeline.keep 5) pipeline_sched_3_5 (Pipeline.init 3)
  = Some pipeline_end_3_5 /\
  exists later, [25] = [25] ++ later.
Proof.
  split; [reflexivity|].
  refine (proj1 (pipeline_filtered_squares Pipeline.keep 3 5 pipeline_sched_3_5
                   pipeline_end_3_5 _ _ eq_refl)).
  - unfold GoInt.in_range, GoInt.min_int, GoInt.max_int. lia.
  - unfold GoInt.max_int. lia.
Defined.




(** ** More on [timeoutExample]: the goroutine left behind *)

(** X4 — When the timeout is shorter than the work, the goroutine of
    [timeoutExample] never gets rid of its value: [taskDone] is unbuffered
    and after the timeout nobody receives from it.  Along every schedule the
    goroutine has not completed its send, and when nothing can move any more
    the select has timed out and the goroutine is blocked at
    [taskDone <- true]. *)
Theorem timeout_leaves_sender_blocked (work timeout : Z)
    (sched : list Timeout.label) (s : Timeout.state) :
  0 <= timeout -> timeout < work ->
  run Timeout.step sched (Timeout.init work timeout) = Some s ->
  Timeout.task s <> Timeout.TDone /\
  (stuck Timeout.step s ->
     Timeout.task s = Timeout.TSend /\ Timeout.mainpc s = Timeout.MTimedOut) /\
  (exists sched' s',
      run Timeout.step sched' s = Some s' /\ stuck Timeout.step s' /\
      Timeout.task s' = Timeout.TSend /\ Timeout.mainpc s' = Timeout.MTimedOut).
Proof.
  intros Ht Hlt Hrun.
  assert (Hend : forall s0, Timeout.inv work timeout s0 -> stuck Timeout.step s0 ->
            Timeout.task s0 = Timeout.TSend /\ Timeout.mainpc s0 = Timeout.MTimedOut).
  { intros [n t m] Hi Hs.
    pose proof (Hs Timeout.Wake) as H1. pose proof (Hs Timeout.Tick) as H2.
    pose proof (Hs Timeout.TimerFires) as H3.
    unfold Timeout.inv in Hi.
    unfold Timeout.step, Timeout.act, Timeout.can_act, Timeout.next_timer in *.
    simpl in *.
    destruct t as [u| |], m as [d| |]; try done; try lia.
    - destruct (u <=? n); [discriminate|]. destruct (d <=? n); discriminate.
    - destruct (u <=? n); discriminate. }
  destruct (run_total Timeout.step (Timeout.inv work timeout)
              (fun s0 => Timeout.task s0 = Timeout.TSend /\
                         Timeout.mainpc s0 = Timeout.MTimedOut)
              Timeout.measure (Timeout.init work timeout)
              (Timeout.timeout_inv_init work timeout ltac:(lia) Ht)
              (Timeout.timeout_inv_preserved work timeout)
              (Timeout.timeout_measure_decreasing work timeout)
              (fun s0 _ => Timeout.timeout_can_move s0) Hend sched s Hrun)
    as (Hinv & _ & Hst & Hex).
  split; [|split; [exact Hst|]].
  - unfold Timeout.inv in Hinv. destruct s as [n t m]; simpl in *.
    destruct t, m; try done; lia.
  - destruct Hex as (sched' & s' & Ha & Hb & Hc & Hd). exists sched', s'. auto.
Qed.

(** [timeoutExample] itself: after 2 s the select times out, after 3 s the
    goroutine wakes up and stays at its send. *)
Lemma timeout_leaves_sender_blocked_witness :
  run Timeout.step [Timeout.Tick; Timeout.TimerFires; Timeout.Tick; Timeout.Wake]
      Timeout.timeoutExample
  = Some (Timeout.State 3000000000 Timeout.TSend Timeout.MTimedOut) /\
  Timeout.TSend <> Timeout.TDone.
Proof.
  split; [reflexivity|].
  refine (proj1 (timeout_leaves_sender_blocked 3000000000 2000000000
                   [Timeout.Tick; Timeout.TimerFires; Timeout.Tick; Timeout.Wake]
                   (Timeout.State 3000000000 Timeout.TSend Timeout.MTimedOut)
                   _ _ eq_refl)); lia.
Defined.

(** ** More on [cpuIntensiveTask]: the sum of squares in closed form *)

Lemma wrap_sum_map_wrap {B : Type} (f : B -> Z) (l : list B) :
  GoInt.wrap (Parallel.sumZ (map (fun i => GoInt.wrap (f i)) l))
  = GoInt.wrap (Parallel.sumZ (map f l)).
Proof.
  induction l as [|x l IH]; simpl; [reflexivity|].
  rewrite GoInt.wrap_add_l, <- GoInt.wrap_add_r, IH, GoInt.wrap_add_r. reflexivity.
Qed.

Lemma six_sum_squares (n : nat) :
  6 * Parallel.sumZ (map (fun i => i * i) (seqZ 0 (Z.of_nat n)))
  = (Z.of_nat n - 1) * Z.of_nat n * (2 * Z.of_nat n - 1).
Proof.
  induction n as [|n IH]; [reflexivity|].
  rewrite seqZ_S, map_app, Parallel.sumZ_app. simpl. nia.
Qed.

Lemma sum_squares (n : Z) :
  0 <= n ->
  Parallel.sumZ (map (fun i => i * i) (seqZ 0 n)) = (n - 1) * n * (2 * n - 1) / 6.
Proof.
  intros Hn. pose proof (six_sum_squares (Z.to_nat n)) as H.
  rewrite Z2Nat.id in H by lia. rewrite <- H.
  rewrite Z.mul_comm, Z.div_mul by lia. reflexivity.
Qed.

Lemma cpuIntensiveTask_wrap (id n : Z) :
  Parallel.cpuIntensiveTask id n
  = GoInt.wrap (Parallel.sumZ (map (fun i => i * i) (seqZ 0 n))).
Proof.
  unfold Parallel.cpuIntensiveTask. change 0 with (GoInt.wrap 0) at 2.
  rewrite (Parallel.fold_add_wrap (fun i => GoInt.mul i i)). simpl.
  unfold GoInt.mul. apply wrap_sum_map_wrap.
Qed.

Lemma wrap_mul_r (a b : Z) : GoInt.wrap (a * GoInt.wrap b) = GoInt.wrap (a * b).
Proof.
  assert (Hmod : forall z, GoInt.wrap z mod 2 ^ 64 = z mod 2 ^ 64).
  { intros z. unfold GoInt.wrap.
    replace ((z + 2 ^ 63) mod 2 ^ 64 - 2 ^ 63)
      with (z - 2 ^ 64 * ((z + 2 ^ 63) / 2 ^ 64))
      by (pose proof (Z.div_mod (z + 2 ^ 63) (2 ^ 64) ltac:(lia)); lia).
    rewrite Z.mul_comm, <- Z.add_opp_r, <- Z.mul_opp_l, Z.mod_add by lia. reflexivity. }
  assert (Hcongr : forall x y, x mod 2 ^ 64 = y mod 2 ^ 64 -> GoInt.wrap x = GoInt.wrap y).
  { intros x y H. unfold GoInt.wrap.
    rewrite <- (Zplus_mod_idemp_l x), H, Zplus_mod_idemp_l. reflexivity. }
  apply Hcongr. rewrite Z.mul_mod, Hmod, <- Z.mul_mod by lia. reflexivity.
Qed.

Lemma sumZ_const {B : Type} (c : Z) (l : list B) :
  Parallel.sumZ (map (fun _ => c) l) = Z.of_nat (length l) * c.
Proof. induction l as [|x l IH]; simpl length; simpl; [lia | rewrite IH; lia]. Qed.

(** X5 — [cpuIntensiveTask(id, n)] returns, whatever its [id], the sum of the
    squares below [n], which is [(n-1)n(2n-1)/6], reduced to 64 bits; and
    the serial loop of [parallelComputingExample] over [numTasks] tasks
    returns [numTasks] times that, reduced to 64 bits. *)
Theorem cpu_intensive_task_closed_form (id n : Z) (numTasks : nat) :
  0 <= n ->
  Parallel.cpuIntensiveTask id n = GoInt.wrap ((n - 1) * n * (2 * n - 1) / 6) /\
  Parallel.serialResult numTasks n
  = GoInt.wrap (Z.of_nat numTasks * ((n - 1) * n * (2 * n - 1) / 6)).
Proof.
  intros Hn. split.
  - rewrite cpuIntensiveTask_wrap, sum_squares by exact Hn. reflexivity.
  - rewrite Parallel.serialResult_wrap.
    rewrite (map_ext _ (fun _ => Parallel.cpuIntensiveTask 0 n)) by reflexivity.
    rewrite sumZ_const, length_seq, cpuIntensiveTask_wrap, sum_squares by exact Hn.
    apply wrap_mul_r.
Qed.

(** The constants of the source: one task of a million gives
    333332833333500000, eight of them 2666662666668000000, both without
    overflow. *)
Lemma cpu_intensive_task_closed_form_witness :
  Parallel.cpuIntensiveTask 0 Parallel.workSize = 333332833333500000 /\
  Parallel.serialResult Parallel.numTasks Parallel.workSize = 2666662666668000000.
Proof.
  assert (H : 0 <= Parallel.workSize) by (unfold Parallel.workSize; lia).
  destruct (cpu_intensive_task_closed_form 0 Parallel.workSize Parallel.numTasks H)
    as [H1 H2].
  split; [rewrite H1 | rewrite H2]; reflexivity.
Defined.
(** ** More on [parallelComputingExample]: no send ever waits *)

Lemma not_done_le (ts : list Parallel.goroutine) (k : nat) (i : Z) :
  ts !! k = Some (Parallel.Goroutine i Parallel.TRunning) ->
  (1 <= sum_list (map Parallel.not_done ts))%nat.
Proof.
  revert k. induction ts as [|g ts IH]; intros [|k] Hk; simpl in *; try discriminate.
  - inversion Hk; subst. simpl. lia.
  - specialize (IH _ Hk). lia.
Qed.

(** X6 — [results] is made with room for [numTasks] values and each goroutine
    sends one: along every schedule, a goroutine that has been started and
    has not sent yet finds room in [results]; its send goes through at once,
    without a panic, and appends its sum to the buffer. *)
Theorem parallel_send_never_blocks (numTasks : nat) (workSize : Z)
    (sched : list Parallel.label) (s : Parallel.state) (k : nat) (i : Z) :
  run (Parallel.step workSize) sched (Parallel.init numTasks) = Some s ->
  Parallel.tasks s !! k = Some (Parallel.Goroutine i Parallel.TRunning) ->
  (length (Chan.buf (Parallel.results s)) < numTasks)%nat /\
  exists s', Parallel.step workSize (Parallel.TaskSend k) s = Some s' /\
             Parallel.panic s' = None /\
             Chan.buf (Parallel.results s')
             = Chan.buf (Parallel.results s) ++ [Parallel.cpuIntensiveTask i workSize].
Proof.
  intros Hrun Hk.
  pose proof (run_invariant _ _ (Parallel.parallel_inv_preserved workSize numTasks)
                _ _ _ (Parallel.parallel_inv_init workSize numTasks) Hrun)
    as [Hp Hlen Ht Ho Hc Hn Hr Hs].
  pose proof (not_done_le _ _ _ Hk) as Hnd.
  assert (Hlt : (length (Chan.buf (Parallel.results s)) < numTasks)%nat) by lia.
  split; [exact Hlt|].
  unfold Parallel.step. rewrite Hp, Hk. unfold Chan.send. rewrite Ho, Hc.
  apply Nat.ltb_lt in Hlt. rewrite Hlt. eexists. split; [reflexivity|]. simpl. auto.
Qed.

(** Two goroutines started, the first has sent: the second still finds
    room. *)
Lemma parallel_send_never_blocks_witness :
  run (Parallel.step 3) [Parallel.Spawn; Parallel.Spawn; Parallel.TaskSend 0]
      (Parallel.init 2)
  = Some (Parallel.State
            [Parallel.Goroutine 0 Parallel.TDone; Parallel.Goroutine 1 Parallel.TRunning]
            2 (Chan.Build [5] 2 false) 0 0 None) /\
  (1 < 2)%nat.
Proof.
  split; [reflexivity|].
  exact (proj1 (parallel_send_never_blocks 2 3
                  [Parallel.Spawn; Parallel.Spawn; Parallel.TaskSend 0]
                  (Parallel.State
                     [Parallel.Goroutine 0 Parallel.TDone;
                      Parallel.Goroutine 1 Parallel.TRunning]
                     2 (Chan.Build [5] 2 false) 0 0 None)
                  1%nat 1 eq_refl eq_refl)).
Defined.

(** ** More on [workerPoolExample]: buffers and the pool without workers *)

(** X7 — Both channels of [workerPoolExample] have room for [numTasks] values.
    Along every schedule (any number of workers) neither the sending
    goroutine nor a worker ever waits at a send: a task still to send finds
    room in [tasks], and a worker holding a task finds [results] open with
    room for its result. *)
Theorem worker_pool_sends_never_block (numWorkers numTasks : nat)
    (sched : list WorkerPool.label) (s : WorkerPool.state) :
  run (WorkerPool.step WorkerPool.process_src) sched
      (WorkerPool.init numWorkers numTasks) = Some s ->
  (forall t rest,
     WorkerPool.producer s = WorkerPool.PRunning ->
     WorkerPool.to_send s = t :: rest ->
     exists s', WorkerPool.step WorkerPool.process_src WorkerPool.Produce s = Some s' /\
                WorkerPool.panic s' = None /\
                Chan.buf (WorkerPool.tasks s') = Chan.buf (WorkerPool.tasks s) ++ [t]) /\
  (forall k t,
     WorkerPool.workers s !! k = Some (WorkerPool.WHold t) ->
     exists s', WorkerPool.step WorkerPool.process_src (WorkerPool.WorkerSend k) s
                = Some s' /\
                WorkerPool.panic s' = None /\
                Chan.buf (WorkerPool.results s')
                = Chan.buf (WorkerPool.results s)
                  ++ [WorkerPool.sprintf_result (Z.of_nat k + 1) t]).
Proof.
  intros Hrun.
  pose proof (run_invariant _ _
                (WorkerPool.wp_inv_preserved WorkerPool.process_src numWorkers numTasks
                   WorkerPool.process_src_total)
                _ _ _ (WorkerPool.wp_inv_init WorkerPool.process_src numWorkers numTasks) Hrun)
    as [Hp Hlen Hsp Hw Hwg Hpr Hcl Htc Htcl Hts Hrc Hrcl Hm (jobs & Hjok & Hjt & Hjr)].
  pose proof (Permutation_length Hjt) as HL.
  pose proof (Permutation_length Hjr) as HR.
  rewrite !length_app, !length_map, WorkerPool.tasks_of_length in HL.
  rewrite length_app, length_map in HR.
  split.
  - intros t rest Hrun' Hsend. rewrite Hsend in HL. simpl in HL.
    unfold WorkerPool.step. rewrite Hp, Hrun', Hsend. unfold Chan.send.
    assert (Hopen : Chan.closed (WorkerPool.tasks s) = false).
    { apply not_true_is_false. intros E. apply Htcl in E. congruence. }
    rewrite Hopen, Htc.
    assert (Hlt : (length (Chan.buf (WorkerPool.tasks s)) <? numTasks)%nat = true)
      by (apply Nat.ltb_lt; lia).
    rewrite Hlt. eexists. split; [reflexivity|]. simpl. auto.
  - intros k t Hk.
    pose proof (WorkerPool.wp_held_pos _ _ _ Hk) as Hheld.
    unfold WorkerPool.held in HL.
    unfold WorkerPool.step. rewrite Hp, Hk. simpl. unfold Chan.send.
    assert (Hopen : Chan.closed (WorkerPool.results s) = false).
    { apply not_true_is_false. intros E.
      destruct (Hw _ _ Hk) as (_ & _ & Hx). specialize (Hx E). discriminate. }
    rewrite Hopen, Hrc.
    assert (Hlt : (length (Chan.buf (WorkerPool.results s)) <? numTasks)%nat = true)
      by (apply Nat.ltb_lt; lia).
    rewrite Hlt. eexists. split; [reflexivity|]. simpl. auto.
Qed.

(** One worker holding the first of two tasks. *)
Definition wp_sched_hold : list WorkerPool.label :=
  [WorkerPool.Spawn; WorkerPool.SpawnProducer; WorkerPool.Produce;
   WorkerPool.WorkerRecv 0].

Definition wp_state_hold : WorkerPool.state :=
  WorkerPool.State [WorkerPool.WHold (WorkerPool.mkTask 1)] 1 1 [WorkerPool.mkTask 2]
    WorkerPool.PRunning (Chan.Build [] 2 false) (Chan.Build [] 2 false)
    WorkerPool.CNotStarted [] false None.

Lemma worker_pool_sends_never_block_witness :
  run (WorkerPool.step WorkerPool.process_src) wp_sched_hold (WorkerPool.init 1 2)
  = Some wp_state_hold /\
  exists s', WorkerPool.step WorkerPool.process_src WorkerPool.Produce wp_state_hold
             = Some s' /\
             WorkerPool.panic s' = None.
Proof.
  split; [reflexivity|].
  destruct (proj1 (worker_pool_sends_never_block 1 2 wp_sched_hold wp_state_hold eq_refl)
              (WorkerPool.mkTask 2) [] eq_refl eq_refl) as (s' & H1 & H2 & _).
  exists s'. split; [exact H1 | exact H2].
Defined.

(** What the pool without workers keeps: no worker, nothing on
    [results], and the tasks in order between the sender and [tasks]. *)
Definition wp_idle (numTasks : nat) (s : WorkerPool.state) : Prop :=
  WorkerPool.workers s = [] /\
  WorkerPool.collected s = [] /\ Chan.buf (WorkerPool.results s) = [] /\
  Chan.buf (WorkerPool.tasks s) ++ WorkerPool.to_send s = WorkerPool.tasks_of numTasks.

Lemma wp_idle_preserved (numTasks : nat) :
  preserved (WorkerPool.step WorkerPool.process_src) (wp_idle numTasks).
Proof.
  intros l s s' (Hw & Hc & Hr & Ht) Hstep.
  unfold WorkerPool.step in Hstep.
  destruct (WorkerPool.panic s); [discriminate|].
  destruct s as [ws sp w ts pr tk rs cl col md pn]; simpl in *. subst ws col.
  destruct tk as [tb tn tc], rs as [rb rn rc]; simpl in *. subst rb.
  unfold wp_idle, WorkerPool.set_panic, Chan.send, Chan.recv, Chan.close in *.
  destruct l; simpl in Hstep;
    repeat (case_match; simplify_eq/=); simplify_eq/=; repeat split; auto.
  rewrite <- app_assoc. exact Ht.
Qed.

(** X8 — With no worker at all nothing is processed: the wait group is never
    raised, so [results] is closed as soon as the closing goroutine runs.
    Along every schedule nothing is ever put on [results] or collected, and
    the tasks stay, in order, with the sender or in the buffer of [tasks];
    the run ends with the caller out of its loop, empty-handed, and all
    [numTasks] tasks still in [tasks]. *)
Theorem worker_pool_without_workers (numTasks : nat)
    (sched : list WorkerPool.label) (s : WorkerPool.state) :
  run (WorkerPool.step WorkerPool.process_src) sched (WorkerPool.init 0 numTasks)
  = Some s ->
  WorkerPool.panic s = None /\
  WorkerPool.collected s = [] /\ Chan.buf (WorkerPool.results s) = [] /\
  Chan.buf (WorkerPool.tasks s) ++ WorkerPool.to_send s = WorkerPool.tasks_of numTasks /\
  (stuck (WorkerPool.step WorkerPool.process_src) s ->
     WorkerPool.main_done s = true /\
     Chan.buf (WorkerPool.tasks s) = WorkerPool.tasks_of numTasks) /\
  (exists sched' s',
      run (WorkerPool.step WorkerPool.process_src) sched' s = Some s' /\
      stuck (WorkerPool.step WorkerPool.process_src) s' /\
      WorkerPool.main_done s' = true /\ WorkerPool.collected s' = [] /\
      Chan.buf (WorkerPool.tasks s') = WorkerPool.tasks_of numTasks).
Proof.
  intros Hrun.
  set (P := fun s0 => WorkerPool.inv WorkerPool.process_src 0 numTasks s0 /\
                      wp_idle numTasks s0).
  set (Q := fun s0 => WorkerPool.main_done s0 = true /\
                      WorkerPool.collected s0 = [] /\
                      Chan.buf (WorkerPool.tasks s0) = WorkerPool.tasks_of numTasks).
  assert (HP : preserved (WorkerPool.step WorkerPool.process_src) P).
  { intros l s0 s1 [H1 H2] Hstep. split.
    - eapply WorkerPool.wp_inv_preserved; eauto. apply WorkerPool.process_src_total.
    - eapply wp_idle_preserved; eauto. }
  assert (Hmu : decreasing (WorkerPool.step WorkerPool.process_src) P WorkerPool.measure).
  { intros l s0 s1 [H1 _] Hstep.
    eapply (WorkerPool.wp_measure_decreasing WorkerPool.process_src 0 numTasks); eauto.
    apply WorkerPool.process_src_total. }
  assert (HQ : forall s0, P s0 -> stuck (WorkerPool.step WorkerPool.process_src) s0 -> Q s0).
  { intros s0 [[Hp Hlen Hsp Hw Hwg Hpr Hcl Htc Htcl Hts Hrc Hrcl Hm _] (Hws & Hc & Hr & Ht)] Hst.
    assert (Hstep : forall l, WorkerPool.step WorkerPool.process_src l s0 = None) by exact Hst.
    clear Hst. unfold WorkerPool.step in Hstep. rewrite Hp in Hstep.
    destruct s0 as [ws sp w ts pr tk rs cl col md pn]; simpl in *. subst ws col pn.
    destruct tk as [tb tn tc], rs as [rb rn rc]; simpl in *. subst rb tn rn w.
    unfold Q; simpl.
    pose proof (Hstep WorkerPool.SpawnProducer) as H1.
    pose proof (Hstep WorkerPool.SpawnCloser) as H2.
    pose proof (Hstep WorkerPool.Produce) as H3.
    pose proof (Hstep WorkerPool.CloseTasks) as H4.
    pose proof (Hstep WorkerPool.CloserRun) as H5.
    pose proof (Hstep WorkerPool.Collect) as H6. clear Hstep.
    unfold Chan.send, Chan.recv, Chan.close in *; simpl in *.
    pose proof (f_equal length Ht) as HL.
    rewrite length_app, WorkerPool.tasks_of_length in HL.
    destruct pr; [discriminate | |].
    - exfalso. destruct ts as [|t rest]; [destruct tc; discriminate|].
      assert (tc = false) as ->.
      { apply not_true_is_false. intros E. apply Htcl in E. discriminate. }
      simpl in HL.
      assert (E : (length tb <? numTasks)%nat = true) by (apply Nat.ltb_lt; lia).
      rewrite E in H3. discriminate.
    - rewrite (Hts eq_refl), app_nil_r in Ht.
      destruct cl; [discriminate | destruct rc; discriminate |].
      destruct md; [auto|]. destruct rc; [discriminate|].
      destruct Hrcl as [_ Hx]. specialize (Hx eq_refl). discriminate. }
  destruct (run_total (WorkerPool.step WorkerPool.process_src) P Q
              WorkerPool.measure (WorkerPool.init 0 numTasks)) with (sched := sched) (s := s)
    as ([Hinv (Hws & Hc & Hr & Ht)] & _ & Hst & Hex); auto.
  { split; [apply WorkerPool.wp_inv_init|].
    unfold wp_idle; simpl. auto. }
  { intros s0 _. apply WorkerPool.wp_can_move. }
  split; [apply Hinv|]. split; [exact Hc|]. split; [exact Hr|]. split; [exact Ht|].
  split.
  - intros Hs. destruct (Hst Hs) as (H1 & _ & H3). auto.
  - destruct Hex as (sched' & s' & H1 & H2 & H3 & H4 & H5). exists sched', s'. auto.
Qed.

(** Two tasks and no worker: both are sent, the channels are closed, the
    caller leaves with nothing. *)
Definition wp_sched_idle : list WorkerPool.label :=
  [WorkerPool.SpawnProducer; WorkerPool.SpawnCloser; WorkerPool.CloserRun;
   WorkerPool.Produce; WorkerPool.Collect; WorkerPool.Produce; WorkerPool.CloseTasks].

Definition wp_end_idle : WorkerPool.state :=
  WorkerPool.State [] 0 0 [] WorkerPool.PDone
    (Chan.Build [WorkerPool.mkTask 1; WorkerPool.mkTask 2] 2 true)
    (Chan.Build [] 2 true) WorkerPool.CDone [] true None.

Lemma worker_pool_without_workers_witness :
  run (WorkerPool.step WorkerPool.process_src) wp_sched_idle (WorkerPool.init 0 2)
  = Some wp_end_idle /\
  WorkerPool.collected wp_end_idle = [].
Proof.
  split; [reflexivity|].
  exact (proj1 (proj2 (worker_pool_without_workers 2 wp_sched_idle wp_end_idle eq_refl))).
Defined.
(** ** More on [fanIn]: each input keeps its order *)

(** The values of a list of (input index, value) pairs that come from
    input [k], in their order. *)
Definition from_input {V : Type} (k : nat) (tagged : list (nat * V)) : list V :=
  map snd (List.filter (fun p => (fst p =? k)%nat) tagged).

Lemma from_input_snoc {V : Type} (k j : nat) (v : V) (tagged : list (nat * V)) :
  from_input k (tagged ++ [(j, v)])
  = from_input k tagged ++ (if (j =? k)%nat then [v] else []).
Proof.
  unfold from_input. rewrite List.filter_app, map_app. simpl.
  destruct (j =? k)%nat; reflexivity.
Qed.

(** Every value handed to the caller can be given the input it came from,
    so that what came from input [k], followed by what lane [k] still holds,
    is input [k]. *)
Definition fanin_ordered {V : Type} (inputs : list (list V)) (s : FanIn.state) : Prop :=
  exists tagged : list (nat * V),
    map snd tagged = FanIn.merged s /\
    Forall (fun p => (fst p < length inputs)%nat) tagged /\
    forall k ln, FanIn.lanes s !! k = Some ln ->
      inputs !! k = Some (from_input k tagged ++ FanIn.lane_values ln).

Lemma fanin_ordered_lanes {V : Type} (inputs : list (list V)) (s s' : FanIn.state)
    (k : nat) (ln ln' : FanIn.lane) :
  fanin_ordered inputs s ->
  FanIn.lanes s !! k = Some ln ->
  FanIn.lanes s' = <[k := ln']> (FanIn.lanes s) ->
  FanIn.lane_values ln' = FanIn.lane_values ln ->
  FanIn.merged s' = FanIn.merged s ->
  fanin_ordered inputs s'.
Proof.
  intros (tagged & Hm & Hb & Hl) Hk Hls Hv Hmg.
  exists tagged. rewrite Hmg, Hls. split; [exact Hm|]. split; [exact Hb|].
  intros j lj Hj. apply lookup_insert_cases in Hj as [[-> ->]|[Hne Hj]].
  - rewrite Hv. apply Hl, Hk.
  - apply Hl, Hj.
Qed.

Lemma fanin_ordered_same {V : Type} (inputs : list (list V)) (s s' : FanIn.state) :
  fanin_ordered inputs s ->
  FanIn.lanes s' = FanIn.lanes s -> FanIn.merged s' = FanIn.merged s ->
  fanin_ordered inputs s'.
Proof.
  intros (tagged & Hm & Hb & Hl) Hls Hmg.
  exists tagged. rewrite Hmg, Hls. auto.
Qed.

Lemma fanin_ordered_preserved {V : Type} (inputs : list (list V)) :
  preserved FanIn.step
    (fun s : FanIn.state (V := V) => FanIn.inv inputs s /\ fanin_ordered inputs s).
Proof.
  intros l s s' [Hinv Hord] Hstep.
  split; [eapply FanIn.fanin_inv_preserved; eauto|].
  destruct Hinv as [Hp _ Hl _ _ _ _ _].
  unfold FanIn.step in Hstep. rewrite Hp in Hstep.
  destruct l.
  - (* Spawn *)
    destruct (FanIn.closer s); try discriminate.
    destruct (FanIn.lanes s !! FanIn.spawned s) as [ln|] eqn:Hk; [|discriminate].
    inversion Hstep; subst; clear Hstep.
    eapply fanin_ordered_lanes; [exact Hord | exact Hk | reflexivity | | reflexivity].
    destruct (Hl _ _ Hk) as ((_ & Hns) & _). specialize (Hns (le_n _)).
    unfold FanIn.lane_values. simpl. rewrite Hns. reflexivity.
  - (* SpawnCloser *)
    destruct (FanIn.closer s); try discriminate.
    destruct (FanIn.lanes s !! FanIn.spawned s); [discriminate|].
    inversion Hstep; subst; clear Hstep.
    (eapply fanin_ordered_same; [exact Hord | reflexivity | reflexivity]).
  - (* InClose *)
    destruct (FanIn.lanes s !! k) as [[p c f]|] eqn:Hk; [|discriminate].
    destruct p; [|discriminate]. destruct c; [discriminate|].
    inversion Hstep; subst; clear Hstep.
    eapply fanin_ordered_lanes; [exact Hord | exact Hk | reflexivity | reflexivity | reflexivity].
  - (* FwdRecv *)
    destruct (FanIn.lanes s !! k) as [[p c f]|] eqn:Hk; [|discriminate].
    destruct p as [|v rest].
    + destruct c; [|discriminate]. destruct f; try discriminate.
      destruct (FanIn.wg s - 1 <? 0).
      * inversion Hstep; subst; clear Hstep. (eapply fanin_ordered_same; [exact Hord | reflexivity | reflexivity]).
      * inversion Hstep; subst; clear Hstep.
        eapply fanin_ordered_lanes; [exact Hord | exact Hk | reflexivity | reflexivity | reflexivity].
    + destruct f; try discriminate.
      inversion Hstep; subst; clear Hstep.
      eapply fanin_ordered_lanes; [exact Hord | exact Hk | reflexivity | reflexivity | reflexivity].
  - (* Deliver *)
    destruct (FanIn.lanes s !! k) as [[p c f]|] eqn:Hk; [|discriminate].
    destruct f as [| |v|]; try discriminate.
    destruct (FanIn.out_closed s).
    { inversion Hstep; subst; clear Hstep. (eapply fanin_ordered_same; [exact Hord | reflexivity | reflexivity]). }
    destruct (FanIn.closer s); try discriminate;
      (destruct (FanIn.cons_done s); [discriminate|]);
      inversion Hstep; subst; clear Hstep;
      destruct Hord as (tagged & Hm & Hb & Ho);
      exists (tagged ++ [(k, v)]); simpl;
      (split; [rewrite map_app, Hm; reflexivity|]);
      (split; [apply Forall_app; split; [exact Hb|]; constructor; [|constructor];
               simpl; specialize (Ho _ _ Hk); apply lookup_lt_Some in Ho; exact Ho|]);
      intros j lj Hj; rewrite from_input_snoc;
      apply lookup_insert_cases in Hj as [[-> ->]|[Hne Hj]].
    all: try (rewrite Nat.eqb_refl, <- app_assoc; apply (Ho _ _ Hk)).
    all: assert (E : (k =? j)%nat = false) by (apply Nat.eqb_neq; congruence);
      rewrite E, app_nil_r; apply Ho, Hj.
  - (* CloserRun *)
    destruct (FanIn.closer s); try discriminate.
    destruct (FanIn.wg s =? 0); [|discriminate].
    destruct (FanIn.out_closed s); inversion Hstep; subst; clear Hstep;
      (eapply fanin_ordered_same; [exact Hord | reflexivity | reflexivity]).
  - (* ConsExit *)
    destruct (FanIn.closer s); try discriminate;
      (destruct (FanIn.out_closed s && negb (FanIn.cons_done s)); [|discriminate]);
      inversion Hstep; subst; clear Hstep; (eapply fanin_ordered_same; [exact Hord | reflexivity | reflexivity]).
Qed.

Lemma fanin_ordered_init {V : Type} (inputs : list (list V)) :
  fanin_ordered inputs (FanIn.init inputs).
Proof.
  exists []. simpl. split; [reflexivity|]. split; [constructor|].
  intros k ln Hk. rewrite list_lookup_fmap in Hk.
  destruct (inputs !! k) as [vs|]; [|discriminate]. inversion Hk; subst. reflexivity.
Qed.

(** X9 — [fanIn] keeps the order of each input.  Along every schedule, every
    value the caller has received can be given the index of an input so that
    the values given index [k] are, in the order received, a first part of
    input [k]; and when nothing can move any more they are the whole of
    input [k].  (Values of different inputs may come in any order.) *)
Theorem fanin_keeps_input_order {V : Type} (inputs : list (list V))
    (sched : list FanIn.label) (s : FanIn.state) :
  run FanIn.step sched (FanIn.init inputs) = Some s ->
  exists tagged : list (nat * V),
    map snd tagged = FanIn.merged s /\
    Forall (fun p => (fst p < length inputs)%nat) tagged /\
    (forall k vs, inputs !! k = Some vs ->
       exists later, vs = from_input k tagged ++ later) /\
    (stuck FanIn.step s ->
       forall k vs, inputs !! k = Some vs -> from_input k tagged = vs).
Proof.
  intros Hrun.
  destruct (run_invariant _ _ (fanin_ordered_preserved inputs) _ _ _
              (conj (FanIn.fanin_inv_init inputs) (fanin_ordered_init inputs)) Hrun)
    as [Hinv (tagged & Hm & Hb & Ho)].
  assert (Hlanes : length (FanIn.lanes s) = length inputs).
  { apply (run_invariant FanIn.step _ (FanIn.fanin_lanes_length (length inputs))
             sched (FanIn.init inputs) s); [apply length_map | exact Hrun]. }
  exists tagged. split; [exact Hm|]. split; [exact Hb|]. split.
  - intros k vs Hk.
    destruct (lookup_lt_is_Some_2 (FanIn.lanes s) k) as [ln Hln].
    { rewrite Hlanes. eapply lookup_lt_Some; eauto. }
    specialize (Ho _ _ Hln). rewrite Hk in Ho. inversion Ho. eauto.
  - intros Hst k vs Hk.
    destruct (FanIn.fanin_stuck_final inputs s Hinv Hst) as (Hdone & _).
    destruct (lookup_lt_is_Some_2 (FanIn.lanes s) k) as [ln Hln].
    { rewrite Hlanes. eapply lookup_lt_Some; eauto. }
    specialize (Ho _ _ Hln). rewrite Hk in Ho. inversion Ho as [Hvs].
    rewrite Forall_lookup in Hdone. destruct (Hdone _ _ Hln) as (Hf & Hpd & _).
    unfold FanIn.lane_values. rewrite Hf, Hpd, app_nil_r. reflexivity.
Qed.

(** Two inputs, [10] and [20; 21]: the caller receives 20, 10, 21. *)
Lemma fanin_keeps_input_order_witness :
  run FanIn.step fanin_sched_example (FanIn.init [[10]; [20; 21]])
  = Some fanin_end_example /\
  exists tagged : list (nat * Z),
    map snd tagged = [20; 10; 21] /\
    exists later, [20; 21] = from_input 1 tagged ++ later.
Proof.
  split; [reflexivity|].
  destruct (fanin_keeps_input_order [[10]; [20; 21]] fanin_sched_example
              fanin_end_example eq_refl) as (tagged & H1 & _ & H2 & _).
  exists tagged. split; [exact H1|]. apply (H2 1%nat). reflexivity.
Defined.
(** ** A counter behind a mutex: [SafeCounter] and [raceConditionExample]

    [raceConditionExample] starts goroutines (100 in the source), each
    calling [counter.Increment()] in a loop (100 times), waits for them with
    a wait group and prints [counter.Value()].  [Increment] is
    [c.mu.Lock(); defer c.mu.Unlock(); c.value++]; the increment is a read of
    [c.value] followed by a write, two steps of the goroutine.  A goroutine
    at [Lock] waits while the mutex is held. *)

Module SafeCounter.

(** [type SafeCounter struct { mu sync.Mutex; value int }]; [mu] is [true]
    while the mutex is held. *)
Record SafeCounter : Type := Counter { mu : bool; value : Z }.

(** Where a goroutine is inside [Increment]. *)
Inductive inc_pc : Type :=
| ILock            (* at c.mu.Lock() *)
| IRead            (* c.value++: about to read c.value *)
| IWrite (v : Z)   (* c.value++: has read v, about to write v + 1 *)
| IUnlock.         (* the deferred c.mu.Unlock() *)

(** [func() { defer wg.Done(); for j := 0; j < iterations; j++ { counter.Increment() } }] *)
Inductive g_pc : Type :=
| GNotStarted
| GLoop (j : Z)                     (* at the test j < iterations *)
| GIncrement (j : Z) (p : inc_pc)   (* in counter.Increment() of round j *)
| GDone.                            (* returned, wg.Done() executed *)

Inductive main_pc : Type :=
| MSpawn             (* in the loop that starts the goroutines *)
| MWait              (* at wg.Wait() *)
| MLock              (* counter.Value(): at c.mu.Lock() *)
| MRead              (* counter.Value(): about to read c.value *)
| MUnlock (v : Z)    (* counter.Value(): the deferred c.mu.Unlock(), v to return *)
| MPrinted (v : Z).  (* the final count has been printed *)

Inductive fault : Type :=
| UnlockOfUnlockedMutex
| NegativeWaitGroupCounter.

Record state : Type := State {
  counter : SafeCounter;
  goroutines : list g_pc;
  spawned : nat;          (* goroutines started so far *)
  wg : Z;
  mainpc : main_pc;
  failed : option fault
}.

Inductive label : Type :=
| Main            (* the next step of raceConditionExample itself *)
| Go (k : nat).   (* the next step of goroutine k *)

Definition init (numGoroutines : nat) : state :=
  State (Counter false 0) (replicate numGoroutines GNotStarted) 0 0 MSpawn None.

Definition set_failed (s : state) (f : fault) : state :=
  State (counter s) (goroutines s) (spawned s) (wg s) (mainpc s) (Some f).

Definition set_goroutine (s : state) (k : nat) (c : SafeCounter) (pc : g_pc) : state :=
  State c (<[k := pc]> (goroutines s)) (spawned s) (wg s) (mainpc s) None.

Definition set_main (s : state) (c : SafeCounter) (m : main_pc) : state :=
  State c (goroutines s) (spawned s) (wg s) m None.

Section Model.
Variable iterations : Z.

Definition step_main (s : state) : option state :=
  match mainpc s with
  | MSpawn =>
      match goroutines s !! spawned s with
      | Some _ =>   (* wg.Add(1); go func() {...}() *)
          Some (State (counter s) (<[spawned s := GLoop 0]> (goroutines s))
                  (S (spawned s)) (wg s + 1) MSpawn None)
      | None => Some (set_main s (counter s) MWait)
      end
  | MWait => if wg s =? 0 then Some (set_main s (counter s) MLock) else None
  | MLock =>
      if mu (counter s) then None
      else Some (set_main s (Counter true (value (counter s))) MRead)
  | MRead => Some (set_main s (counter s) (MUnlock (value (counter s))))
  | MUnlock v =>
      if mu (counter s)
      then Some (set_main s (Counter false (value (counter s))) (MPrinted v))
      else Some (set_failed s UnlockOfUnlockedMutex)
  | MPrinted _ => None
  end.

Definition step_go (k : nat) (s : state) : option state :=
  match goroutines s !! k with
  | Some (GLoop j) =>
      if j <? iterations then Some (set_goroutine s k (counter s) (GIncrement j ILock))
      else (* the loop ends; the deferred wg.Done() runs *)
        if wg s - 1 <? 0 then Some (set_failed s NegativeWaitGroupCounter)
        else Some (State (counter s) (<[k := GDone]> (goroutines s)) (spawned s)
                     (wg s - 1) (mainpc s) None)
  | Some (GIncrement j ILock) =>
      if mu (counter s) then None
      else Some (set_goroutine s k (Counter true (value (counter s))) (GIncrement j IRead))
  | Some (GIncrement j IRead) =>
      Some (set_goroutine s k (counter s) (GIncrement j (IWrite (value (counter s)))))
  | Some (GIncrement j (IWrite v)) =>
      Some (set_goroutine s k (Counter (mu (counter s)) (GoInt.add v 1))
              (GIncrement j IUnlock))
  | Some (GIncrement j IUnlock) =>
      if mu (counter s)
      then Some (set_goroutine s k (Counter false (value (counter s)))
                   (GLoop (GoInt.add j 1)))
      else Some (set_failed s UnlockOfUnlockedMutex)
  | _ => None
  end.

Definition step (l : label) (s : state) : option state :=
  match failed s with
  | Some _ => None
  | None => match l with Main => step_main s | Go k => step_go k s end
  end.

(** *** Invariant and measure *)

(** Increments a goroutine has completed. *)
Definition completed (pc : g_pc) : Z :=
  match pc with
  | GNotStarted => 0
  | GLoop j => j
  | GIncrement j IUnlock => j + 1
  | GIncrement j _ => j
  | GDone => Z.max 0 iterations
  end.

(** Whether a goroutine holds the mutex. *)
Definition holds (pc : g_pc) : nat :=
  match pc with
  | GIncrement _ ILock => 0
  | GIncrement _ _ => 1
  | _ => 0
  end.

Definition main_holds (m : main_pc) : nat :=
  match m with MRead | MUnlock _ => 1 | _ => 0 end.

Definition active (pc : g_pc) : nat :=
  match pc with GLoop _ | GIncrement _ _ => 1 | _ => 0 end.

Definition pc_ok (c : SafeCounter) (pc : g_pc) : Prop :=
  match pc with
  | GLoop j => 0 <= j <= Z.max 0 iterations
  | GIncrement j p =>
      0 <= j < iterations /\ match p with IWrite v => v = value c | _ => True end
  | _ => True
  end.

Definition main_ok (s : state) : Prop :=
  match mainpc s with
  | MSpawn => True
  | MWait => spawned s = length (goroutines s)
  | MLock | MRead => Forall (fun pc => pc = GDone) (goroutines s)
  | MUnlock v | MPrinted v =>
      Forall (fun pc => pc = GDone) (goroutines s) /\ v = value (counter s)
  end.

Record inv (numGoroutines : nat) (s : state) : Prop := Inv {
  inv_failed : failed s = None;
  inv_len : length (goroutines s) = numGoroutines;
  inv_spawned : (spawned s <= numGoroutines)%nat;
  inv_started : forall k pc, goroutines s !! k = Some pc ->
                  (pc = GNotStarted <-> (spawned s <= k)%nat);
  inv_pc : forall k pc, goroutines s !! k = Some pc -> pc_ok (counter s) pc;
  inv_value : value (counter s)
              = GoInt.wrap (Parallel.sumZ (map completed (goroutines s)));
  inv_mutex : (if mu (counter s) then 1 else 0)%nat
              = (sum_list (map holds (goroutines s)) + main_holds (mainpc s))%nat;
  inv_wg : wg s = Z.of_nat (sum_list (map active (goroutines s)));
  inv_main : main_ok s
}.

Definition inc_measure (p : inc_pc) : nat :=
  match p with ILock => 5 | IRead => 4 | IWrite _ => 3 | IUnlock => 2 end.

Definition g_measure (pc : g_pc) : nat :=
  match pc with
  | GNotStarted => 5 * Z.to_nat iterations + 2
  | GLoop j => 5 * Z.to_nat (iterations - j) + 1
  | GIncrement j p => 5 * Z.to_nat (iterations - j - 1) + inc_measure p
  | GDone => 0
  end.

Definition measure (s : state) : nat :=
  sum_list (map g_measure (goroutines s))
  + match mainpc s with
    | MSpawn => 5 | MWait => 4 | MLock => 3 | MRead => 2 | MUnlock _ => 1
    | MPrinted _ => 0
    end.
End Model.


(** *** Proofs *)

Section Proofs.
Variable iterations : Z.
Variable numGoroutines : nat.
Hypothesis iterations_int : iterations <= GoInt.max_int.

Lemma sumZ_replicate {B : Type} (f : B -> Z) (n : nat) (x : B) :
  f x = 0 -> Parallel.sumZ (map f (replicate n x)) = 0.
Proof. intros H. induction n as [|n IH]; simpl; [reflexivity | lia]. Qed.

Lemma sum_list_replicate {B : Type} (f : B -> nat) (n : nat) (x : B) :
  f x = 0%nat -> sum_list (map f (replicate n x)) = 0%nat.
Proof. intros H. induction n as [|n IH]; simpl; [reflexivity | lia]. Qed.

Lemma sumZ_all_done (gs : list g_pc) :
  Forall (fun pc => pc = GDone) gs ->
  Parallel.sumZ (map (completed iterations) gs)
  = Z.of_nat (length gs) * Z.max 0 iterations /\
  sum_list (map holds gs) = 0%nat.
Proof.
  induction 1 as [|pc gs -> _ [IH1 IH2]]; [split; reflexivity|].
  simpl length. simpl. rewrite IH1, IH2. split; lia.
Qed.

Lemma sc_inv_init : inv iterations numGoroutines (init numGoroutines).
Proof.
  split; simpl; try done.
  - apply length_replicate.
  - lia.
  - intros k pc Hk. apply lookup_replicate in Hk as [-> _]. split; [lia | done].
  - intros k pc Hk. apply lookup_replicate in Hk as [-> _]. exact I.
  - rewrite sumZ_replicate by reflexivity. reflexivity.
  - rewrite sum_list_replicate by reflexivity. reflexivity.
  - rewrite sum_list_replicate by reflexivity. reflexivity.
Qed.

Lemma pc_ok_value (c c' : SafeCounter) (pc : g_pc) :
  value c' = value c -> pc_ok iterations c pc -> pc_ok iterations c' pc.
Proof. intros E. destruct pc as [|j|j []|]; simpl; rewrite ?E; auto. Qed.

(** While a goroutine is still running, the caller is starting goroutines
    or waiting for them. *)
Lemma main_before_wait (s : state) (k : nat) (pc : g_pc) :
  main_ok s -> goroutines s !! k = Some pc -> pc <> GDone ->
  mainpc s = MSpawn \/ mainpc s = MWait.
Proof.
  unfold main_ok. intros Hm Hk Hne.
  destruct (mainpc s); auto; exfalso; apply Hne;
    [ | | destruct Hm as [Hm _] | destruct Hm as [Hm _]];
    rewrite Forall_lookup in Hm; apply (Hm _ _ Hk).
Qed.

Definition mutex_count (c : SafeCounter) : nat := if mu c then 1%nat else 0%nat.

(** A step of the caller that leaves the goroutines alone. *)
Lemma sc_inv_set_main (s : state) (c' : SafeCounter) (m' : main_pc) :
  inv iterations numGoroutines s ->
  value c' = value (counter s) ->
  (mutex_count c' + main_holds (mainpc s)
   = mutex_count (counter s) + main_holds m')%nat ->
  main_ok (set_main s c' m') ->
  inv iterations numGoroutines (set_main s c' m').
Proof.
  intros [Hf Hlen Hsp Hst Hpc Hval Hmu Hwg Hmain] Hv Hm Hok.
  split; simpl; [reflexivity | exact Hlen | exact Hsp | exact Hst | | | | exact Hwg | exact Hok].
  - intros k pc Hk. eapply pc_ok_value; [exact Hv | eapply Hpc; eauto].
  - rewrite Hv. exact Hval.
  - unfold mutex_count in Hm. lia.
Qed.

(** A step of goroutine [k] that stays inside its loop. *)
Lemma sc_inv_set_goroutine (s : state) (k : nat) (pc pc' : g_pc) (c' : SafeCounter) :
  inv iterations numGoroutines s ->
  goroutines s !! k = Some pc ->
  active pc = 1%nat -> active pc' = 1%nat ->
  pc_ok iterations c' pc' ->
  (forall i pci, i <> k -> goroutines s !! i = Some pci -> pc_ok iterations c' pci) ->
  value c' = GoInt.wrap (value (counter s) + completed iterations pc'
                         - completed iterations pc) ->
  (mutex_count c' + holds pc = mutex_count (counter s) + holds pc')%nat ->
  inv iterations numGoroutines (set_goroutine s k c' pc').
Proof.
  intros [Hf Hlen Hsp Hst Hpc Hval Hmu Hwg Hmain] Hk Ha Ha' Hok Hoth Hv Hm.
  assert (Hne : pc <> GDone) by (intros ->; discriminate).
  split; simpl.
  - reflexivity.
  - rewrite length_insert. exact Hlen.
  - exact Hsp.
  - intros i pci Hi. apply lookup_insert_cases in Hi as [[-> ->]|[Hn Hi]]; [|apply Hst, Hi].
    pose proof (Hst _ _ Hk) as Hx.
    split; [intros ->; discriminate|]. intros Hy. apply Hx in Hy. subst pc. discriminate.
  - intros i pci Hi. apply lookup_insert_cases in Hi as [[-> ->]|[Hn Hi]]; eauto.
  - rewrite Hv, Hval, (Parallel.sumZ_insert _ _ _ _ pc' Hk).
    rewrite <- Z.add_sub_assoc, GoInt.wrap_add_l. f_equal. lia.
  - pose proof (sum_list_insert holds _ _ _ pc' Hk) as Hx.
    unfold mutex_count in Hm.
    destruct (main_before_wait s k pc Hmain Hk Hne) as [E | E]; rewrite E in *;
      simpl in *; lia.
  - pose proof (sum_list_insert active _ _ _ pc' Hk) as Hx. lia.
  - unfold main_ok in *; simpl.
    destruct (main_before_wait s k pc Hmain Hk Hne) as [E | E]; rewrite E in *;
      simpl; [exact I | rewrite length_insert; exact Hmain].
Qed.

Lemma sc_inv_preserved : preserved (step iterations) (inv iterations numGoroutines).
Proof.
  intros l s s' Hinv Hstep.
  pose proof Hinv as [Hf Hlen Hsp Hst Hpc Hval Hmu Hwg Hmain].
  unfold step in Hstep. rewrite Hf in Hstep.
  destruct l as [|k].
  - (* Main *)
    unfold step_main in Hstep. unfold main_ok in Hmain.
    destruct (mainpc s) as [| | | |r|r] eqn:Hmp.
    + destruct (goroutines s !! spawned s) as [pc|] eqn:Hk.
      * inversion Hstep; subst s'; clear Hstep.
        assert (pc = GNotStarted) as -> by (apply (Hst _ _ Hk); lia).
        pose proof (lookup_lt_Some _ _ _ Hk) as Hlt.
        split; simpl.
        -- reflexivity.
        -- rewrite length_insert. exact Hlen.
        -- lia.
        -- intros j pc Hj. apply lookup_insert_cases in Hj as [[-> ->]|[Hne Hj]].
           ++ split; [discriminate | lia].
           ++ specialize (Hst _ _ Hj).
              split; intros Hx; [apply Hst in Hx; lia | apply Hst; lia].
        -- intros j pc Hj. apply lookup_insert_cases in Hj as [[-> ->]|[Hne Hj]];
             [simpl; lia | eauto].
        -- rewrite (Parallel.sumZ_insert _ _ _ _ (GLoop 0) Hk). simpl.
           rewrite Hval. f_equal. lia.
        -- pose proof (sum_list_insert holds _ _ _ (GLoop 0) Hk) as Hx.
           simpl in *. lia.
        -- pose proof (sum_list_insert active _ _ _ (GLoop 0) Hk) as Hx.
           simpl in Hx. lia.
        -- exact I.
      * inversion Hstep; subst s'; clear Hstep.
        apply lookup_ge_None in Hk.
        apply sc_inv_set_main; auto; [rewrite Hmp; reflexivity|].
        unfold main_ok; simpl. lia.
    + destruct (wg s =? 0) eqn:Hw; [|discriminate]. apply Z.eqb_eq in Hw.
      inversion Hstep; subst s'; clear Hstep.
      apply sc_inv_set_main; auto; [rewrite Hmp; reflexivity|].
      unfold main_ok; simpl.
      apply Forall_lookup_2. intros j pc Hj.
      pose proof (sum_list_zero_lookup active (goroutines s) j pc ltac:(lia) Hj) as Ha.
      pose proof (lookup_lt_Some _ _ _ Hj) as Hlt.
      destruct pc; simpl in Ha; try discriminate; [|reflexivity].
      destruct (Hst _ _ Hj) as [Hx _]. specialize (Hx eq_refl). lia.
    + destruct (mu (counter s)) eqn:Hm; [discriminate|].
      inversion Hstep; subst s'; clear Hstep.
      apply sc_inv_set_main; auto.
      unfold mutex_count. rewrite Hm, Hmp. reflexivity.
    + inversion Hstep; subst s'; clear Hstep.
      apply sc_inv_set_main; auto; [rewrite Hmp; reflexivity|].
      unfold main_ok; simpl. auto.
    + destruct Hmain as [Hd ->]. simpl in Hmu.
      destruct (mu (counter s)) eqn:Hm; [|lia].
      inversion Hstep; subst s'; clear Hstep.
      apply sc_inv_set_main; auto.
      * unfold mutex_count. rewrite Hm, Hmp. reflexivity.
      * unfold main_ok; simpl. auto.
    + discriminate.
  - (* Go k *)
    unfold step_go in Hstep.
    destruct (goroutines s !! k) as [pc|] eqn:Hk; [|discriminate].
    pose proof (Hpc _ _ Hk) as Hok.
    assert (Hvr : GoInt.wrap (value (counter s)) = value (counter s))
      by (rewrite Hval; apply GoInt.wrap_wrap).
    destruct pc as [|j|j p|]; try discriminate.
    + (* the loop test *)
      simpl in Hok.
      destruct (j <? iterations) eqn:Hj.
      * apply Z.ltb_lt in Hj.
        inversion Hstep; subst s'; clear Hstep.
        apply (sc_inv_set_goroutine s k (GLoop j)); auto.
        -- simpl. lia.
        -- intros i pci _ Hi. eauto.
        -- simpl. rewrite <- Hvr at 1. f_equal. lia.
      * apply Z.ltb_ge in Hj.
        pose proof (sum_list_insert active _ _ _ GDone Hk) as Ha. simpl in Ha.
        destruct (wg s - 1 <? 0) eqn:Hneg; [apply Z.ltb_lt in Hneg; lia|].
        inversion Hstep; subst s'; clear Hstep.
        assert (Hne : GLoop j <> GDone) by discriminate.
        split; simpl.
        -- reflexivity.
        -- rewrite length_insert. exact Hlen.
        -- exact Hsp.
        -- intros i pci Hi. apply lookup_insert_cases in Hi as [[-> ->]|[Hn Hi]];
             [|apply Hst, Hi].
           pose proof (Hst _ _ Hk) as Hx.
           split; [discriminate|]. intros Hy. apply Hx in Hy. discriminate.
        -- intros i pci Hi. apply lookup_insert_cases in Hi as [[-> ->]|[Hn Hi]];
             [exact I | eauto].
        -- rewrite (Parallel.sumZ_insert _ _ _ _ GDone Hk). simpl.
           rewrite Hval. f_equal. lia.
        -- pose proof (sum_list_insert holds _ _ _ GDone Hk) as Hx. simpl in Hx. lia.
        -- lia.
        -- unfold main_ok in *; simpl.
           destruct (main_before_wait s k _ Hmain Hk Hne) as [E | E]; rewrite E in *;
             simpl; [exact I | rewrite length_insert; exact Hmain].
    + (* inside Increment *)
      destruct Hok as [Hj Hw].
      destruct p as [| |r|].
      * (* Lock *)
        destruct (mu (counter s)) eqn:Hm; [discriminate|].
        inversion Hstep; subst s'; clear Hstep.
        apply (sc_inv_set_goroutine s k (GIncrement j ILock)); auto.
        -- simpl. auto.
        -- intros i pci _ Hi. eapply pc_ok_value; [|eapply Hpc; eauto]. reflexivity.
        -- simpl. rewrite <- Hvr at 1. f_equal. lia.
        -- unfold mutex_count. rewrite Hm. reflexivity.
      * (* read *)
        inversion Hstep; subst s'; clear Hstep.
        apply (sc_inv_set_goroutine s k (GIncrement j IRead)); auto.
        -- simpl. auto.
        -- intros i pci _ Hi. eauto.
        -- simpl. rewrite <- Hvr at 1. f_equal. lia.
      * (* write *)
        subst r.
        inversion Hstep; subst s'; clear Hstep.
        assert (Hone : (sum_list (map holds (goroutines s)) <= 1)%nat)
          by (destruct (mu (counter s)); lia).
        apply (sc_inv_set_goroutine s k (GIncrement j (IWrite (value (counter s))))); auto.
        -- simpl. auto.
        -- intros i pci Hne Hi.
           pose proof (sum_list_unique holds (goroutines s) k i _ pci Hone Hk Hi ltac:(congruence)
                         ltac:(simpl; lia)) as Hz.
           pose proof (Hpc _ _ Hi) as Hoki.
           destruct pci as [|j'|j' []|]; simpl in *; auto; discriminate.
        -- simpl. unfold GoInt.add. f_equal. lia.
      * (* Unlock *)
        pose proof (sum_list_insert holds _ _ _ (GLoop (GoInt.add j 1)) Hk) as Hx.
        simpl in Hx.
        destruct (mu (counter s)) eqn:Hm; [|lia].
        inversion Hstep; subst s'; clear Hstep.
        assert (Hadd : GoInt.add j 1 = j + 1).
        { apply GoInt.wrap_small.
          unfold GoInt.in_range, GoInt.min_int, GoInt.max_int in *. lia. }
        rewrite Hadd.
        apply (sc_inv_set_goroutine s k (GIncrement j IUnlock)); auto.
        -- simpl. lia.
        -- intros i pci _ Hi. eapply pc_ok_value; [|eapply Hpc; eauto]. reflexivity.
        -- simpl. rewrite <- Hvr at 1. f_equal. lia.
        -- unfold mutex_count. rewrite Hm. reflexivity.
Qed.

Lemma sc_measure_decreasing :
  decreasing (step iterations) (inv iterations numGoroutines) (measure iterations).
Proof.
  intros l s s' [Hf Hlen Hsp Hst Hpc Hval Hmu Hwg Hmain] Hstep.
  unfold step in Hstep. rewrite Hf in Hstep. unfold measure.
  destruct l as [|k].
  - unfold step_main in Hstep.
    destruct (mainpc s) as [| | | |r|r] eqn:Hmp.
    + destruct (goroutines s !! spawned s) as [pc|] eqn:Hk.
      * inversion Hstep; subst s'; clear Hstep. simpl.
        assert (pc = GNotStarted) as -> by (apply (Hst _ _ Hk); lia).
        pose proof (sum_list_insert (g_measure iterations) _ _ _ (GLoop 0) Hk) as Hx.
        simpl in Hx. rewrite Z.sub_0_r in Hx. lia.
      * inversion Hstep; subst s'; clear Hstep. simpl. lia.
    + destruct (wg s =? 0); [|discriminate].
      inversion Hstep; subst s'; clear Hstep. simpl. lia.
    + destruct (mu (counter s)); [discriminate|].
      inversion Hstep; subst s'; clear Hstep. simpl. lia.
    + inversion Hstep; subst s'; clear Hstep. simpl. lia.
    + simpl in Hmu. destruct (mu (counter s)); [|lia].
      inversion Hstep; subst s'; clear Hstep. simpl. lia.
    + discriminate.
  - unfold step_go in Hstep.
    destruct (goroutines s !! k) as [pc|] eqn:Hk; [|discriminate].
    pose proof (Hpc _ _ Hk) as Hok.
    destruct pc as [|j|j p|]; try discriminate; simpl in Hok.
    + destruct (j <? iterations) eqn:Hj.
      * apply Z.ltb_lt in Hj.
        inversion Hstep; subst s'; clear Hstep. simpl.
        pose proof (sum_list_insert (g_measure iterations) _ _ _
                      (GIncrement j ILock) Hk) as Hx.
        simpl in Hx.
        replace (Z.to_nat (iterations - j)) with (S (Z.to_nat (iterations - j - 1)))
          in Hx by lia.
        lia.
      * pose proof (sum_list_insert active _ _ _ GDone Hk) as Ha. simpl in Ha.
        destruct (wg s - 1 <? 0) eqn:Hneg; [apply Z.ltb_lt in Hneg; lia|].
        inversion Hstep; subst s'; clear Hstep. simpl.
        pose proof (sum_list_insert (g_measure iterations) _ _ _ GDone Hk) as Hx.
        simpl in Hx. lia.
    + destruct Hok as [Hj Hw].
      destruct p as [| |r|].
      * destruct (mu (counter s)); [discriminate|].
        inversion Hstep; subst s'; clear Hstep. simpl.
        pose proof (sum_list_insert (g_measure iterations) _ _ _
                      (GIncrement j IRead) Hk) as Hx.
        simpl in Hx. lia.
      * inversion Hstep; subst s'; clear Hstep. simpl.
        pose proof (sum_list_insert (g_measure iterations) _ _ _
                      (GIncrement j (IWrite (value (counter s)))) Hk) as Hx.
        simpl in Hx. lia.
      * inversion Hstep; subst s'; clear Hstep. simpl.
        pose proof (sum_list_insert (g_measure iterations) _ _ _
                      (GIncrement j IUnlock) Hk) as Hx.
        simpl in Hx. lia.
      * pose proof (sum_list_insert holds _ _ _ GDone Hk) as Hh. simpl in Hh.
        destruct (mu (counter s)); [|lia].
        inversion Hstep; subst s'; clear Hstep. simpl.
        assert (Hadd : GoInt.add j 1 = j + 1).
        { apply GoInt.wrap_small.
          unfold GoInt.in_range, GoInt.min_int, GoInt.max_int in *. lia. }
        rewrite Hadd.
        pose proof (sum_list_insert (g_measure iterations) _ _ _
                      (GLoop (j + 1)) Hk) as Hx.
        simpl in Hx.
        replace (iterations - (j + 1)) with (iterations - j - 1) in Hx by lia.
        lia.
Qed.

(** The final count: every goroutine has added [iterations] (none when
    that is negative), reduced to 64 bits. *)
Definition expected_count : Z :=
  GoInt.wrap (Z.of_nat numGoroutines * Z.max 0 iterations).

Definition final (s : state) : Prop :=
  mainpc s = MPrinted expected_count /\ value (counter s) = expected_count /\
  mu (counter s) = false /\ Forall (fun pc => pc = GDone) (goroutines s).

Lemma sc_stuck_final (s : state) :
  inv iterations numGoroutines s -> stuck (step iterations) s -> final s.
Proof.
  intros [Hf Hlen Hsp Hst Hpc Hval Hmu Hwg Hmain] Hstuck.
  assert (Hstep : forall l, step iterations l s = None) by exact Hstuck. clear Hstuck.
  unfold step in Hstep. rewrite Hf in Hstep.
  pose proof (Hstep Main) as HM. unfold step_main in HM. unfold main_ok in Hmain.
  assert (Hgo : forall k pc, goroutines s !! k = Some pc -> holds pc = 0%nat).
  { intros k pc Hk. pose proof (Hstep (Go k)) as HG. unfold step_go in HG.
    rewrite Hk in HG. destruct pc as [|j|j [| |r|]|]; simpl; auto; try discriminate.
    destruct (mu (counter s)); discriminate. }
  assert (Hnone : sum_list (map holds (goroutines s)) = 0%nat).
  { destruct (sum_list (map holds (goroutines s))) eqn:E; [reflexivity|].
    destruct (sum_list_pos_lookup holds (goroutines s)) as (k & pc & Hk & Hx); [lia|].
    specialize (Hgo _ _ Hk). lia. }
  destruct (mainpc s) as [| | | |r|r] eqn:Hmp; simpl in *.
  - destruct (goroutines s !! spawned s); discriminate.
  - exfalso. destruct (wg s =? 0) eqn:Hw; [discriminate|]. apply Z.eqb_neq in Hw.
    destruct (sum_list_pos_lookup active (goroutines s)) as (k & pc & Hk & Hx); [lia|].
    pose proof (Hstep (Go k)) as HG. unfold step_go in HG. rewrite Hk in HG.
    specialize (Hgo _ _ Hk).
    destruct pc as [|j|j [| |r|]|]; simpl in *; try discriminate; try lia.
    + destruct (j <? iterations); [discriminate|].
      destruct (wg s - 1 <? 0); discriminate.
    + destruct (mu (counter s)); [lia | discriminate].
  - destruct (mu (counter s)); [lia | discriminate].
  - discriminate.
  - destruct (mu (counter s)); discriminate.
  - destruct Hmain as [Hd ->].
    destruct (sumZ_all_done _ Hd) as [Hsum _].
    unfold final, expected_count. rewrite Hmp, Hval, Hsum, Hlen.
    split; [reflexivity|]. split; [reflexivity|]. split; [|exact Hd].
    destruct (mu (counter s)); [lia | reflexivity].
Qed.

Definition labels_of (s : state) : list label :=
  Main :: map Go (seq 0 (length (goroutines s))).

Lemma sc_can_move (s : state) :
  stuck (step iterations) s \/ exists l s', step iterations l s = Some s'.
Proof.
  apply (stuck_or_move (step iterations) (labels_of s)).
  intros l s' Hstep. unfold labels_of.
  unfold step in Hstep. destruct (failed s); [discriminate|].
  destruct l as [|k]; [left; reflexivity|].
  right. apply in_map, in_seq. unfold step_go in Hstep.
  destruct (goroutines s !! k) eqn:Hk; [|discriminate].
  apply lookup_lt_Some in Hk. lia.
Qed.
End Proofs.

(** [raceConditionExample]: 100 goroutines of 100 increments. *)
Definition raceConditionExample : state := init 100.
Definition race_step : label -> state -> option state := step 100.
End SafeCounter.

(** X10 — [Increment] and [Value] exclude each other.  Along every schedule of
    [raceConditionExample] (any number of goroutines and of rounds): no
    [Unlock] finds the mutex unlocked and the wait group never goes
    negative; the mutex is held exactly when one party is between its [Lock]
    and its [Unlock], so at most one is; a goroutine about to write
    [c.value] has read the value the counter still has (no update is lost);
    and the counter is the number of completed increments, reduced to 64
    bits. *)
Theorem safe_counter_mutual_exclusion (numGoroutines : nat) (iterations : Z)
    (sched : list SafeCounter.label) (s : SafeCounter.state) :
  iterations <= GoInt.max_int ->
  run (SafeCounter.step iterations) sched (SafeCounter.init numGoroutines) = Some s ->
  SafeCounter.failed s = None /\
  (sum_list (map SafeCounter.holds (SafeCounter.goroutines s))
   + SafeCounter.main_holds (SafeCounter.mainpc s)
   = if SafeCounter.mu (SafeCounter.counter s) then 1 else 0)%nat /\
  (forall k j v,
     SafeCounter.goroutines s !! k
     = Some (SafeCounter.GIncrement j (SafeCounter.IWrite v)) ->
     v = SafeCounter.value (SafeCounter.counter s)) /\
  SafeCounter.value (SafeCounter.counter s)
  = GoInt.wrap (Parallel.sumZ (map (SafeCounter.completed iterations)
                                 (SafeCounter.goroutines s))).
Proof.
  intros Hit Hrun.
  pose proof (run_invariant _ _
                (SafeCounter.sc_inv_preserved iterations numGoroutines Hit) _ _ _
                (SafeCounter.sc_inv_init iterations numGoroutines) Hrun)
    as [Hf Hlen Hsp Hst Hpc Hval Hmu Hwg Hmain].
  split; [exact Hf|]. split; [symmetry; exact Hmu|]. split; [|exact Hval].
  intros k j v Hk. destruct (Hpc _ _ Hk) as [_ Hv]. exact Hv.
Qed.

(** Two goroutines: the first holds the mutex and has read the counter, the
    second is at [Lock] and cannot move. *)
Definition sc_sched_contend : list SafeCounter.label :=
  [SafeCounter.Main; SafeCounter.Main; SafeCounter.Go 0; SafeCounter.Go 0;
   SafeCounter.Go 1; SafeCounter.Go 0].

Definition sc_state_contend : SafeCounter.state :=
  SafeCounter.State (SafeCounter.Counter true 0)
    [SafeCounter.GIncrement 0 (SafeCounter.IWrite 0);
     SafeCounter.GIncrement 0 SafeCounter.ILock]
    2 2 SafeCounter.MSpawn None.

Lemma safe_counter_mutual_exclusion_witness :
  run SafeCounter.race_step sc_sched_contend (SafeCounter.init 2)
  = Some sc_state_contend /\
  SafeCounter.race_step (SafeCounter.Go 1) sc_state_contend = None /\
  SafeCounter.failed sc_state_contend = None.
Proof.
  split; [reflexivity|]. split; [reflexivity|].
  refine (proj1 (safe_counter_mutual_exclusion 2 100 sc_sched_contend
                   sc_state_contend _ eq_refl)).
  unfold GoInt.max_int. lia.
Defined.

(** X11 — [raceConditionExample] prints the full count.  For every number of
    goroutines and of rounds, along every schedule: the run is no longer
    than the initial measure; when nothing can move any more the caller has
    printed [numGoroutines * iterations] (reduced to 64 bits; nothing for a
    negative number of rounds), which is the counter's value, every
    goroutine has returned and the mutex is free; and every reachable state
    can be run on to that end. *)
Theorem race_condition_example_counts_all (numGoroutines : nat) (iterations : Z)
    (sched : list SafeCounter.label) (s : SafeCounter.state) :
  iterations <= GoInt.max_int ->
  run (SafeCounter.step iterations) sched (SafeCounter.init numGoroutines) = Some s ->
  let count := GoInt.wrap (Z.of_nat numGoroutines * Z.max 0 iterations) in
  (length sched <= SafeCounter.measure iterations (SafeCounter.init numGoroutines))%nat /\
  (stuck (SafeCounter.step iterations) s ->
     SafeCounter.mainpc s = SafeCounter.MPrinted count /\
     SafeCounter.value (SafeCounter.counter s) = count /\
     SafeCounter.mu (SafeCounter.counter s) = false /\
     Forall (fun pc => pc = SafeCounter.GDone) (SafeCounter.goroutines s)) /\
  (exists sched' s',
      run (SafeCounter.step iterations) sched' s = Some s' /\
      stuck (SafeCounter.step iterations) s' /\
      SafeCounter.mainpc s' = SafeCounter.MPrinted count /\
      SafeCounter.value (SafeCounter.counter s') = count).
Proof.
  intros Hit Hrun count.
  destruct (run_total (SafeCounter.step iterations)
              (SafeCounter.inv iterations numGoroutines)
              (SafeCounter.final iterations numGoroutines)
              (SafeCounter.measure iterations) (SafeCounter.init numGoroutines)
              (SafeCounter.sc_inv_init iterations numGoroutines)
              (SafeCounter.sc_inv_preserved iterations numGoroutines Hit)
              (SafeCounter.sc_measure_decreasing iterations numGoroutines Hit)
              (fun s0 _ => SafeCounter.sc_can_move iterations s0)
              (SafeCounter.sc_stuck_final iterations numGoroutines) sched s Hrun)
    as (Hinv & Hlen & Hst & Hex).
  split; [lia|]. split; [exact Hst|].
  destruct Hex as (sched' & s' & H1 & H2 & H3 & H4 & _). exists sched', s'. auto.
Qed.

(** The constants of the source: 100 goroutines of 100 rounds end with
    10000 printed. *)
Lemma race_condition_example_counts_all_witness :
  exists sched s,
    run SafeCounter.race_step sched SafeCounter.raceConditionExample = Some s /\
    stuck SafeCounter.race_step s /\
    SafeCounter.mainpc s = SafeCounter.MPrinted 10000.
Proof.
  assert (H : 100 <= GoInt.max_int) by (unfold GoInt.max_int; lia).
  destruct (race_condition_example_counts_all 100 100 []
              SafeCounter.raceConditionExample H eq_refl)
    as (_ & _ & sched & s & H1 & H2 & H3 & _).
  exists sched, s. split; [exact H1|]. split; [exact H2 | exact H3].
Defined.
(** ** Producers and consumers: [producerConsumerExample]

    [producerConsumerExample] makes two buffered channels, [jobs] and
    [results], starts the producers and the consumers (each after a
    [wg.Add(1)]) and a goroutine that waits for the wait group and closes
    [results]; then it ranges over [results].  A producer sends [count] job
    numbers on [jobs] and returns; a consumer ranges over [jobs], draws a
    processing time and sends a line of text on [results].  Nothing closes
    [jobs].  The source has [bufferSize = 5], two producers, three
    consumers and [count = 20 / 2]; they are parameters here, with
    [bufferSize >= 1] (buffered channels).  [time.Sleep] and printing only
    take time and are left out; the number drawn by [rand.Intn(1000)] comes
    with the step that draws it. *)

Module ProducerConsumer.

(** [job := id*1000 + i] *)
Definition job_id (id i : Z) : Z := GoInt.add (GoInt.mul id 1000) i.

(** [%v] of a [time.Duration] of [ms] milliseconds, for [0 <= ms < 1000]. *)
Definition duration_string (ms : Z) : string :=
  if ms =? 0 then "0s"%string else (WorkerPool.itoa ms ++ "ms")%string.

(** [fmt.Sprintf("Consumer %d 完成 job %d (用时 %v)", id, job, processingTime)] *)
Definition sprintf_result (id job ms : Z) : string :=
  ("Consumer " ++ WorkerPool.itoa id ++ " 完成 job " ++ WorkerPool.itoa job
   ++ " (用时 " ++ duration_string ms ++ ")")%string.

(** [for i := 0; i < count; i++ { job := id*1000 + i; jobs <- job }] *)
Inductive producer_pc : Type :=
| PNotStarted
| PRun (todo : list Z)   (* in the loop, the rounds [i] of [todo] still to go *)
| PDone.                 (* returned, wg.Done() executed *)

(** [for job := range jobs { ...; results <- result }] *)
Inductive consumer_pc : Type :=
| CNotStarted
| CRecv                    (* at the receive of range jobs *)
| CHold (job : Z) (ms : Z) (* has a job and its processing time *)
| CDone.                   (* returned, wg.Done() executed *)

Inductive closer_pc : Type := KNotStarted | KWait | KDone.

Record producer : Type := Producer { pid : Z; ppc : producer_pc }.
Record consumer : Type := Consumer { cid : Z; cpc : consumer_pc }.

Record state : Type := State {
  producers : list producer;
  consumers : list consumer;
  spawnedP : nat;             (* producers started so far *)
  spawnedC : nat;             (* consumers started so far *)
  wg : Z;
  jobs : Chan.chan Z;
  results : Chan.chan string;
  closer : closer_pc;
  collected : list string;    (* lines received by producerConsumerExample *)
  main_done : bool;           (* its range over results has ended *)
  panic : option panic_kind
}.

Inductive label : Type :=
| SpawnProducer             (* wg.Add(1); go producer(p, jobs, &wg, count) *)
| SpawnConsumer             (* wg.Add(1); go consumer(c, jobs, results, &wg) *)
| SpawnCloser               (* go func() { wg.Wait(); close(results) }() *)
| Produce (k : nat)         (* producer k+1: jobs <- job *)
| ProducerExit (k : nat)    (* producer k+1: loop over, wg.Done() *)
| ConsumerRecv (k : nat) (ms : Z)
                            (* consumer k+1: receive of range jobs; ms is drawn *)
| ConsumerSend (k : nat)    (* consumer k+1: results <- result *)
| CloserRun                 (* wg.Wait() returns; close(results) *)
| Collect.                  (* receive of range results, a line or the end *)

Definition init (bufferSize numProducers numConsumers : nat) : state :=
  State (map (fun k => Producer (Z.of_nat k + 1) PNotStarted) (seq 0 numProducers))
        (map (fun k => Consumer (Z.of_nat k + 1) CNotStarted) (seq 0 numConsumers))
        0 0 0 (Chan.make bufferSize) (Chan.make bufferSize) KNotStarted [] false None.

Definition set_panic (s : state) (p : panic_kind) : state :=
  State (producers s) (consumers s) (spawnedP s) (spawnedC s) (wg s) (jobs s)
        (results s) (closer s) (collected s) (main_done s) (Some p).

Definition set_producer (s : state) (k : nat) (p : producer) (w : Z)
    (c : Chan.chan Z) : state :=
  State (<[k := p]> (producers s)) (consumers s) (spawnedP s) (spawnedC s) w c
        (results s) (closer s) (collected s) (main_done s) None.

Definition set_consumer (s : state) (k : nat) (c : consumer) (w : Z)
    (js : Chan.chan Z) (rs : Chan.chan string) : state :=
  State (producers s) (<[k := c]> (consumers s)) (spawnedP s) (spawnedC s) w js
        rs (closer s) (collected s) (main_done s) None.

Section Model.
(** [numItems/numProducers], the number of jobs of each producer. *)
Variable count : Z.

Definition step (l : label) (s : state) : option state :=
  match panic s with
  | Some _ => None
  | None =>
      match l with
      | SpawnProducer =>
          match closer s, producers s !! spawnedP s with
          | KNotStarted, Some p =>
              Some (State (<[spawnedP s := Producer (pid p) (PRun (seqZ 0 count))]>
                             (producers s))
                      (consumers s) (S (spawnedP s)) (spawnedC s) (wg s + 1) (jobs s)
                      (results s) (closer s) (collected s) (main_done s) None)
          | _, _ => None
          end
      | SpawnConsumer =>
          match closer s, producers s !! spawnedP s, consumers s !! spawnedC s with
          | KNotStarted, None, Some c =>
              Some (State (producers s)
                      (<[spawnedC s := Consumer (cid c) CRecv]> (consumers s))
                      (spawnedP s) (S (spawnedC s)) (wg s + 1) (jobs s)
                      (results s) (closer s) (collected s) (main_done s) None)
          | _, _, _ => None
          end
      | SpawnCloser =>
          match closer s, producers s !! spawnedP s, consumers s !! spawnedC s with
          | KNotStarted, None, None =>
              Some (State (producers s) (consumers s) (spawnedP s) (spawnedC s)
                      (wg s) (jobs s) (results s) KWait (collected s)
                      (main_done s) None)
          | _, _, _ => None
          end
      | Produce k =>
          match producers s !! k with
          | Some (Producer id (PRun (i :: rest))) =>
              match Chan.send (job_id id i) (jobs s) with
              | Chan.SendOk c' =>
                  Some (set_producer s k (Producer id (PRun rest)) (wg s) c')
              | Chan.SendBlock => None
              | Chan.SendPanic => Some (set_panic s SendOnClosedChannel)
              end
          | _ => None
          end
      | ProducerExit k =>
          match producers s !! k with
          | Some (Producer id (PRun [])) =>
              if wg s - 1 <? 0 then Some (set_panic s NegativeWaitGroupCounter)
              else Some (set_producer s k (Producer id PDone) (wg s - 1) (jobs s))
          | _ => None
          end
      | ConsumerRecv k ms =>
          match consumers s !! k with
          | Some (Consumer id CRecv) =>
              if (0 <=? ms) && (ms <? 1000)
              then match Chan.recv (jobs s) with
                   | Chan.RecvOk job c' =>
                       Some (set_consumer s k (Consumer id (CHold job ms)) (wg s)
                               c' (results s))
                   | Chan.RecvClosed =>
                       (* the loop ends; the deferred wg.Done() runs *)
                       if wg s - 1 <? 0
                       then Some (set_panic s NegativeWaitGroupCounter)
                       else Some (set_consumer s k (Consumer id CDone) (wg s - 1)
                                    (jobs s) (results s))
                   | Chan.RecvBlock => None
                   end
              else None
          | _ => None
          end
      | ConsumerSend k =>
          match consumers s !! k with
          | Some (Consumer id (CHold job ms)) =>
              match Chan.send (sprintf_result id job ms) (results s) with
              | Chan.SendOk c' =>
                  Some (set_consumer s k (Consumer id CRecv) (wg s) (jobs s) c')
              | Chan.SendBlock => None
              | Chan.SendPanic => Some (set_panic s SendOnClosedChannel)
              end
          | _ => None
          end
      | CloserRun =>
          match closer s with
          | KWait =>
              if wg s =? 0
              then match Chan.close (results s) with
                   | Some c' =>
                       Some (State (producers s) (consumers s) (spawnedP s)
                               (spawnedC s) (wg s) (jobs s) c' KDone (collected s)
                               (main_done s) None)
                   | None => Some (set_panic s CloseOfClosedChannel)
                   end
              else None
          | _ => None
          end
      | Collect =>
          match closer s with
          | KNotStarted => None
          | _ =>
              if main_done s then None
              else match Chan.recv (results s) with
                   | Chan.RecvOk r c' =>
                       Some (State (producers s) (consumers s) (spawnedP s)
                               (spawnedC s) (wg s) (jobs s) c' (closer s)
                               (collected s ++ [r]) false None)
                   | Chan.RecvClosed =>
                       Some (State (producers s) (consumers s) (spawnedP s)
                               (spawnedC s) (wg s) (jobs s) (results s) (closer s)
                               (collected s) true None)
                   | Chan.RecvBlock => None
                   end
          end
      end
  end.

(** The job numbers producer [id] makes. *)
Definition jobs_of (id : Z) : list Z := map (job_id id) (seqZ 0 count).

(** All job numbers, producer by producer. *)
Definition all_jobs (numProducers : nat) : list Z :=
  concat (map (fun k => jobs_of (Z.of_nat k + 1)) (seq 0 numProducers)).
End Model.


(** *** Invariant and measure *)

Section Proofs.
Variable count : Z.
Variables bufferSize numProducers numConsumers : nat.
Hypothesis buffered : (1 <= bufferSize)%nat.
Hypothesis some_consumer : (1 <= numConsumers)%nat.

(** Job numbers a producer has still to send. *)
Definition pending (p : producer) : list Z :=
  match ppc p with
  | PNotStarted => jobs_of count (pid p)
  | PRun todo => map (job_id (pid p)) todo
  | PDone => []
  end.

(** The job a consumer has received and not answered yet. *)
Definition holding (c : consumer) : list Z :=
  match cpc c with CHold job _ => [job] | _ => [] end.

Definition activeP (p : producer) : nat :=
  match ppc p with PRun _ => 1 | _ => 0 end.

Definition activeC (c : consumer) : nat :=
  match cpc c with CRecv | CHold _ _ => 1 | _ => 0 end.

(** A line put on [results]: which consumer made it of which job, with
    which processing time. *)
Record line : Type :=
  Line { line_consumer : Z; line_job : Z; line_ms : Z; line_text : string }.

Definition line_ok (ln : line) : Prop :=
  line_text ln = sprintf_result (line_consumer ln) (line_job ln) (line_ms ln) /\
  1 <= line_consumer ln <= Z.of_nat numConsumers /\
  0 <= line_ms ln < 1000.

(** Every job is in exactly one place: answered by a line (itself buffered
    in [results] or collected), held by a consumer, buffered in [jobs], or
    still to be sent. *)
Definition content (held buffered unsent : list Z) (col rbuf : list string) : Prop :=
  exists lines,
    Forall line_ok lines /\
    map line_job lines ++ held ++ buffered ++ unsent ≡ₚ all_jobs count numProducers /\
    col ++ rbuf ≡ₚ map line_text lines.

Record inv (s : state) : Prop := Inv {
  inv_panic : panic s = None;
  inv_shape :
    length (producers s) = numProducers /\ length (consumers s) = numConsumers /\
    (spawnedP s <= numProducers)%nat /\ (spawnedC s <= numConsumers)%nat /\
    ((0 < spawnedC s)%nat -> spawnedP s = numProducers) /\
    (closer s <> KNotStarted ->
       spawnedP s = numProducers /\ spawnedC s = numConsumers) /\
    closer s <> KDone /\ main_done s = false;
  inv_chans :
    Chan.cap (jobs s) = bufferSize /\ Chan.closed (jobs s) = false /\
    Chan.cap (results s) = bufferSize /\ Chan.closed (results s) = false;
  inv_producers : forall k p, producers s !! k = Some p ->
    (ppc p = PNotStarted <-> (spawnedP s <= k)%nat);
  inv_consumers : forall k c, consumers s !! k = Some c ->
    cid c = Z.of_nat k + 1 /\
    (cpc c = CNotStarted <-> (spawnedC s <= k)%nat) /\ cpc c <> CDone /\
    (forall job ms, cpc c = CHold job ms -> 0 <= ms < 1000);
  inv_wg : wg s = Z.of_nat (sum_list (map activeP (producers s))
                            + sum_list (map activeC (consumers s)));
  inv_content :
    content (concat (map holding (consumers s))) (Chan.buf (jobs s))
            (concat (map pending (producers s))) (collected s) (Chan.buf (results s))
}.

Definition producer_measure (p : producer) : nat :=
  match ppc p with
  | PNotStarted => 4 * Z.to_nat count + 2
  | PRun todo => 4 * length todo + 1
  | PDone => 0
  end.

Definition consumer_measure (c : consumer) : nat :=
  match cpc c with CNotStarted => 2 | CRecv => 1 | CHold _ _ => 3 | CDone => 0 end.

Definition measure (s : state) : nat :=
  sum_list (map producer_measure (producers s))
  + 3 * length (Chan.buf (jobs s))
  + sum_list (map consumer_measure (consumers s))
  + length (Chan.buf (results s))
  + match closer s with KNotStarted => 2 | KWait => 1 | KDone => 0 end
  + (if main_done s then 0 else 1).

Lemma content_perm (h b u h' b' u' : list Z) (col rb : list string) :
  h ++ b ++ u ≡ₚ h' ++ b' ++ u' -> content h b u col rb -> content h' b' u' col rb.
Proof.
  intros Hp (lines & Hok & Hj & Hr). exists lines.
  split; [exact Hok|]. split; [|exact Hr]. rewrite <- Hj, Hp. reflexivity.
Qed.

Lemma content_collect (h b u : list Z) (col rb : list string) (r : string) :
  content h b u col (r :: rb) -> content h b u (col ++ [r]) rb.
Proof.
  intros (lines & Hok & Hj & Hr). exists lines.
  split; [exact Hok|]. split; [exact Hj|]. rewrite <- Hr. solve_Permutation.
Qed.

Lemma content_send (h h' b u : list Z) (col rb : list string) (id job ms : Z) :
  h ≡ₚ job :: h' -> 1 <= id <= Z.of_nat numConsumers -> 0 <= ms < 1000 ->
  content h b u col rb ->
  content h' b u col (rb ++ [sprintf_result id job ms]).
Proof.
  intros Hh Hid Hms (lines & Hok & Hj & Hr).
  exists (Line id job ms (sprintf_result id job ms) :: lines).
  split; [constructor; [split; simpl; auto | exact Hok]|]. split.
  - simpl. rewrite <- Hj, Hh. solve_Permutation.
  - simpl. rewrite <- Hr. solve_Permutation.
Qed.

Lemma pending_update (ps : list producer) (k : nat) (p p' : producer) (b b' : list Z) :
  ps !! k = Some p -> b' ++ pending p' ≡ₚ b ++ pending p ->
  b' ++ concat (map pending (<[k := p']> ps)) ≡ₚ b ++ concat (map pending ps).
Proof.
  intros Hk Hb. pose proof (concat_insert_perm pending ps k p p' Hk) as Hc.
  apply (Permutation_app_inv_l (pending p)).
  etransitivity; [apply Permutation_app_swap_app|].
  rewrite Hc, app_assoc, Hb. solve_Permutation.
Qed.

Lemma holding_update (cs : list consumer) (k : nat) (c c' : consumer) (b b' : list Z) :
  cs !! k = Some c -> holding c' ++ b' ≡ₚ holding c ++ b ->
  concat (map holding (<[k := c']> cs)) ++ b' ≡ₚ concat (map holding cs) ++ b.
Proof.
  intros Hk Hb. pose proof (concat_insert_perm holding cs k c c' Hk) as Hc.
  apply (Permutation_app_inv_l (holding c)).
  rewrite app_assoc, Hc.
  transitivity ((holding c' ++ b') ++ concat (map holding cs)); [solve_Permutation|].
  rewrite Hb. solve_Permutation.
Qed.

Lemma lookup_le_sum {B : Type} (f : B -> nat) (l : list B) (k : nat) (x : B) :
  l !! k = Some x -> (f x <= sum_list (map f l))%nat.
Proof.
  revert k. induction l as [|a l IH]; intros [|k] Hk; simpl in *; try discriminate.
  - inversion Hk; subst. lia.
  - specialize (IH _ Hk). lia.
Qed.

Lemma pc_inv_init : inv (init bufferSize numProducers numConsumers).
Proof.
  split; simpl.
  - reflexivity.
  - rewrite !length_map, !length_seq. repeat split; auto; try lia; try discriminate; try done.
  - auto.
  - intros k p Hk. rewrite list_lookup_fmap in Hk.
    destruct (seq 0 numProducers !! k); [|discriminate]. inversion Hk; subst. simpl.
    split; [lia | reflexivity].
  - intros k c Hk. rewrite list_lookup_fmap in Hk.
    destruct (seq 0 numConsumers !! k) as [i|] eqn:Hi; [|discriminate].
    apply lookup_seq in Hi as [-> _]. inversion Hk; subst. simpl.
    split; [reflexivity|]. split; [split; [lia | reflexivity]|].
    split; [discriminate | intros ? ? ?; discriminate].
  - rewrite !map_map. simpl.
    assert (H : forall (B : Type) (l : list B), sum_list (map (fun _ => 0%nat) l) = 0%nat)
      by (intros B l; induction l; simpl; auto).
    rewrite !H. reflexivity.
  - exists []. split; [constructor|]. simpl. split; [|reflexivity].
    rewrite !map_map. simpl.
    assert (H : forall (l : list nat),
              concat (map (fun _ : nat => @nil Z) l) = []) by (induction l; simpl; auto).
    rewrite H. reflexivity.
Qed.

(** While the closing goroutine waits, the consumers keep the wait group
    above zero: no consumer ever returns, because [jobs] is never closed. *)
Lemma wg_positive (s : state) :
  inv s -> closer s = KWait -> 1 <= wg s.
Proof.
  intros [Hp Hsh Hch Hps Hcs Hwg Hct] Hk.
  destruct Hsh as (HlP & HlC & HsP & HsC & Hord & Hcl & Hnd & Hmd).
  destruct (Hcl ltac:(rewrite Hk; discriminate)) as [E1 E2].
  destruct (lookup_lt_is_Some_2 (consumers s) 0%nat ltac:(lia)) as [c Hc].
  destruct (Hcs _ _ Hc) as (_ & Hns & Hdn & _).
  pose proof (lookup_le_sum activeC _ _ _ Hc) as Hle.
  assert (activeC c = 1%nat).
  { unfold activeC. destruct (cpc c); auto; [|congruence].
    destruct Hns as [Hx _]. specialize (Hx eq_refl). lia. }
  lia.
Qed.

Lemma pc_inv_preserved : preserved (step count) inv.
Proof.
  intros l s s' Hinv Hstep.
  pose proof Hinv as [Hp Hsh Hch Hps Hcs Hwg Hct].
  destruct Hsh as (HlP & HlC & HsP & HsC & Hord & Hcl & Hnd & Hmd).
  destruct Hch as (Hjc & Hjo & Hrc & Hro).
  unfold step in Hstep. rewrite Hp in Hstep.
  destruct l.
  - (* SpawnProducer *)
    destruct (closer s) eqn:Hk; try discriminate.
    destruct (producers s !! spawnedP s) as [p|] eqn:Hl; [|discriminate].
    inversion Hstep; subst s'; clear Hstep.
    pose proof (lookup_lt_Some _ _ _ Hl) as Hlt.
    assert (Hns : ppc p = PNotStarted) by (apply (Hps _ _ Hl); lia).
    split; simpl.
    + reflexivity.
    + rewrite length_insert. repeat split; auto; try lia; try done;
        try (intros Hx; specialize (Hord Hx); lia).
    + auto.
    + intros j q Hj. apply lookup_insert_cases in Hj as [[-> ->]|[Hne Hj]]; simpl.
      * split; [discriminate | lia].
      * specialize (Hps _ _ Hj). split; intros Hx; [apply Hps in Hx; lia | apply Hps; lia].
    + exact Hcs.
    + pose proof (sum_list_insert activeP _ _ _
                    (Producer (pid p) (PRun (seqZ 0 count))) Hl) as Hx.
      unfold activeP at 2 4 in Hx. rewrite Hns in Hx. simpl in Hx. lia.
    + eapply content_perm; [|exact Hct]. do 2 apply Permutation_app_head.
      symmetry. apply (pending_update _ _ p _ [] []); [exact Hl|].
      unfold pending. rewrite Hns. reflexivity.
  - (* SpawnConsumer *)
    destruct (closer s) eqn:Hk; try discriminate.
    destruct (producers s !! spawnedP s) eqn:Hl; [discriminate|].
    destruct (consumers s !! spawnedC s) as [c|] eqn:Hc; [|discriminate].
    inversion Hstep; subst s'; clear Hstep.
    apply lookup_ge_None in Hl.
    pose proof (lookup_lt_Some _ _ _ Hc) as Hlt.
    destruct (Hcs _ _ Hc) as (Hid & Hns & _).
    assert (Hns' : cpc c = CNotStarted) by (apply Hns; lia).
    split; simpl.
    + reflexivity.
    + rewrite length_insert. repeat split; auto; try lia; try done.
    + auto.
    + exact Hps.
    + intros j q Hj. apply lookup_insert_cases in Hj as [[-> ->]|[Hne Hj]]; simpl.
      * split; [exact Hid|]. split; [split; [discriminate | lia]|].
        split; [discriminate | intros ? ? ?; discriminate].
      * destruct (Hcs _ _ Hj) as (H1 & H2 & H3).
        split; [exact H1|]. split; [|exact H3].
        split; intros Hx; [apply H2 in Hx; lia | apply H2; lia].
    + pose proof (sum_list_insert activeC _ _ _ (Consumer (cid c) CRecv) Hc) as Hx.
      unfold activeC at 2 4 in Hx. rewrite Hns' in Hx. simpl in Hx. lia.
    + eapply content_perm; [|exact Hct].
      rewrite !app_assoc. do 2 apply Permutation_app_tail.
      symmetry.
      pose proof (holding_update _ _ c (Consumer (cid c) CRecv) [] [] Hc) as Hh.
      rewrite !app_nil_r in Hh. apply Hh.
      unfold holding. rewrite Hns'. reflexivity.
  - (* SpawnCloser *)
    destruct (closer s) eqn:Hk; try discriminate.
    destruct (producers s !! spawnedP s) eqn:Hl; [discriminate|].
    destruct (consumers s !! spawnedC s) eqn:Hc; [discriminate|].
    inversion Hstep; subst s'; clear Hstep.
    apply lookup_ge_None in Hl. apply lookup_ge_None in Hc.
    split; simpl; auto.
    repeat split; auto; try lia; try done.
  - (* Produce *)
    destruct (producers s !! k) as [[id pc]|] eqn:Hl; [|discriminate].
    destruct pc as [|[|i rest]|]; try discriminate.
    unfold Chan.send in Hstep. rewrite Hjo, Hjc in Hstep.
    destruct (length (Chan.buf (jobs s)) <? bufferSize)%nat; [|discriminate].
    inversion Hstep; subst s'; clear Hstep.
    split; simpl.
    + reflexivity.
    + rewrite length_insert. tauto.
    + auto.
    + intros j q Hj. apply lookup_insert_cases in Hj as [[-> ->]|[Hne Hj]]; simpl;
        [|apply Hps, Hj].
      specialize (Hps _ _ Hl). simpl in Hps.
      split; [discriminate|]. intros Hx. apply Hps in Hx. discriminate.
    + exact Hcs.
    + pose proof (sum_list_insert activeP _ _ _ (Producer id (PRun rest)) Hl) as Hx.
      unfold activeP at 2 4 in Hx. simpl in Hx. lia.
    + eapply content_perm; [|exact Hct]. apply Permutation_app_head. symmetry.
      apply (pending_update _ _ (Producer id (PRun (i :: rest)))); [exact Hl|].
      unfold pending. simpl. solve_Permutation.
  - (* ProducerExit *)
    destruct (producers s !! k) as [[id pc]|] eqn:Hl; [|discriminate].
    destruct pc as [|[|i rest]|]; try discriminate.
    pose proof (sum_list_insert activeP _ _ _ (Producer id PDone) Hl) as Hx.
    unfold activeP at 2 4 in Hx. simpl in Hx.
    destruct (wg s - 1 <? 0) eqn:Hneg; [apply Z.ltb_lt in Hneg; lia|].
    inversion Hstep; subst s'; clear Hstep.
    split; simpl.
    + reflexivity.
    + rewrite length_insert. tauto.
    + auto.
    + intros j q Hj. apply lookup_insert_cases in Hj as [[-> ->]|[Hne Hj]]; simpl;
        [|apply Hps, Hj].
      specialize (Hps _ _ Hl). simpl in Hps.
      split; [discriminate|]. intros Hy. apply Hps in Hy. discriminate.
    + exact Hcs.
    + lia.
    + eapply content_perm; [|exact Hct]. apply Permutation_app_head. symmetry.
      apply (pending_update _ _ (Producer id (PRun []))); [exact Hl|]. reflexivity.
  - (* ConsumerRecv *)
    destruct (consumers s !! k) as [[id pc]|] eqn:Hc; [|discriminate].
    destruct pc; try discriminate.
    destruct ((0 <=? ms) && (ms <? 1000)) eqn:Hms; [|discriminate].
    unfold Chan.recv in Hstep. rewrite Hjo in Hstep.
    destruct (Chan.buf (jobs s)) as [|job rest] eqn:Hb; [discriminate|].
    inversion Hstep; subst s'; clear Hstep.
    destruct (Hcs _ _ Hc) as (Hid & Hns & _). simpl in *.
    split; simpl.
    + reflexivity.
    + rewrite length_insert. tauto.
    + auto.
    + exact Hps.
    + intros j q Hj. apply lookup_insert_cases in Hj as [[-> ->]|[Hne Hj]]; simpl;
        [|apply Hcs, Hj].
      split; [exact Hid|]. split; [split; [discriminate|]|].
      { intros Hx. apply Hns in Hx. discriminate. }
      split; [discriminate|]. intros job' ms' E. inversion E; subst.
      apply andb_true_iff in Hms as [H1 H2].
      apply Z.leb_le in H1. apply Z.ltb_lt in H2. lia.
    + pose proof (sum_list_insert activeC _ _ _ (Consumer id (CHold job ms)) Hc) as Hx.
      unfold activeC at 2 4 in Hx. simpl in Hx. lia.
    + eapply content_perm; [|exact Hct].
      rewrite !app_assoc. apply Permutation_app_tail. symmetry.
      apply (holding_update _ _ (Consumer id CRecv)); [exact Hc|]. reflexivity.
  - (* ConsumerSend *)
    destruct (consumers s !! k) as [[id pc]|] eqn:Hc; [|discriminate].
    destruct pc as [| |job ms|]; try discriminate.
    unfold Chan.send in Hstep. rewrite Hro, Hrc in Hstep.
    destruct (length (Chan.buf (results s)) <? bufferSize)%nat; [|discriminate].
    inversion Hstep; subst s'; clear Hstep.
    destruct (Hcs _ _ Hc) as (Hid & Hns & _ & Hms). simpl in *.
    specialize (Hms _ _ eq_refl).
    pose proof (lookup_lt_Some _ _ _ Hc) as Hlt.
    split; simpl.
    + reflexivity.
    + rewrite length_insert. tauto.
    + auto.
    + exact Hps.
    + intros j q Hj. apply lookup_insert_cases in Hj as [[-> ->]|[Hne Hj]]; simpl;
        [|apply Hcs, Hj].
      split; [exact Hid|]. split; [split; [discriminate|]|].
      { intros Hx. apply Hns in Hx. discriminate. }
      split; [discriminate | intros ? ? ?; discriminate].
    + pose proof (sum_list_insert activeC _ _ _ (Consumer id CRecv) Hc) as Hx.
      unfold activeC at 2 4 in Hx. simpl in Hx. lia.
    + eapply content_send; [| | exact Hms | exact Hct]; [|lia].
      pose proof (concat_insert_perm holding _ _ _ (Consumer id CRecv) Hc) as Hh.
      simpl in Hh. symmetry. exact Hh.
  - (* CloserRun *)
    destruct (closer s) eqn:Hk; try discriminate.
    pose proof (wg_positive s Hinv Hk) as Hpos.
    destruct (wg s =? 0) eqn:Hw; [apply Z.eqb_eq in Hw; lia | discriminate].
  - (* Collect *)
    destruct (closer s) eqn:Hk; try discriminate; [|congruence].
    rewrite Hmd in Hstep. unfold Chan.recv in Hstep. rewrite Hro in Hstep.
    destruct (Chan.buf (results s)) as [|r rest] eqn:Hb; [discriminate|].
    inversion Hstep; subst s'; clear Hstep.
    split; simpl; auto.
    + tauto.
    + apply content_collect. exact Hct.
Qed.

Lemma pc_measure_decreasing : decreasing (step count) inv measure.
Proof.
  intros l s s' Hinv Hstep.
  pose proof Hinv as [Hp Hsh Hch Hps Hcs Hwg Hct].
  destruct Hsh as (HlP & HlC & HsP & HsC & Hord & Hcl & Hnd & Hmd).
  destruct Hch as (Hjc & Hjo & Hrc & Hro).
  unfold step in Hstep. rewrite Hp in Hstep. unfold measure.
  destruct l.
  - destruct (closer s) eqn:Hk; try discriminate.
    destruct (producers s !! spawnedP s) as [p|] eqn:Hl; [|discriminate].
    inversion Hstep; subst s'; clear Hstep. simpl.
    assert (Hns : ppc p = PNotStarted) by (apply (Hps _ _ Hl); lia).
    pose proof (sum_list_insert producer_measure _ _ _
                  (Producer (pid p) (PRun (seqZ 0 count))) Hl) as Hx.
    unfold producer_measure at 2 4 in Hx. rewrite Hns in Hx. simpl in Hx.
    rewrite length_seqZ in Hx. lia.
  - destruct (closer s) eqn:Hk; try discriminate.
    destruct (producers s !! spawnedP s) eqn:Hl; [discriminate|].
    destruct (consumers s !! spawnedC s) as [c|] eqn:Hc; [|discriminate].
    inversion Hstep; subst s'; clear Hstep. simpl.
    destruct (Hcs _ _ Hc) as (_ & Hns & _).
    assert (Hns' : cpc c = CNotStarted) by (apply Hns; lia).
    pose proof (sum_list_insert consumer_measure _ _ _ (Consumer (cid c) CRecv) Hc) as Hx.
    unfold consumer_measure at 2 4 in Hx. rewrite Hns' in Hx. simpl in Hx.
    lia.
  - destruct (closer s) eqn:Hk; try discriminate.
    destruct (producers s !! spawnedP s) eqn:Hl; [discriminate|].
    destruct (consumers s !! spawnedC s) eqn:Hc; [discriminate|].
    inversion Hstep; subst s'; clear Hstep. simpl. lia.
  - destruct (producers s !! k) as [[id pc]|] eqn:Hl; [|discriminate].
    destruct pc as [|[|i rest]|]; try discriminate.
    unfold Chan.send in Hstep. rewrite Hjo, Hjc in Hstep.
    destruct (length (Chan.buf (jobs s)) <? bufferSize)%nat; [|discriminate].
    inversion Hstep; subst s'; clear Hstep. simpl.
    pose proof (sum_list_insert producer_measure _ _ _ (Producer id (PRun rest)) Hl) as Hx.
    unfold producer_measure at 2 4 in Hx. simpl in Hx.
    rewrite length_app. simpl. lia.
  - destruct (producers s !! k) as [[id pc]|] eqn:Hl; [|discriminate].
    destruct pc as [|[|i rest]|]; try discriminate.
    pose proof (sum_list_insert activeP _ _ _ (Producer id PDone) Hl) as Ha.
    unfold activeP at 2 4 in Ha. simpl in Ha.
    destruct (wg s - 1 <? 0) eqn:Hneg; [apply Z.ltb_lt in Hneg; lia|].
    inversion Hstep; subst s'; clear Hstep. simpl.
    pose proof (sum_list_insert producer_measure _ _ _ (Producer id PDone) Hl) as Hx.
    unfold producer_measure at 2 4 in Hx. simpl in Hx. lia.
  - destruct (consumers s !! k) as [[id pc]|] eqn:Hc; [|discriminate].
    destruct pc; try discriminate.
    destruct ((0 <=? ms) && (ms <? 1000)); [|discriminate].
    unfold Chan.recv in Hstep. rewrite Hjo in Hstep.
    destruct (Chan.buf (jobs s)) as [|job rest] eqn:Hb; [discriminate|].
    inversion Hstep; subst s'; clear Hstep. simpl.
    pose proof (sum_list_insert consumer_measure _ _ _ (Consumer id (CHold job ms)) Hc)
      as Hx.
    unfold consumer_measure at 2 4 in Hx. simpl in Hx. lia.
  - destruct (consumers s !! k) as [[id pc]|] eqn:Hc; [|discriminate].
    destruct pc as [| |job ms|]; try discriminate.
    unfold Chan.send in Hstep. rewrite Hro, Hrc in Hstep.
    destruct (length (Chan.buf (results s)) <? bufferSize)%nat; [|discriminate].
    inversion Hstep; subst s'; clear Hstep. simpl.
    pose proof (sum_list_insert consumer_measure _ _ _ (Consumer id CRecv) Hc) as Hx.
    unfold consumer_measure at 2 4 in Hx. simpl in Hx.
    rewrite length_app. simpl. lia.
  - destruct (closer s) eqn:Hk; try discriminate.
    pose proof (wg_positive s Hinv Hk) as Hpos.
    destruct (wg s =? 0) eqn:Hw; [apply Z.eqb_eq in Hw; lia | discriminate].
  - destruct (closer s) eqn:Hk; try discriminate; [|congruence].
    rewrite Hmd in Hstep. unfold Chan.recv in Hstep. rewrite Hro in Hstep.
    destruct (Chan.buf (results s)) as [|r rest] eqn:Hb; [discriminate|].
    inversion Hstep; subst s'; clear Hstep. simpl. rewrite Hmd. lia.
Qed.

(** How every run ends: every goroutine is asleep.  The producers have
    returned; every job has been answered by one line and every line has
    been collected; the consumers wait at an empty [jobs] that nobody will
    close; the closing goroutine waits for them; and the caller waits at an
    empty [results] that is not closed. *)
Definition deadlock (s : state) : Prop :=
  Forall (fun p => ppc p = PDone) (producers s) /\
  Forall (fun c => cpc c = CRecv) (consumers s) /\
  Chan.buf (jobs s) = [] /\ Chan.closed (jobs s) = false /\
  closer s = KWait /\ wg s = Z.of_nat numConsumers /\
  Chan.buf (results s) = [] /\ Chan.closed (results s) = false /\
  main_done s = false /\
  exists lines,
    Forall line_ok lines /\
    map line_job lines ≡ₚ all_jobs count numProducers /\
    collected s ≡ₚ map line_text lines.

Lemma concat_all_nil {B C : Type} (f : B -> list C) (l : list B) :
  Forall (fun x => f x = []) l -> concat (map f l) = [].
Proof. induction 1 as [|x l Hx _ IH]; simpl; [reflexivity | rewrite Hx, IH; reflexivity]. Qed.

Lemma sum_list_all {B : Type} (f : B -> nat) (n : nat) (l : list B) :
  Forall (fun x => f x = n) l -> sum_list (map f l) = (length l * n)%nat.
Proof. induction 1 as [|x l Hx _ IH]; simpl; [reflexivity | rewrite Hx, IH; reflexivity]. Qed.

Lemma pc_stuck_deadlock (s : state) : inv s -> stuck (step count) s -> deadlock s.
Proof.
  intros Hinv Hstuck.
  pose proof Hinv as [Hp Hsh Hch Hps Hcs Hwg Hct].
  destruct Hsh as (HlP & HlC & HsP & HsC & Hord & Hcl & Hnd & Hmd).
  destruct Hch as (Hjc & Hjo & Hrc & Hro).
  assert (Hstep : forall l, step count l s = None) by exact Hstuck. clear Hstuck.
  unfold step in Hstep. rewrite Hp in Hstep.
  assert (Hk : closer s = KWait).
  { destruct (closer s) eqn:Hk; [|reflexivity|congruence]. exfalso.
    pose proof (Hstep SpawnProducer) as H1. pose proof (Hstep SpawnConsumer) as H2.
    pose proof (Hstep SpawnCloser) as H3. simpl in *.
    destruct (producers s !! spawnedP s); [discriminate|].
    destruct (consumers s !! spawnedC s); discriminate. }
  destruct (Hcl ltac:(rewrite Hk; discriminate)) as [EP EC].
  assert (Hrb : Chan.buf (results s) = []).
  { pose proof (Hstep Collect) as H1. simpl in H1. rewrite Hk, Hmd in H1.
    unfold Chan.recv in H1. destruct (Chan.buf (results s)); [reflexivity | discriminate]. }
  assert (HC : Forall (fun c => cpc c = CRecv) (consumers s)).
  { apply Forall_lookup_2. intros k [id pc] Hc. simpl.
    destruct (Hcs _ _ Hc) as (_ & Hns & Hdn & _). simpl in *.
    pose proof (lookup_lt_Some _ _ _ Hc) as Hlt.
    destruct pc as [| |job ms|]; [|reflexivity| |congruence].
    - destruct Hns as [Hx _]. specialize (Hx eq_refl). lia.
    - pose proof (Hstep (ConsumerSend k)) as H1. simpl in H1. rewrite Hc in H1.
      unfold Chan.send in H1. rewrite Hro, Hrc, Hrb in H1. simpl in H1.
      destruct bufferSize; [lia | discriminate]. }
  assert (Hjb : Chan.buf (jobs s) = []).
  { destruct (lookup_lt_is_Some_2 (consumers s) 0%nat ltac:(lia)) as [[id pc] Hc].
    rewrite Forall_lookup in HC. specialize (HC _ _ Hc). simpl in HC. subst pc.
    pose proof (Hstep (ConsumerRecv 0 0)) as H1. simpl in H1. rewrite Hc in H1.
    unfold Chan.recv in H1. rewrite Hjo in H1.
    destruct (Chan.buf (jobs s)); [reflexivity | discriminate]. }
  assert (HP : Forall (fun p => ppc p = PDone) (producers s)).
  { apply Forall_lookup_2. intros k [id pc] Hl. simpl.
    pose proof (Hps _ _ Hl) as Hns. simpl in Hns.
    pose proof (lookup_lt_Some _ _ _ Hl) as Hlt.
    destruct pc as [|[|i rest]|]; [| | |reflexivity].
    - destruct Hns as [Hx _]. specialize (Hx eq_refl). lia.
    - pose proof (Hstep (ProducerExit k)) as H1. simpl in H1. rewrite Hl in H1.
      destruct (wg s - 1 <? 0); discriminate.
    - pose proof (Hstep (Produce k)) as H1. simpl in H1. rewrite Hl in H1.
      unfold Chan.send in H1. rewrite Hjo, Hjc, Hjb in H1. simpl in H1.
      destruct bufferSize; [lia | discriminate]. }
  unfold deadlock. repeat (split; [assumption|]). split.
  - rewrite Hwg.
    rewrite (sum_list_all activeP 0 (producers s)), (sum_list_all activeC 1 (consumers s)).
    + lia.
    + eapply Forall_impl; [exact HC|]. intros c E. unfold activeC. rewrite E. reflexivity.
    + eapply Forall_impl; [exact HP|]. intros p E. unfold activeP. rewrite E. reflexivity.
  - repeat (split; [assumption|]).
    destruct Hct as (lines & Hok & Hj & Hr). exists lines.
    rewrite Hrb, app_nil_r in Hr. rewrite Hjb in Hj.
    rewrite (concat_all_nil holding), (concat_all_nil pending) in Hj.
    + simpl in Hj. rewrite app_nil_r in Hj. auto.
    + eapply Forall_impl; [exact HP|]. intros p E. unfold pending. rewrite E. reflexivity.
    + eapply Forall_impl; [exact HC|]. intros c E. unfold holding. rewrite E. reflexivity.
Qed.

Definition labels_of (s : state) : list label :=
  [SpawnProducer; SpawnConsumer; SpawnCloser; CloserRun; Collect]
  ++ flat_map (fun k => [Produce k; ProducerExit k]) (seq 0 (length (producers s)))
  ++ flat_map (fun k => ConsumerSend k :: map (ConsumerRecv k) (seqZ 0 1000))
       (seq 0 (length (consumers s))).

Lemma pc_can_move (s : state) :
  stuck (step count) s \/ exists l s', step count l s = Some s'.
Proof.
  apply (stuck_or_move (step count) (labels_of s)).
  intros l s' Hstep. unfold labels_of.
  unfold step in Hstep. destruct (panic s); [discriminate|].
  assert (HkP : forall k, is_Some (producers s !! k) ->
            In k (seq 0 (length (producers s)))).
  { intros k Hk. apply lookup_lt_is_Some in Hk. apply in_seq. lia. }
  assert (HkC : forall k, is_Some (consumers s !! k) ->
            In k (seq 0 (length (consumers s)))).
  { intros k Hk. apply lookup_lt_is_Some in Hk. apply in_seq. lia. }
  destruct l; apply in_or_app.
  1-3, 8-9: left; cbn [In]; auto 10.
  - right. apply in_or_app. left. apply in_flat_map. exists k.
    split; [|cbn [In]; auto].
    apply HkP. destruct (producers s !! k); [eauto | discriminate].
  - right. apply in_or_app. left. apply in_flat_map. exists k.
    split; [|cbn [In]; auto].
    apply HkP. destruct (producers s !! k); [eauto | discriminate].
  - right. apply in_or_app. right. apply in_flat_map. exists k.
    destruct (consumers s !! k) as [[id pc]|] eqn:Hc; [|discriminate].
    split; [apply HkC; eauto|]. apply in_cons, in_map.
    destruct pc; try discriminate.
    destruct ((0 <=? ms) && (ms <? 1000)) eqn:Hms; [|discriminate].
    apply andb_true_iff in Hms as [H1 H2].
    apply Z.leb_le in H1. apply Z.ltb_lt in H2.
    apply list_elem_of_In, elem_of_seqZ. lia.
  - right. apply in_or_app. right. apply in_flat_map. exists k.
    split; [|apply in_eq].
    apply HkC. destruct (consumers s !! k); [eauto | discriminate].
Qed.
End Proofs.

(** The constants of the source. *)
Definition producerConsumerExample : state := init 5 2 3.
Definition pc_step : label -> state -> option state := step (Z.quot 20 2).
End ProducerConsumer.

Lemma all_jobs_length (count : Z) (numProducers : nat) :
  length (ProducerConsumer.all_jobs count numProducers)
  = (numProducers * Z.to_nat count)%nat.
Proof.
  unfold ProducerConsumer.all_jobs. generalize 0%nat.
  induction numProducers as [|n IH]; intros a; simpl; [reflexivity|].
  rewrite length_app, IH. unfold ProducerConsumer.jobs_of.
  rewrite length_map, length_seqZ. reflexivity.
Qed.

(** X12 — [producerConsumerExample] never returns.  Nothing closes [jobs], so no
    consumer ever leaves its loop, the wait group never reaches zero and
    [results] is never closed.  With at least one consumer and buffered
    channels, along every schedule: no goroutine panics; [jobs] and
    [results] stay open and the caller stays in its loop; every job is in
    exactly one place (answered by one line, held by a consumer, buffered,
    or still to be sent); no schedule is longer than the initial measure;
    and when nothing can move any more, all goroutines are asleep: the
    producers have returned, each of the [numProducers * count] jobs has
    been answered by exactly one line and all lines have been collected, the
    consumers wait at [jobs], the closing goroutine at the wait group, the
    caller at [results].  Every reachable state can be run on to that
    deadlock. *)
Theorem producer_consumer_example_deadlocks
    (bufferSize numProducers numConsumers : nat) (count : Z)
    (sched : list ProducerConsumer.label) (s : ProducerConsumer.state) :
  (1 <= bufferSize)%nat -> (1 <= numConsumers)%nat ->
  run (ProducerConsumer.step count) sched
      (ProducerConsumer.init bufferSize numProducers numConsumers) = Some s ->
  ProducerConsumer.panic s = None /\
  Chan.closed (ProducerConsumer.jobs s) = false /\
  Chan.closed (ProducerConsumer.results s) = false /\
  ProducerConsumer.main_done s = false /\
  ProducerConsumer.content count numProducers numConsumers
    (concat (map ProducerConsumer.holding (ProducerConsumer.consumers s)))
    (Chan.buf (ProducerConsumer.jobs s))
    (concat (map (ProducerConsumer.pending count) (ProducerConsumer.producers s)))
    (ProducerConsumer.collected s) (Chan.buf (ProducerConsumer.results s)) /\
  (length sched
   <= ProducerConsumer.measure count
        (ProducerConsumer.init bufferSize numProducers numConsumers))%nat /\
  (stuck (ProducerConsumer.step count) s ->
     ProducerConsumer.deadlock count numProducers numConsumers s /\
     length (ProducerConsumer.collected s) = (numProducers * Z.to_nat count)%nat) /\
  (exists sched' s',
      run (ProducerConsumer.step count) sched' s = Some s' /\
      stuck (ProducerConsumer.step count) s' /\
      ProducerConsumer.deadlock count numProducers numConsumers s' /\
      length (ProducerConsumer.collected s') = (numProducers * Z.to_nat count)%nat).
Proof.
  intros Hb Hc Hrun.
  assert (Hlen : forall s0,
            ProducerConsumer.deadlock count numProducers numConsumers s0 ->
            length (ProducerConsumer.collected s0) = (numProducers * Z.to_nat count)%nat).
  { intros s0 (_ & _ & _ & _ & _ & _ & _ & _ & _ & lines & _ & H1 & H2).
    rewrite H2, length_map, <- (length_map ProducerConsumer.line_job), H1.
    apply all_jobs_length. }
  destruct (run_total (ProducerConsumer.step count)
              (ProducerConsumer.inv count bufferSize numProducers numConsumers)
              (fun s0 => ProducerConsumer.deadlock count numProducers numConsumers s0 /\
                         length (ProducerConsumer.collected s0)
                         = (numProducers * Z.to_nat count)%nat)
              (ProducerConsumer.measure count)
              (ProducerConsumer.init bufferSize numProducers numConsumers)
              (ProducerConsumer.pc_inv_init count bufferSize numProducers numConsumers Hb Hc)
              (ProducerConsumer.pc_inv_preserved count bufferSize numProducers
                 numConsumers Hb Hc)
              (ProducerConsumer.pc_measure_decreasing count bufferSize numProducers
                 numConsumers Hb Hc)
              (fun s0 _ => ProducerConsumer.pc_can_move count bufferSize numConsumers Hb Hc s0))
    with (sched := sched) (s := s) as (Hinv & Hl & Hst & Hex); auto.
  { intros s0 H0 H1. split; [|apply Hlen];
      apply (ProducerConsumer.pc_stuck_deadlock count bufferSize numProducers
               numConsumers Hb Hc); auto. }
  destruct Hinv as [Hp Hsh Hch Hps Hcs Hwg Hct].
  split; [exact Hp|]. split; [apply Hch|]. split; [apply Hch|].
  split; [apply Hsh|]. split; [exact Hct|]. split; [lia|]. split; [exact Hst|].
  destruct Hex as (sched' & s' & H1 & H2 & H3 & H4). exists sched', s'. auto.
Qed.

(** The constants of the source (buffers of 5, two producers of ten jobs,
    three consumers): some schedule leads to the deadlock, with all twenty
    lines collected and the caller still waiting. *)
Lemma producer_consumer_example_deadlocks_witness :
  exists sched s,
    run ProducerConsumer.pc_step sched ProducerConsumer.producerConsumerExample
    = Some s /\
    stuck ProducerConsumer.pc_step s /\
    length (ProducerConsumer.collected s) = 20%nat /\
    ProducerConsumer.main_done s = false.
Proof.
  destruct (producer_consumer_example_deadlocks 5 2 3 (Z.quot 20 2) []
              ProducerConsumer.producerConsumerExample
              ltac:(lia) ltac:(lia) eq_refl)
    as (_ & _ & _ & _ & _ & _ & _ & sched & s & H1 & H2 & H3 & H4).
  exists sched, s. split; [exact H1|]. split; [exact H2|]. split; [exact H4|].
  apply H3.
Defined.

(** One producer, one job, one consumer that draws 250 ms: the line is
    collected and then nothing moves. *)
Example producer_consumer_one_job :
  run (ProducerConsumer.step 1)
      [ProducerConsumer.SpawnProducer; ProducerConsumer.SpawnConsumer;
       ProducerConsumer.SpawnCloser; ProducerConsumer.Produce 0;
       ProducerConsumer.ProducerExit 0; ProducerConsumer.ConsumerRecv 0 250;
       ProducerConsumer.ConsumerSend 0; ProducerConsumer.Collect]
      (ProducerConsumer.init 1 1 1)
  = Some (ProducerConsumer.State
            [ProducerConsumer.Producer 1 ProducerConsumer.PDone]
            [ProducerConsumer.Consumer 1 ProducerConsumer.CRecv]
            1 1 1 (Chan.Build [] 1 false) (Chan.Build [] 1 false)
            ProducerConsumer.KWait
            ["Consumer 1 完成 job 1000 (用时 250ms)"%string] false None).
Proof. reflexivity. Qed.

(** *** The job numbers of [producer] *)

Lemma job_id_value (id i : Z) :
  0 <= id -> 0 <= i -> id * 1000 + i <= GoInt.max_int ->
  ProducerConsumer.job_id id i = id * 1000 + i.
Proof.
  intros Hid Hi Hmax. unfold ProducerConsumer.job_id, GoInt.add, GoInt.mul.
  rewrite GoInt.wrap_add_l. apply GoInt.wrap_small.
  unfold GoInt.in_range, GoInt.min_int, GoInt.max_int in *. lia.
Qed.

Lemma all_jobs_from_elem (count : Z) (a n : nat) (x : Z) :
  In x (concat (map (fun k => ProducerConsumer.jobs_of count (Z.of_nat k + 1))
                  (seq a n))) ->
  exists k i, (a <= k < a + n)%nat /\ 0 <= i < count /\
              x = ProducerConsumer.job_id (Z.of_nat k + 1) i.
Proof.
  revert a. induction n as [|n IH]; intros a; simpl; [intros []|].
  intros H. apply in_app_or in H as [H | H].
  - unfold ProducerConsumer.jobs_of in H. apply in_map_iff in H as (i & <- & Hi).
    apply list_elem_of_In, elem_of_seqZ in Hi. exists a, i. split; [lia|]. split; [lia | reflexivity].
  - destruct (IH _ H) as (k & i & Hk & Hi & Hx). exists k, i. split; [lia | auto].
Qed.

(** X13 — [producer] numbers its jobs [id*1000 + i], "a unique job ID".  That
    holds as long as no producer makes more than 1000 jobs (and the numbers
    fit an [int]): then all job numbers of all producers are different.
    With a 1001st job, producer [id] makes the number [(id+1)*1000], which is
    also the first number of producer [id+1]. *)
Theorem producer_job_ids_unique (numProducers : nat) (count : Z) :
  count <= 1000 -> (Z.of_nat numProducers + 1) * 1000 <= GoInt.max_int ->
  NoDup (ProducerConsumer.all_jobs count numProducers) /\
  (forall id, 0 <= id -> (id + 2) * 1000 <= GoInt.max_int ->
     ProducerConsumer.job_id id 1000 = ProducerConsumer.job_id (id + 1) 0).
Proof.
  intros Hcount Hmax. split.
  - unfold ProducerConsumer.all_jobs.
    assert (H : forall n a, (a + n <= numProducers)%nat ->
              NoDup (concat (map (fun k => ProducerConsumer.jobs_of count (Z.of_nat k + 1))
                               (seq a n)))).
    { induction n as [|n IH]; intros a Ha; simpl; [constructor|].
      apply NoDup_app. split; [|split].
      - unfold ProducerConsumer.jobs_of.
        apply (NoDup_fmap_2_strong (ProducerConsumer.job_id (Z.of_nat a + 1))).
        + intros i j Hi Hj E. apply elem_of_seqZ in Hi. apply elem_of_seqZ in Hj.
          rewrite !job_id_value in E by nia. lia.
        + apply NoDup_seqZ.
      - intros x Hx Hy. unfold ProducerConsumer.jobs_of in Hx.
        apply list_elem_of_fmap in Hx as (i & -> & Hi). apply elem_of_seqZ in Hi.
        apply list_elem_of_In in Hy.
        destruct (all_jobs_from_elem _ _ _ _ Hy) as (k & j & Hk & Hj & E).
        rewrite !job_id_value in E by nia. nia.
      - apply IH. lia. }
    apply H. lia.
  - intros id Hid Hm. rewrite !job_id_value by lia. lia.
Qed.

(** The source's two producers of ten jobs; and job 2000, made twice when
    producer 1 makes 1001 jobs. *)
Lemma producer_job_ids_unique_witness :
  NoDup (ProducerConsumer.all_jobs (Z.quot 20 2) 2) /\
  ProducerConsumer.job_id 1 1000 = 2000 /\ ProducerConsumer.job_id 2 0 = 2000.
Proof.
  split; [|split; reflexivity].
  refine (proj1 (producer_job_ids_unique 2 (Z.quot 20 2) _ _)).
  - change (Z.quot 20 2) with 10. lia.
  - unfold GoInt.max_int. lia.
Defined.
(** ** A buffered channel used by one goroutine: [bufferedChannelExample]

    [bufferedChannelExample] makes a channel with a buffer, sends values on
    it, prints [len(ch)] and [cap(ch)], and receives as many values as it
    sent, all in the one goroutine.  The source has capacity 3 and the
    values 1, 2, 3; both are parameters here.  A send or a receive that would
    wait leaves every goroutine asleep: the runtime ends the program. *)

Module Buffered.

Inductive outcome : Type :=
| Returned (len cap : nat) (received : list Z)
    (* what was printed for len(ch) and cap(ch), and the values received *)
| AllAsleep (sent : nat) (received : list Z)
    (* fatal error: all goroutines are asleep, after that many sends and
       with those values received *)
| Panicked (p : panic_kind).

(** [ch <- v1; ch <- v2; ...]: the channel after the sends, or how the
    program ends at a send, [done] sends having gone through. *)
Fixpoint send_all (vs : list Z) (done : nat) (c : Chan.chan Z) : Chan.chan Z + outcome :=
  match vs with
  | [] => inl c
  | v :: rest =>
      match Chan.send v c with
      | Chan.SendOk c' => send_all rest (S done) c'
      | Chan.SendBlock => inr (AllAsleep done [])
      | Chan.SendPanic => inr (Panicked SendOnClosedChannel)
      end
  end.

(** [<-ch] [n] times: the values received, and whether all [n] receives
    were served. *)
Fixpoint recv_n (n : nat) (c : Chan.chan Z) : list Z * bool :=
  match n with
  | O => ([], true)
  | S n' =>
      match Chan.recv c with
      | Chan.RecvOk v c' => let '(vs, ok) := recv_n n' c' in (v :: vs, ok)
      | Chan.RecvClosed => let '(vs, ok) := recv_n n' c in (0 :: vs, ok)
      | Chan.RecvBlock => ([], false)
      end
  end.

Definition bufferedChannel (capacity : nat) (vs : list Z) : outcome :=
  match send_all vs 0 (Chan.make capacity) with
  | inr o => o
  | inl c =>
      match recv_n (length vs) c with
      | (received, true) => Returned (length (Chan.buf c)) (Chan.cap c) received
      | (received, false) => AllAsleep (length vs) received
      end
  end.

(** The program of the source. *)
Definition bufferedChannelExample : outcome := bufferedChannel 3 [1; 2; 3].

Lemma send_all_fits (vs : list Z) (done : nat) (c : Chan.chan Z) :
  Chan.closed c = false ->
  (length (Chan.buf c) + length vs <= Chan.cap c)%nat ->
  send_all vs done c = inl (Chan.Build (Chan.buf c ++ vs) (Chan.cap c) false).
Proof.
  revert done c. induction vs as [|v vs IH]; intros done [b n cl]; simpl; intros -> Hlen.
  - rewrite app_nil_r. reflexivity.
  - unfold Chan.send; simpl.
    assert (E : (length b <? n)%nat = true) by (apply Nat.ltb_lt; lia).
    rewrite E, IH; simpl; [|reflexivity|rewrite length_app; simpl; lia].
    rewrite <- app_assoc. reflexivity.
Qed.

Lemma send_all_full (vs : list Z) (done : nat) (c : Chan.chan Z) :
  Chan.closed c = false ->
  (Chan.cap c < length (Chan.buf c) + length vs)%nat ->
  (length (Chan.buf c) <= Chan.cap c)%nat ->
  send_all vs done c
  = inr (AllAsleep (done + (Chan.cap c - length (Chan.buf c))) []).
Proof.
  revert done c. induction vs as [|v vs IH]; intros done [b n cl]; simpl;
    intros -> Hlen Hle; [lia|].
  unfold Chan.send; simpl.
  destruct (length b <? n)%nat eqn:E.
  - apply Nat.ltb_lt in E. rewrite IH; simpl; rewrite ?length_app; simpl; try lia; auto.
    do 2 f_equal. lia.
  - apply Nat.ltb_ge in E. do 2 f_equal. lia.
Qed.

Lemma recv_n_buffered (vs : list Z) (n : nat) (cl : bool) :
  recv_n (length vs) (Chan.Build vs n cl) = (vs, true).
Proof.
  induction vs as [|v vs IH]; simpl; [reflexivity|].
  unfold Chan.recv; simpl. rewrite IH. reflexivity.
Qed.
End Buffered.

(** X14 — One goroutine alone can send as many values as the buffer holds and
    then receive them back in the order sent: it returns, having printed the
    number of values for [len(ch)] and the capacity for [cap(ch)].  With one
    value more than the buffer holds, the send of that value waits for a
    receiver that does not exist, and the program ends with every goroutine
    asleep, after exactly [capacity] sends and before anything is received. *)
Theorem buffered_channel_fits_or_deadlocks (capacity : nat) (vs : list Z) :
  Buffered.bufferedChannel capacity vs
  = if (length vs <=? capacity)%nat
    then Buffered.Returned (length vs) capacity vs
    else Buffered.AllAsleep capacity [].
Proof.
  unfold Buffered.bufferedChannel.
  destruct (length vs <=? capacity)%nat eqn:E.
  - apply Nat.leb_le in E.
    rewrite Buffered.send_all_fits by (simpl; auto).
    simpl. rewrite Buffered.recv_n_buffered. reflexivity.
  - apply Nat.leb_gt in E.
    rewrite Buffered.send_all_full by (simpl; auto; lia).
    simpl. f_equal. lia.
Qed.

(** The source: capacity 3 and three values. *)
Example bufferedChannelExample_returns :
  Buffered.bufferedChannelExample = Buffered.Returned 3 3 [1; 2; 3].
Proof. reflexivity. Qed.
(** ** Waiting for goroutines: [waitGroupExample]

    [waitGroupExample] starts workers 1, 2, 3 (each after a [wg.Add(1)]);
    worker [id] prints that it starts, sleeps [id] seconds, prints that it
    has finished and, deferred, calls [wg.Done()].  The caller prints that it
    waits, waits for the wait group and prints that all work is done.  The
    number of workers is a parameter here.  Time is the logical clock of
    the other timed examples: steps take no time, and the clock advances to
    the next pending timer only when nobody can move. *)

Module WaitGroup.

Definition second : Z := 1000000000.

Inductive worker_pc : Type :=
| WNotStarted
| WStart            (* started, about to print and to sleep *)
| WSleep (until : Z)  (* in time.Sleep, to wake at [until] *)
| WDone.            (* returned, wg.Done() executed *)

Record worker : Type := Worker { wid : Z; wpc : worker_pc }.

Inductive main_pc : Type :=
| MSpawn   (* in the loop that starts the workers *)
| MWait    (* has printed that it waits; at wg.Wait() *)
| MDone.   (* has printed that all work is done *)

(** The lines printed. *)
Inductive event : Type :=
| Waiting             (* "等待所有worker完成..." *)
| Started (id : Z)    (* "Worker id 开始工作" *)
| Finished (id : Z)   (* "Worker id 完成工作" *)
| AllDone.            (* "所有工作完成！" *)

Record state : Type := State {
  now : Z;
  workers : list worker;
  spawned : nat;
  wg : Z;
  mainpc : main_pc;
  log : list event;           (* oldest first *)
  panic : option panic_kind
}.

Inductive label : Type :=
| Main             (* the next step of waitGroupExample itself *)
| Work (k : nat)   (* the next step of worker k+1 *)
| Tick.            (* everybody waits: the clock advances *)

Definition init (numWorkers : nat) : state :=
  State 0 (map (fun k => Worker (Z.of_nat k + 1) WNotStarted) (seq 0 numWorkers))
        0 0 MSpawn [] None.

Definition act_main (s : state) : option state :=
  match mainpc s with
  | MSpawn =>
      match workers s !! spawned s with
      | Some w =>   (* wg.Add(1); go func(id int) {...}(i) *)
          Some (State (now s) (<[spawned s := Worker (wid w) WStart]> (workers s))
                  (S (spawned s)) (wg s + 1) MSpawn (log s) None)
      | None =>
          Some (State (now s) (workers s) (spawned s) (wg s) MWait
                  (log s ++ [Waiting]) None)
      end
  | MWait =>
      if wg s =? 0
      then Some (State (now s) (workers s) (spawned s) (wg s) MDone
                   (log s ++ [AllDone]) None)
      else None
  | MDone => None
  end.

Definition act_work (k : nat) (s : state) : option state :=
  match workers s !! k with
  | Some (Worker id WStart) =>
      (* time.Sleep(time.Duration(id) * time.Second) *)
      Some (State (now s)
              (<[k := Worker id (WSleep (now s + GoInt.mul id second))]> (workers s))
              (spawned s) (wg s) (mainpc s) (log s ++ [Started id]) None)
  | Some (Worker id (WSleep u)) =>
      if u <=? now s
      then (* prints, returns; the deferred wg.Done() runs *)
        if wg s - 1 <? 0
        then Some (State (now s) (workers s) (spawned s) (wg s) (mainpc s)
                     (log s ++ [Finished id]) (Some NegativeWaitGroupCounter))
        else Some (State (now s) (<[k := Worker id WDone]> (workers s))
                     (spawned s) (wg s - 1) (mainpc s) (log s ++ [Finished id]) None)
      else None
  | _ => None
  end.

(** A worker that can move at time [t]. *)
Definition ready (t : Z) (w : worker) : bool :=
  match wpc w with
  | WStart => true
  | WSleep u => u <=? t
  | _ => false
  end.

Definition can_act (s : state) : bool :=
  match act_main s with
  | Some _ => true
  | None => existsb (ready (now s)) (workers s)
  end.

(** The earliest pending wake-up time. *)
Fixpoint next_timer (ws : list worker) : option Z :=
  match ws with
  | [] => None
  | w :: rest =>
      match wpc w, next_timer rest with
      | WSleep u, Some t => Some (Z.min u t)
      | WSleep u, None => Some u
      | _, r => r
      end
  end.

Definition step (l : label) (s : state) : option state :=
  match panic s with
  | Some _ => None
  | None =>
      match l with
      | Main => act_main s
      | Work k => act_work k s
      | Tick =>
          if can_act s then None
          else match next_timer (workers s) with
               | Some t => Some (State t (workers s) (spawned s) (wg s) (mainpc s)
                                   (log s) None)
               | None => None
               end
      end
  end.

(** The workers whose completion has been printed, in the order printed. *)
Fixpoint finished_of (lg : list event) : list Z :=
  match lg with
  | [] => []
  | Finished id :: rest => id :: finished_of rest
  | _ :: rest => finished_of rest
  end.


(** *** Invariant and measure *)

Section Proofs.
Variable numWorkers : nat.
Hypothesis durations_fit : Z.of_nat numWorkers * second <= GoInt.max_int.

(** When worker [k+1] wakes up. *)
Definition wake_time (k : nat) : Z := (Z.of_nat k + 1) * second.

(** The workers 1..m. *)
Definition ids (m : nat) : list Z := map (fun k => Z.of_nat k + 1) (seq 0 m).

Definition active (w : worker) : nat :=
  match wpc w with WStart | WSleep _ => 1 | _ => 0 end.

Definition worker_ok (s : state) (k : nat) (w : worker) : Prop :=
  wid w = Z.of_nat k + 1 /\
  (wpc w = WNotStarted <-> (spawned s <= k)%nat) /\
  (wpc w = WStart -> now s = 0) /\
  (forall u, wpc w = WSleep u -> u = wake_time k /\ now s <= u) /\
  (wpc w = WDone -> wake_time k <= now s).

Definition main_ok (s : state) : Prop :=
  match mainpc s with
  | MSpawn => now s = 0
  | MWait => spawned s = numWorkers
  | MDone =>
      spawned s = numWorkers /\ Forall (fun w => wpc w = WDone) (workers s) /\
      exists pre, log s = pre ++ [AllDone] /\ finished_of pre = ids numWorkers
  end.

Record inv (s : state) : Prop := Inv {
  inv_panic : panic s = None;
  inv_len : length (workers s) = numWorkers;
  inv_spawned : (spawned s <= numWorkers)%nat;
  inv_now : 0 <= now s <= Z.of_nat numWorkers * second;
  inv_workers : forall k w, workers s !! k = Some w -> worker_ok s k w;
  inv_wg : wg s = Z.of_nat (sum_list (map active (workers s)));
  inv_main : main_ok s;
  inv_order : exists m, (m <= numWorkers)%nat /\
                (forall k w, workers s !! k = Some w -> (wpc w = WDone <-> (k < m)%nat)) /\
                finished_of (log s) = ids m
}.

Definition worker_measure (t : Z) (w : worker) : nat :=
  match wpc w with
  | WNotStarted => 4
  | WStart => 3
  | WSleep u => 1 + (if t <? u then 1 else 0)
  | WDone => 0
  end.

Definition measure (s : state) : nat :=
  sum_list (map (worker_measure (now s)) (workers s))
  + match mainpc s with MSpawn => 2 | MWait => 1 | MDone => 0 end.

Lemma finished_of_app (l1 l2 : list event) :
  finished_of (l1 ++ l2) = finished_of l1 ++ finished_of l2.
Proof.
  induction l1 as [|e l1 IH]; simpl; [reflexivity|].
  destruct e; simpl; rewrite IH; reflexivity.
Qed.

Lemma ids_S (m : nat) : ids (S m) = ids m ++ [Z.of_nat m + 1].
Proof. unfold ids. rewrite seq_S, map_app. reflexivity. Qed.

Lemma existsb_false_lookup {B : Type} (f : B -> bool) (l : list B) (k : nat) (x : B) :
  existsb f l = false -> l !! k = Some x -> f x = false.
Proof.
  revert k. induction l as [|a l IH]; intros [|k] He Hk; simpl in *; try discriminate;
    apply orb_false_iff in He as [H1 H2].
  - inversion Hk; subst. exact H1.
  - eapply IH; eauto.
Qed.

Lemma existsb_false_intro {B : Type} (f : B -> bool) (l : list B) :
  (forall k x, l !! k = Some x -> f x = false) -> existsb f l = false.
Proof.
  induction l as [|a l IH]; intros H; simpl; [reflexivity|].
  rewrite (H 0%nat a eq_refl), IH; [reflexivity|].
  intros k x Hk. apply (H (S k) x Hk).
Qed.

(** The earliest timer is the timer of some sleeper, and no sleeper has an
    earlier one. *)
Lemma next_timer_min (ws : list worker) (t : Z) :
  next_timer ws = Some t ->
  (exists k w, ws !! k = Some w /\ wpc w = WSleep t) /\
  (forall k w u, ws !! k = Some w -> wpc w = WSleep u -> t <= u).
Proof.
  revert t. induction ws as [|w ws IH]; intros t H; simpl in H; [discriminate|].
  destruct (wpc w) as [| |u|] eqn:Hw.
  1, 2, 4: destruct (IH _ H) as [(k & w' & Hk & Hw') Hmin]; split;
    [exists (S k), w'; auto|];
    intros [|j] w'' u' Hj Hu; simpl in Hj; [|eapply Hmin; eauto];
    inversion Hj; subst; congruence.
  destruct (next_timer ws) as [t'|] eqn:Hn.
  - inversion H; subst; clear H.
    destruct (IH _ eq_refl) as [(k & w' & Hk & Hw') Hmin]. split.
    + destruct (Z.min_spec u t') as [[_ E] | [_ E]]; rewrite E.
      * exists 0%nat, w. auto.
      * exists (S k), w'. auto.
    + intros [|j] w'' u' Hj Hu; simpl in Hj.
      * inversion Hj; subst. rewrite Hw in Hu. inversion Hu; subst. lia.
      * specialize (Hmin _ _ _ Hj Hu). lia.
  - inversion H; subst; clear H. split; [exists 0%nat, w; auto|].
    intros [|j] w'' u' Hj Hu; simpl in Hj.
    + inversion Hj; subst. rewrite Hw in Hu. inversion Hu; subst. lia.
    + exfalso. clear - Hn Hj Hu. revert j Hj.
      induction ws as [|a ws IH]; intros j Hj; [destruct j; discriminate|].
      simpl in Hn. destruct j as [|j]; simpl in Hj.
      * inversion Hj; subst. rewrite Hu in Hn. destruct (next_timer ws); discriminate.
      * apply (IH ltac:(destruct (wpc a); auto; destruct (next_timer ws); discriminate) j Hj).
Qed.

Lemma next_timer_some (ws : list worker) (k : nat) (w : worker) (u : Z) :
  ws !! k = Some w -> wpc w = WSleep u -> is_Some (next_timer ws).
Proof.
  revert k. induction ws as [|a ws IH]; intros [|k] Hk Hu; simpl in *; try discriminate.
  - inversion Hk; subst. rewrite Hu. destruct (next_timer ws); eauto.
  - destruct (IH _ Hk Hu) as [t Ht]. rewrite Ht. destruct (wpc a); eauto.
Qed.

Lemma sum_list_strict {B : Type} (f g : B -> nat) (l : list B) (k : nat) (x : B) :
  (forall j y, l !! j = Some y -> (g y <= f y)%nat) ->
  l !! k = Some x -> (g x < f x)%nat ->
  (sum_list (map g l) < sum_list (map f l))%nat.
Proof.
  revert k. induction l as [|a l IH]; intros [|k] Hle Hk Hlt; simpl in *; try discriminate.
  - inversion Hk; subst.
    assert (H : (sum_list (map g l) <= sum_list (map f l))%nat).
    { clear - Hle. induction l as [|b l IH]; simpl; [lia|].
      pose proof (Hle 1%nat b eq_refl).
      assert (sum_list (map g l) <= sum_list (map f l))%nat; [|lia].
      apply IH. intros [|j] y Hj; [apply (Hle 0%nat) | apply (Hle (S (S j)))]; exact Hj. }
    lia.
  - pose proof (Hle 0%nat a eq_refl).
    assert (sum_list (map g l) < sum_list (map f l))%nat; [|lia].
    apply (IH k); auto. intros j y Hj. apply (Hle (S j) y Hj).
Qed.

Lemma wake_time_value (k : nat) :
  (k < numWorkers)%nat -> GoInt.mul (Z.of_nat k + 1) second = wake_time k.
Proof.
  intros Hk. unfold GoInt.mul, wake_time. apply GoInt.wrap_small.
  unfold GoInt.in_range, GoInt.min_int, GoInt.max_int, second in *. nia.
Qed.

Lemma wg_inv_init : inv (init numWorkers).
Proof.
  split; simpl.
  - reflexivity.
  - rewrite length_map, length_seq. reflexivity.
  - lia.
  - unfold second. lia.
  - intros k w Hk. rewrite list_lookup_fmap in Hk.
    destruct (seq 0 numWorkers !! k) as [i|] eqn:Hi; [|discriminate].
    apply lookup_seq in Hi as [-> _]. inversion Hk; subst.
    unfold worker_ok; simpl.
    split; [reflexivity|]. split; [split; [lia | reflexivity]|].
    split; [discriminate|]. split; [intros u; discriminate | discriminate].
  - rewrite map_map. simpl.
    assert (H : forall l : list nat, sum_list (map (fun _ => 0%nat) l) = 0%nat)
      by (induction l; simpl; auto).
    rewrite H. reflexivity.
  - unfold main_ok. simpl. reflexivity.
  - exists 0%nat. split; [lia|]. split; [|reflexivity].
    intros k w Hk. rewrite list_lookup_fmap in Hk.
    destruct (seq 0 numWorkers !! k); [|discriminate]. inversion Hk; subst. simpl.
    split; [discriminate | lia].
Qed.

Lemma second_pos : 0 < second.
Proof. reflexivity. Qed.

(** A worker still running keeps the caller from having finished. *)
Lemma main_not_done (s : state) (k : nat) (w : worker) :
  main_ok s -> workers s !! k = Some w -> wpc w <> WDone -> mainpc s <> MDone.
Proof.
  unfold main_ok. intros Hm Hk Hne E. rewrite E in Hm.
  destruct Hm as (_ & Hall & _). rewrite Forall_lookup in Hall. apply Hne, (Hall _ _ Hk).
Qed.

Lemma wg_inv_preserved : preserved step inv.
Proof.
  intros l s s' Hinv Hstep.
  pose proof Hinv as [Hp Hlen Hsp Hnow Hw Hwg Hmain (m & Hm & Hdone & Hfin)].
  pose proof second_pos as Hsec.
  unfold step in Hstep. rewrite Hp in Hstep.
  destruct l as [|k|].
  - (* Main *)
    unfold act_main in Hstep.
    destruct (mainpc s) eqn:Hmp.
    + destruct (workers s !! spawned s) as [w|] eqn:Hk.
      * inversion Hstep; subst s'; clear Hstep.
        pose proof (lookup_lt_Some _ _ _ Hk) as Hlt.
        destruct (Hw _ _ Hk) as (Hid & Hns & _).
        assert (Hns' : wpc w = WNotStarted) by (apply Hns; lia).
        assert (H0 : now s = 0) by (unfold main_ok in Hmain; rewrite Hmp in Hmain; exact Hmain).
        split; simpl.
        -- reflexivity.
        -- rewrite length_insert. exact Hlen.
        -- lia.
        -- exact Hnow.
        -- intros j w' Hj. apply lookup_insert_cases in Hj as [[-> ->]|[Hne Hj]].
           ++ unfold worker_ok; simpl. split; [exact Hid|].
              split; [split; [discriminate | lia]|]. split; [auto|].
              split; [intros u; discriminate | discriminate].
           ++ destruct (Hw _ _ Hj) as (H1 & H2 & H3 & H4 & H5).
              unfold worker_ok; simpl. split; [exact H1|].
              split; [split; intros Hx; [apply H2 in Hx; lia | apply H2; lia]|]. auto.
        -- pose proof (sum_list_insert active _ _ _ (Worker (wid w) WStart) Hk) as Hx.
           unfold active at 2 4 in Hx. rewrite Hns' in Hx. simpl in Hx. lia.
        -- unfold main_ok; simpl. exact H0.
        -- exists m. split; [exact Hm|]. split; [|exact Hfin].
           intros j w' Hj. apply lookup_insert_cases in Hj as [[-> ->]|[Hne Hj]];
             [|apply Hdone, Hj].
           simpl. split; [discriminate|]. intros Hx.
           apply (Hdone _ _ Hk) in Hx. congruence.
      * inversion Hstep; subst s'; clear Hstep.
        apply lookup_ge_None in Hk.
        split; simpl; auto.
        -- unfold main_ok; simpl. lia.
        -- exists m. split; [exact Hm|]. split; [exact Hdone|].
           rewrite finished_of_app. simpl. rewrite app_nil_r. exact Hfin.
    + destruct (wg s =? 0) eqn:E; [|discriminate]. apply Z.eqb_eq in E.
      inversion Hstep; subst s'; clear Hstep.
      assert (Hn : spawned s = numWorkers)
        by (unfold main_ok in Hmain; rewrite Hmp in Hmain; exact Hmain).
      assert (Hall : Forall (fun w => wpc w = WDone) (workers s)).
      { apply Forall_lookup_2. intros j w Hj.
        pose proof (sum_list_zero_lookup active (workers s) j w ltac:(lia) Hj) as Ha.
        pose proof (lookup_lt_Some _ _ _ Hj) as Hlt.
        destruct (Hw _ _ Hj) as (_ & Hns & _).
        unfold active in Ha. destruct (wpc w); try discriminate; [|reflexivity].
        destruct Hns as [Hx _]. specialize (Hx eq_refl). lia. }
      assert (Hmn : m = numWorkers).
      { destruct (decide (m = numWorkers)) as [|Hne]; [assumption|]. exfalso.
        destruct (lookup_lt_is_Some_2 (workers s) m ltac:(lia)) as [w Hj].
        rewrite Forall_lookup in Hall. pose proof (Hall _ _ Hj) as Hd.
        apply (Hdone _ _ Hj) in Hd. lia. }
      split; simpl; auto.
      -- unfold main_ok; simpl. split; [exact Hn|]. split; [exact Hall|].
         exists (log s). split; [reflexivity|]. rewrite Hfin, Hmn. reflexivity.
      -- exists m. split; [exact Hm|]. split; [exact Hdone|].
         rewrite finished_of_app. simpl. rewrite app_nil_r. exact Hfin.
    + discriminate.
  - (* Work k *)
    unfold act_work in Hstep.
    destruct (workers s !! k) as [[id pc]|] eqn:Hk; [|discriminate].
    pose proof (lookup_lt_Some _ _ _ Hk) as Hlt.
    destruct (Hw _ _ Hk) as (Hid & Hns & Hstart & Hsleep & Hdn). simpl in *.
    assert (Hothers : forall (s1 : state) j w',
              now s1 = now s -> spawned s1 = spawned s ->
              workers s !! j = Some w' -> worker_ok s1 j w').
    { intros s1 j w' E1 E2 Hj. unfold worker_ok. rewrite E1, E2. apply Hw, Hj. }
    assert (Hmain' : pc <> WDone -> forall ws' lg,
              length ws' = length (workers s) ->
              main_ok (State (now s) ws' (spawned s) (wg s) (mainpc s) lg None)).
    { intros Hne ws' lg Hl. pose proof (main_not_done s k _ Hmain Hk Hne) as Hmd.
      unfold main_ok in *; simpl. destruct (mainpc s); auto; congruence. }
    destruct pc as [| |u|]; try discriminate.
    + (* starts to sleep *)
      inversion Hstep; subst s'; clear Hstep.
      specialize (Hstart eq_refl).
      rewrite Hid, wake_time_value by lia.
      split; simpl.
      * reflexivity.
      * rewrite length_insert. exact Hlen.
      * exact Hsp.
      * exact Hnow.
      * intros j w' Hj. apply lookup_insert_cases in Hj as [[-> ->]|[Hne Hj]];
          [|apply Hothers; auto].
        unfold worker_ok; simpl. split; [reflexivity|].
        split; [split; [discriminate|]|].
        { intros Hx. apply Hns in Hx. discriminate. }
        split; [discriminate|]. split; [|discriminate].
        intros u E. inversion E; subst. unfold wake_time. nia.
      * pose proof (sum_list_insert active _ _ _
                      (Worker (Z.of_nat k + 1) (WSleep (now s + wake_time k))) Hk) as Hx.
        unfold active at 2 4 in Hx. simpl in Hx. lia.
      * apply Hmain'; [discriminate | apply length_insert].
      * exists m. split; [exact Hm|]. split.
        -- intros j w' Hj. apply lookup_insert_cases in Hj as [[-> ->]|[Hne Hj]];
             [|apply Hdone, Hj].
           simpl. split; [discriminate|]. intros Hx.
           apply (Hdone _ _ Hk) in Hx. discriminate.
        -- rewrite finished_of_app. simpl. rewrite app_nil_r. exact Hfin.
    + (* wakes up and returns *)
      destruct (u <=? now s) eqn:Hu; [|discriminate]. apply Z.leb_le in Hu.
      destruct (Hsleep _ eq_refl) as [Eu Hle].
      pose proof (sum_list_insert active _ _ _ (Worker id WDone) Hk) as Ha.
      unfold active at 2 4 in Ha. simpl in Ha.
      destruct (wg s - 1 <? 0) eqn:Hneg; [apply Z.ltb_lt in Hneg; lia|].
      inversion Hstep; subst s'; clear Hstep.
      assert (Hkm : k = m).
      { assert (Hge : ~ (k < m)%nat)
          by (intros Hx; apply (Hdone _ _ Hk) in Hx; discriminate).
        destruct (decide (k = m)) as [|Hne]; [assumption|]. exfalso.
        destruct (lookup_lt_is_Some_2 (workers s) m ltac:(lia)) as [[idm pcm] Hj].
        destruct (Hw _ _ Hj) as (_ & Hns' & Hst' & Hsl' & _). simpl in *.
        assert (Hnd : pcm <> WDone)
          by (intros Hx; apply (Hdone _ _ Hj) in Hx; simpl in Hx; lia).
        unfold wake_time in *.
        destruct pcm as [| |um|]; [| | |congruence].
        - destruct Hns' as [Hx _]. specialize (Hx eq_refl).
          pose proof (main_not_done s k _ Hmain Hk ltac:(discriminate)) as Hmd.
          unfold main_ok in Hmain. destruct (mainpc s); [nia | lia | congruence].
        - specialize (Hst' eq_refl). nia.
        - destruct (Hsl' _ eq_refl) as [E1 E2]. nia. }
      split; simpl.
      * reflexivity.
      * rewrite length_insert. exact Hlen.
      * exact Hsp.
      * exact Hnow.
      * intros j w' Hj. apply lookup_insert_cases in Hj as [[-> ->]|[Hne Hj]];
          [|apply Hothers; auto].
        unfold worker_ok; simpl. split; [exact Hid|].
        split; [split; [discriminate|]|].
        { intros Hx. apply Hns in Hx. discriminate. }
        split; [discriminate|]. split; [intros ?; discriminate|]. intros _. lia.
      * lia.
      * apply Hmain'; [discriminate | apply length_insert].
      * exists (S m). split; [lia|]. split.
        -- intros j w' Hj. apply lookup_insert_cases in Hj as [[-> ->]|[Hne Hj]].
           ++ simpl. split; [lia | reflexivity].
           ++ rewrite (Hdone _ _ Hj). lia.
        -- rewrite finished_of_app, Hfin, ids_S. simpl. rewrite Hid, Hkm. reflexivity.
  - (* Tick *)
    destruct (can_act s) eqn:Hact; [discriminate|].
    destruct (next_timer (workers s)) as [t|] eqn:Ht; [|discriminate].
    inversion Hstep; subst s'; clear Hstep.
    unfold can_act in Hact.
    destruct (act_main s) eqn:Hmainact; [discriminate|].
    pose proof (fun j w => existsb_false_lookup _ _ j w Hact) as Hnr.
    destruct (next_timer_min _ _ Ht) as [(k0 & w0 & Hk0 & Hw0) Hmin].
    assert (Hlt0 : now s < t).
    { pose proof (Hnr _ _ Hk0) as Hx. unfold ready in Hx. rewrite Hw0 in Hx.
      apply Z.leb_gt in Hx. exact Hx. }
    split; simpl; auto.
    + destruct (Hw _ _ Hk0) as (_ & _ & _ & H4 & _).
      destruct (H4 _ Hw0) as [E1 _]. apply lookup_lt_Some in Hk0.
      unfold wake_time in E1. nia.
    + intros j w Hj. destruct (Hw _ _ Hj) as (H1 & H2 & H3 & H4 & H5).
      pose proof (Hnr _ _ Hj) as Hx. unfold ready in Hx.
      unfold worker_ok; simpl. split; [exact H1|]. split; [exact H2|].
      split; [intros E; rewrite E in Hx; discriminate|].
      split; [|intros E; specialize (H5 E); lia].
      intros u E. destruct (H4 _ E) as [E1 E2]. split; [exact E1|].
      apply (Hmin _ _ _ Hj E).
    + unfold main_ok in *; simpl. unfold act_main in Hmainact.
      destruct (mainpc s); auto.
      destruct (workers s !! spawned s); discriminate.
    + exists m. auto.
Qed.

Lemma wg_measure_decreasing : decreasing step inv measure.
Proof.
  intros l s s' Hinv Hstep.
  pose proof Hinv as [Hp Hlen Hsp Hnow Hw Hwg Hmain _].
  unfold step in Hstep. rewrite Hp in Hstep. unfold measure.
  destruct l as [|k|].
  - unfold act_main in Hstep.
    destruct (mainpc s) eqn:Hmp.
    + destruct (workers s !! spawned s) as [w|] eqn:Hk.
      * inversion Hstep; subst s'; clear Hstep. simpl.
        destruct (Hw _ _ Hk) as (_ & Hns & _).
        assert (Hns' : wpc w = WNotStarted) by (apply Hns; lia).
        pose proof (sum_list_insert (worker_measure (now s)) _ _ _
                      (Worker (wid w) WStart) Hk) as Hx.
        unfold worker_measure at 2 4 in Hx. rewrite Hns' in Hx. simpl in Hx. lia.
      * inversion Hstep; subst s'; clear Hstep. simpl. lia.
    + destruct (wg s =? 0); [|discriminate].
      inversion Hstep; subst s'; clear Hstep. simpl. lia.
    + discriminate.
  - unfold act_work in Hstep.
    destruct (workers s !! k) as [[id pc]|] eqn:Hk; [|discriminate].
    destruct pc as [| |u|]; try discriminate.
    + inversion Hstep; subst s'; clear Hstep. simpl.
      pose proof (sum_list_insert (worker_measure (now s)) _ _ _
                    (Worker id (WSleep (now s + GoInt.mul id second))) Hk) as Hx.
      unfold worker_measure at 2 4 in Hx. simpl in Hx.
      destruct (now s <? now s + GoInt.mul id second); lia.
    + destruct (u <=? now s) eqn:Hu; [|discriminate].
      pose proof (sum_list_insert active _ _ _ (Worker id WDone) Hk) as Ha.
      unfold active at 2 4 in Ha. simpl in Ha.
      destruct (wg s - 1 <? 0) eqn:Hneg; [apply Z.ltb_lt in Hneg; lia|].
      inversion Hstep; subst s'; clear Hstep. simpl.
      pose proof (sum_list_insert (worker_measure (now s)) _ _ _ (Worker id WDone) Hk)
        as Hx.
      unfold worker_measure at 2 4 in Hx. simpl in Hx. lia.
  - destruct (can_act s) eqn:Hact; [discriminate|].
    destruct (next_timer (workers s)) as [t|] eqn:Ht; [|discriminate].
    inversion Hstep; subst s'; clear Hstep. simpl.
    unfold can_act in Hact. destruct (act_main s); [discriminate|].
    pose proof (fun j w => existsb_false_lookup _ _ j w Hact) as Hnr.
    destruct (next_timer_min _ _ Ht) as [(k0 & w0 & Hk0 & Hw0) Hmin].
    assert (Hlt0 : now s < t).
    { pose proof (Hnr _ _ Hk0) as Hx. unfold ready in Hx. rewrite Hw0 in Hx.
      apply Z.leb_gt in Hx. exact Hx. }
    assert (Hs : (sum_list (map (worker_measure t) (workers s))
                  < sum_list (map (worker_measure (now s)) (workers s)))%nat).
    { apply (sum_list_strict _ _ _ k0 w0); [|exact Hk0|].
      - intros j w Hj. unfold worker_measure. destruct (wpc w) as [| |u|]; try lia.
        destruct (t <? u) eqn:E1, (now s <? u) eqn:E2; try lia;
          apply Z.ltb_lt in E1; apply Z.ltb_ge in E2; lia.
      - unfold worker_measure. rewrite Hw0.
        rewrite Z.ltb_irrefl. apply Z.ltb_lt in Hlt0. rewrite Hlt0. lia. }
    lia.
Qed.

(** The end of every run: the caller has printed that all work is done,
    after the completions of the workers 1, 2, ..., in that order, and the
    clock shows the sleep of the last worker. *)
Definition final (s : state) : Prop :=
  mainpc s = MDone /\
  (exists pre, log s = pre ++ [AllDone] /\ finished_of pre = ids numWorkers) /\
  now s = Z.of_nat numWorkers * second.

Lemma wg_stuck_final (s : state) : inv s -> stuck step s -> final s.
Proof.
  intros Hinv Hstuck.
  pose proof Hinv as [Hp Hlen Hsp Hnow Hw Hwg Hmain _].
  pose proof second_pos as Hsec.
  assert (Hstep : forall l, step l s = None) by exact Hstuck. clear Hstuck.
  unfold step in Hstep. rewrite Hp in Hstep.
  pose proof (Hstep Main) as HM. unfold act_main in HM.
  destruct (mainpc s) eqn:Hmp.
  - destruct (workers s !! spawned s); discriminate.
  - exfalso. destruct (wg s =? 0) eqn:E; [discriminate|]. apply Z.eqb_neq in E.
    destruct (sum_list_pos_lookup active (workers s)) as (k & [id pc] & Hk & Ha); [lia|].
    pose proof (Hstep (Work k)) as HW. unfold act_work in HW. rewrite Hk in HW.
    unfold active in Ha. simpl in Ha.
    destruct pc as [| |u|]; try discriminate; try lia.
    destruct (u <=? now s) eqn:Hu; [destruct (wg s - 1 <? 0); discriminate|].
    pose proof (Hstep Tick) as HT.
    destruct (next_timer_some _ _ _ _ Hk eq_refl) as [t Ht]. rewrite Ht in HT.
    destruct (can_act s) eqn:Hact; [|discriminate].
    unfold can_act, act_main in Hact. rewrite Hmp in Hact.
    apply Z.eqb_neq in E. rewrite E in Hact.
    rewrite existsb_false_intro in Hact; [discriminate|].
    intros j [idj pcj] Hj. unfold ready; simpl.
    pose proof (Hstep (Work j)) as HJ. unfold act_work in HJ. rewrite Hj in HJ.
    destruct pcj as [| |uj|]; try reflexivity; [discriminate|].
    destruct (uj <=? now s); [destruct (wg s - 1 <? 0); discriminate | reflexivity].
  - unfold main_ok in Hmain. rewrite Hmp in Hmain.
    destruct Hmain as (Hn & Hall & Hpre).
    split; [exact Hmp|]. split; [exact Hpre|].
    destruct numWorkers as [|n] eqn:En; [simpl in *; lia|].
    destruct (lookup_lt_is_Some_2 (workers s) n ltac:(lia)) as [w Hk].
    rewrite Forall_lookup in Hall. pose proof (Hall _ _ Hk) as Hd.
    destruct (Hw _ _ Hk) as (_ & _ & _ & _ & H5). specialize (H5 Hd).
    unfold wake_time in H5. lia.
Qed.

End Proofs.

Definition labels_of (s : state) : list label :=
  [Main; Tick] ++ map Work (seq 0 (length (workers s))).

Lemma wg_can_move (s : state) : stuck step s \/ exists l s', step l s = Some s'.
Proof.
  apply (stuck_or_move step (labels_of s)).
  intros l s' Hstep. unfold labels_of.
  unfold step in Hstep. destruct (panic s); [discriminate|].
  destruct l as [|k|]; simpl; auto.
  do 2 right. apply in_map, in_seq. unfold act_work in Hstep.
  destruct (workers s !! k) eqn:Hk; [|discriminate].
  apply lookup_lt_Some in Hk. lia.
Qed.


(** [waitGroupExample]: three workers. *)
Definition waitGroupExample : state := init 3.
End WaitGroup.

(** X15 — [waitGroupExample] waits for its workers, which finish in the order of
    their numbers.  For every number of workers (whose sleeps fit a
    [time.Duration]) and along every schedule: nothing panics; the
    completions printed so far are those of the workers 1, 2, ..., m, in that
    order, where exactly the first [m] workers have returned; once the
    caller has printed that all work is done, that line is the last one and
    all [numWorkers] completions come before it; no schedule is longer than
    the initial measure; when nothing can move any more the caller has
    printed that line and the clock shows [numWorkers] seconds, the sleep of
    the last worker; and every reachable state can be run on to that end. *)
Theorem wait_group_example_waits_in_order (numWorkers : nat)
    (sched : list WaitGroup.label) (s : WaitGroup.state) :
  Z.of_nat numWorkers * WaitGroup.second <= GoInt.max_int ->
  run WaitGroup.step sched (WaitGroup.init numWorkers) = Some s ->
  WaitGroup.panic s = None /\
  (exists m, (m <= numWorkers)%nat /\
     (forall k w, WaitGroup.workers s !! k = Some w ->
        (WaitGroup.wpc w = WaitGroup.WDone <-> (k < m)%nat)) /\
     WaitGroup.finished_of (WaitGroup.log s) = WaitGroup.ids m) /\
  (WaitGroup.mainpc s = WaitGroup.MDone ->
     exists pre, WaitGroup.log s = pre ++ [WaitGroup.AllDone] /\
                 WaitGroup.finished_of pre = WaitGroup.ids numWorkers) /\
  (length sched <= WaitGroup.measure (WaitGroup.init numWorkers))%nat /\
  (stuck WaitGroup.step s -> WaitGroup.final numWorkers s) /\
  (exists sched' s',
      run WaitGroup.step sched' s = Some s' /\ stuck WaitGroup.step s' /\
      WaitGroup.final numWorkers s').
Proof.
  intros Hfit Hrun.
  destruct (run_total WaitGroup.step (WaitGroup.inv numWorkers)
              (WaitGroup.final numWorkers) WaitGroup.measure
              (WaitGroup.init numWorkers)
              (WaitGroup.wg_inv_init numWorkers)
              (WaitGroup.wg_inv_preserved numWorkers Hfit)
              (WaitGroup.wg_measure_decreasing numWorkers)
              (fun s0 _ => WaitGroup.wg_can_move s0)
              (WaitGroup.wg_stuck_final numWorkers Hfit) sched s Hrun)
    as (Hinv & Hlen & Hst & Hex).
  destruct Hinv as [Hp _ _ _ _ _ Hmain Hord].
  split; [exact Hp|]. split; [exact Hord|].
  split; [|split; [lia | split; [exact Hst | exact Hex]]].
  intros Hd. unfold WaitGroup.main_ok in Hmain. rewrite Hd in Hmain. apply Hmain.
Qed.

(** One worker: it is started, the caller waits, the worker sleeps its
    second, finishes, and the caller goes on. *)
Definition wg_sched_one : list WaitGroup.label :=
  [WaitGroup.Main; WaitGroup.Main; WaitGroup.Work 0; WaitGroup.Tick;
   WaitGroup.Work 0; WaitGroup.Main].

Definition wg_end_one : WaitGroup.state :=
  WaitGroup.State 1000000000 [WaitGroup.Worker 1 WaitGroup.WDone] 1 0 WaitGroup.MDone
    [WaitGroup.Waiting; WaitGroup.Started 1; WaitGroup.Finished 1; WaitGroup.AllDone]
    None.

Lemma wait_group_example_waits_in_order_witness :
  run WaitGroup.step wg_sched_one (WaitGroup.init 1) = Some wg_end_one /\
  WaitGroup.panic wg_end_one = None /\
  exists sched s,
    run WaitGroup.step sched WaitGroup.waitGroupExample = Some s /\
    stuck WaitGroup.step s /\
    WaitGroup.finished_of (WaitGroup.log s) = [1; 2; 3] /\
    WaitGroup.now s = 3 * WaitGroup.second.
Proof.
  split; [reflexivity|]. split.
  - refine (proj1 (wait_group_example_waits_in_order 1 wg_sched_one wg_end_one _ eq_refl)).
    unfold WaitGroup.second, GoInt.max_int. lia.
  - destruct (wait_group_example_waits_in_order 3 [] WaitGroup.waitGroupExample)
      as (_ & _ & _ & _ & _ & sched & s & H1 & H2 & H3 & (pre & H4 & H5) & H6);
      [unfold WaitGroup.second, GoInt.max_int; lia | reflexivity |].
    exists sched, s. split; [exact H1|]. split; [exact H2|]. split; [|exact H6].
    rewrite H4, WaitGroup.finished_of_app, H5. reflexivity.
Defined.
(** ** Fan-out with its workers: [fanOutExample]

    [fanOutExample] starts a goroutine that sends its values on [input] and
    closes it, calls [fanOut], and starts one worker per output (each after a
    [wg.Add(1)]) that ranges over its output, squares what it receives and
    prints it; then it waits for the wait group.  All channels are
    unbuffered: a send and the matching receive are one step.  The source
    sends 1..10 to three workers; the values and the number of workers are
    parameters here.  The two goroutines started before the workers are
    there from the first state on (not having moved yet).  [time.Sleep] and
    printing only take time; what a worker prints is kept as the list of its
    pairs (data, result). *)

Module FanOutWorkers.

(** [for ... { input <- i }; close(input)] over the values still to send. *)
Inductive source_pc : Type :=
| SRun (todo : list Z)
| SDone.

(** The goroutine of [fanOut]. *)
Inductive disp_pc : Type :=
| DRecv (i : Z)              (* at the receive of range input, counter i *)
| DSend (i : Z) (data : Z)   (* at outputs[i%numWorkers] <- data *)
| DClose (j : nat) (p : option panic_kind)
    (* in the deferred loop, about to close outputs[j]; p is the panic that
       ended the loop, if one did *)
| DDone.

(** [for data := range ch { result := data * data; ... }] *)
Inductive worker_pc : Type :=
| WNotStarted
| WRecv       (* at the receive of range ch *)
| WDone.      (* returned, wg.Done() executed *)

Record worker : Type := Worker { wpc : worker_pc; processed : list (Z * Z) }.

Inductive main_pc : Type :=
| MSpawn   (* in the loop that starts the workers *)
| MWait    (* at wg.Wait() *)
| MDone.   (* returned *)

Record state : Type := State {
  source : source_pc;
  input_closed : bool;
  disp : disp_pc;
  outputs_closed : list bool;   (* per output: whether it is closed *)
  workers : list worker;
  spawned : nat;                (* workers started so far *)
  wg : Z;
  mainpc : main_pc;
  panic : option panic_kind
}.

Inductive label : Type :=
| SourceSend          (* input <- i meets the receive of fanOut's goroutine *)
| SourceClose         (* close(input) *)
| Disp                (* the next step of fanOut's goroutine on its own *)
| WorkerEnd (k : nat) (* worker k+1 finds its channel closed: wg.Done() *)
| Main.               (* the next step of fanOutExample itself *)

Definition init (vs : list Z) (numWorkers : nat) : state :=
  State (SRun vs) false (DRecv 0) (replicate numWorkers false)
        (replicate numWorkers (Worker WNotStarted [])) 0 0 MSpawn None.

Definition set_panic (s : state) (p : panic_kind) : state :=
  State (source s) (input_closed s) (disp s) (outputs_closed s) (workers s)
        (spawned s) (wg s) (mainpc s) (Some p).

Definition set_disp (s : state) (d : disp_pc) : state :=
  State (source s) (input_closed s) d (outputs_closed s) (workers s)
        (spawned s) (wg s) (mainpc s) None.

Section Model.
Variable numWorkers : nat.

Definition step_source_send (s : state) : option state :=
  match source s with
  | SRun (v :: rest) =>
      if input_closed s then Some (set_panic s SendOnClosedChannel)
      else match disp s with
           | DRecv i =>
               Some (State (SRun rest) (input_closed s) (DSend i v)
                       (outputs_closed s) (workers s) (spawned s) (wg s)
                       (mainpc s) None)
           | _ => None
           end
  | _ => None
  end.

Definition step_source_close (s : state) : option state :=
  match source s with
  | SRun [] =>
      if input_closed s then Some (set_panic s CloseOfClosedChannel)
      else Some (State SDone true (disp s) (outputs_closed s) (workers s)
                   (spawned s) (wg s) (mainpc s) None)
  | _ => None
  end.

Definition step_disp (s : state) : option state :=
  match disp s with
  | DRecv i =>
      (* range input ends when input is closed: the deferred closes start *)
      if input_closed s then Some (set_disp s (DClose 0 None)) else None
  | DSend i data =>
      if Z.of_nat numWorkers =? 0
      then Some (set_disp s (DClose 0 (Some IntegerDivideByZero)))
      else
        let idx := Z.rem i (Z.of_nat numWorkers) in
        if (idx <? 0) || (Z.of_nat (length (outputs_closed s)) <=? idx)
        then Some (set_disp s (DClose 0 (Some IndexOutOfRange)))
        else
          match outputs_closed s !! Z.to_nat idx with
          | Some false =>
              match workers s !! Z.to_nat idx with
              | Some (Worker WRecv done) =>
                  Some (State (source s) (input_closed s) (DRecv (GoInt.add i 1))
                          (outputs_closed s)
                          (<[Z.to_nat idx :=
                               Worker WRecv (done ++ [(data, GoInt.mul data data)])]>
                             (workers s))
                          (spawned s) (wg s) (mainpc s) None)
              | _ => None   (* nobody receives from that output now *)
              end
          | Some true => Some (set_disp s (DClose 0 (Some SendOnClosedChannel)))
          | None => Some (set_disp s (DClose 0 (Some IndexOutOfRange)))
          end
  | DClose j p =>
      match outputs_closed s !! j with
      | Some false =>
          Some (State (source s) (input_closed s) (DClose (S j) p)
                  (<[j := true]> (outputs_closed s)) (workers s) (spawned s)
                  (wg s) (mainpc s) None)
      | Some true => Some (set_panic s CloseOfClosedChannel)
      | None =>
          match p with
          | None => Some (set_disp s DDone)
          | Some q => Some (set_panic s q)
          end
      end
  | DDone => None
  end.

Definition step_worker_end (k : nat) (s : state) : option state :=
  match workers s !! k, outputs_closed s !! k with
  | Some (Worker WRecv done), Some true =>
      if wg s - 1 <? 0 then Some (set_panic s NegativeWaitGroupCounter)
      else Some (State (source s) (input_closed s) (disp s) (outputs_closed s)
                   (<[k := Worker WDone done]> (workers s)) (spawned s)
                   (wg s - 1) (mainpc s) None)
  | _, _ => None
  end.

Definition step_main (s : state) : option state :=
  match mainpc s with
  | MSpawn =>
      match workers s !! spawned s with
      | Some w =>   (* wg.Add(1); go func(workerID int, ch <-chan int) {...}(i+1, output) *)
          Some (State (source s) (input_closed s) (disp s) (outputs_closed s)
                  (<[spawned s := Worker WRecv (processed w)]> (workers s))
                  (S (spawned s)) (wg s + 1) MSpawn None)
      | None =>
          Some (State (source s) (input_closed s) (disp s) (outputs_closed s)
                  (workers s) (spawned s) (wg s) MWait None)
      end
  | MWait =>
      if wg s =? 0
      then Some (State (source s) (input_closed s) (disp s) (outputs_closed s)
                   (workers s) (spawned s) (wg s) MDone None)
      else None
  | MDone => None
  end.

Definition step (l : label) (s : state) : option state :=
  match panic s with
  | Some _ => None
  | None =>
      match l with
      | SourceSend => step_source_send s
      | SourceClose => step_source_close s
      | Disp => step_disp s
      | WorkerEnd k => step_worker_end k s
      | Main => step_main s
      end
  end.
End Model.

(** What a worker prints for [data]: the pair with its square. *)
Definition squared (data : Z) : Z * Z := (data, GoInt.mul data data).

(** *** Invariant and measure *)

Section Proofs.
Variable vs : list Z.
Variable numWorkers : nat.
Hypothesis some_worker : (1 <= numWorkers)%nat.
Hypothesis countable : Z.of_nat (length vs) <= GoInt.max_int.

(** What worker [k+1] has printed when the first [n] values are dealt. *)
Definition share (k n : nat) : list (Z * Z) :=
  map squared (FanOut.residue_class numWorkers k 0 (take n vs)).

Definition rest (p : source_pc) : list Z :=
  match p with SRun todo => todo | SDone => [] end.

Definition is_sdone (p : source_pc) : bool :=
  match p with SDone => true | _ => false end.

Definition active (w : worker) : nat :=
  match wpc w with WRecv => 1 | _ => 0 end.

Definition disp_ok (s : state) (n : nat) : Prop :=
  match disp s with
  | DRecv i =>
      i = Z.of_nat n /\ rest (source s) = drop n vs /\
      Forall (fun b => b = false) (outputs_closed s)
  | DSend i data =>
      i = Z.of_nat n /\ vs !! n = Some data /\ rest (source s) = drop (S n) vs /\
      Forall (fun b => b = false) (outputs_closed s)
  | DClose j p =>
      p = None /\ n = length vs /\ source s = SDone /\ (j <= numWorkers)%nat /\
      forall k b, outputs_closed s !! k = Some b -> (b = true <-> (k < j)%nat)
  | DDone =>
      n = length vs /\ source s = SDone /\
      Forall (fun b => b = true) (outputs_closed s)
  end.

Definition main_ok (s : state) : Prop :=
  match mainpc s with
  | MSpawn => True
  | MWait => spawned s = numWorkers
  | MDone => spawned s = numWorkers /\ Forall (fun w => wpc w = WDone) (workers s)
  end.

Record inv (s : state) : Prop := Inv {
  inv_panic : panic s = None;
  inv_lenw : length (workers s) = numWorkers;
  inv_leno : length (outputs_closed s) = numWorkers;
  inv_spawned : (spawned s <= numWorkers)%nat;
  inv_input : input_closed s = is_sdone (source s);
  inv_disp : exists n, (n <= length vs)%nat /\ disp_ok s n /\
               forall k w, workers s !! k = Some w -> processed w = share k n;
  inv_workers : forall k w, workers s !! k = Some w ->
                  (wpc w = WNotStarted <-> (spawned s <= k)%nat) /\
                  (wpc w = WDone -> outputs_closed s !! k = Some true);
  inv_wg : wg s = Z.of_nat (sum_list (map active (workers s)));
  inv_main : main_ok s
}.

Definition source_measure (p : source_pc) : nat :=
  match p with SRun todo => 2 * length todo + 1 | SDone => 0 end.

Definition disp_measure (d : disp_pc) : nat :=
  match d with
  | DRecv _ => numWorkers + 2
  | DSend _ _ => numWorkers + 3
  | DClose j _ => numWorkers + 1 - j
  | DDone => 0
  end.

Definition worker_measure (w : worker) : nat :=
  match wpc w with WNotStarted => 2 | WRecv => 1 | WDone => 0 end.

Definition measure (s : state) : nat :=
  source_measure (source s) + disp_measure (disp s)
  + sum_list (map worker_measure (workers s))
  + match mainpc s with MSpawn => 2 | MWait => 1 | MDone => 0 end.

Lemma residue_class_app (K k i : nat) (xs ys : list Z) :
  FanOut.residue_class K k i (xs ++ ys)
  = FanOut.residue_class K k i xs ++ FanOut.residue_class K k (i + length xs) ys.
Proof.
  revert i. induction xs as [|x xs IH]; intros i; simpl.
  - rewrite Nat.add_0_r. reflexivity.
  - rewrite IH. replace (S i + length xs)%nat with (i + S (length xs))%nat by lia.
    destruct (i mod K =? k)%nat; reflexivity.
Qed.

Lemma share_next (k n : nat) (data : Z) :
  vs !! n = Some data ->
  share k (S n)
  = share k n ++ (if (n mod numWorkers =? k)%nat then [squared data] else []).
Proof.
  intros Hn. unfold share.
  rewrite (take_S_r _ _ _ Hn), residue_class_app, map_app. f_equal.
  simpl. rewrite length_take. pose proof (lookup_lt_Some _ _ _ Hn) as Hlt.
  rewrite Nat.min_l by lia.
  destruct (n mod numWorkers =? k)%nat; reflexivity.
Qed.

Lemma share_all (k n : nat) : (length vs <= n)%nat ->
  share k n = map squared (FanOut.residue_class numWorkers k 0 vs).
Proof. intros H. unfold share. rewrite take_ge by lia. reflexivity. Qed.

Lemma drop_cons_lookup (n : nat) (v : Z) (r : list Z) :
  drop n vs = v :: r -> vs !! n = Some v /\ drop (S n) vs = r.
Proof.
  intros H. assert (Hn : vs !! n = Some v).
  { pose proof (lookup_drop vs n 0) as E. rewrite H, Nat.add_0_r in E.
    simpl in E. congruence. }
  split; [exact Hn|]. rewrite (drop_S _ _ _ Hn) in H. congruence.
Qed.

Lemma fo_inv_init : inv (init vs numWorkers).
Proof.
  split; simpl.
  - reflexivity.
  - apply length_replicate.
  - apply length_replicate.
  - lia.
  - reflexivity.
  - exists 0%nat. split; [lia|]. split.
    + unfold disp_ok; simpl. split; [reflexivity|]. split; [reflexivity|].
      apply Forall_replicate. reflexivity.
    + intros k w Hk. apply lookup_replicate in Hk as [-> _]. reflexivity.
  - intros k w Hk. apply lookup_replicate in Hk as [-> _]. simpl.
    split; [split; [intros; lia | intros; reflexivity] | intros; discriminate].
  - assert (H : forall m, sum_list (map active (replicate m (Worker WNotStarted []))) = 0%nat)
      by (induction m; simpl; auto).
    rewrite H. reflexivity.
  - exact I.
Qed.

Lemma active_pos (ws : list worker) (k : nat) (done : list (Z * Z)) :
  ws !! k = Some (Worker WRecv done) -> (1 <= sum_list (map active ws))%nat.
Proof.
  revert k. induction ws as [|w ws IH]; intros [|k] Hk; simpl in *; try discriminate.
  - inversion Hk; subst. simpl. lia.
  - specialize (IH _ Hk). lia.
Qed.

Lemma not_all_done (s : state) (k : nat) (done : list (Z * Z)) :
  main_ok s -> workers s !! k = Some (Worker WRecv done) ->
  mainpc s <> MDone.
Proof.
  unfold main_ok. intros Hmain Hk Hm. rewrite Hm in Hmain.
  destruct Hmain as [_ Hall]. rewrite Forall_lookup in Hall.
  specialize (Hall _ _ Hk). discriminate.
Qed.

Lemma fo_inv_preserved : preserved (step numWorkers) inv.
Proof.
  intros l s s' Hinv Hstep.
  pose proof Hinv as [Hp Hlw Hlo Hsp Hin (n & Hn & Hd & Hsh) Hw Hwg Hmain].
  unfold step in Hstep. rewrite Hp in Hstep.
  destruct l as [| | |k|].
  - (* SourceSend *)
    unfold step_source_send in Hstep.
    destruct (source s) as [[|v r]|] eqn:Hsrc; try discriminate.
    simpl in Hin. rewrite Hin in Hstep.
    destruct (disp s) as [i| | |] eqn:Hdp; try discriminate.
    inversion Hstep; subst s'; clear Hstep.
    unfold disp_ok in Hd. rewrite Hdp, Hsrc in Hd. simpl in Hd.
    destruct Hd as (Hi & Hr & Ho). symmetry in Hr.
    apply drop_cons_lookup in Hr as [H1 H2].
    split; [reflexivity | exact Hlw | exact Hlo | exact Hsp | reflexivity | | exact Hw
            | exact Hwg | exact Hmain].
    exists n. split; [exact Hn|]. split; [|exact Hsh].
    unfold disp_ok; simpl. auto.
  - (* SourceClose *)
    unfold step_source_close in Hstep.
    destruct (source s) as [[|v r]|] eqn:Hsrc; try discriminate.
    simpl in Hin. rewrite Hin in Hstep.
    inversion Hstep; subst s'; clear Hstep.
    split; [reflexivity | exact Hlw | exact Hlo | exact Hsp | reflexivity | | exact Hw
            | exact Hwg | exact Hmain].
    exists n. split; [exact Hn|]. split; [|exact Hsh].
    unfold disp_ok in Hd |- *; simpl. rewrite Hsrc in Hd. simpl in Hd.
    destruct (disp s); simpl; intuition congruence.
  - (* Disp *)
    unfold step_disp in Hstep.
    destruct (disp s) as [i|i data|j p|] eqn:Hdp; try discriminate.
    + (* the range over input ends *)
      destruct (input_closed s) eqn:Hic; [|discriminate].
      inversion Hstep; subst s'; clear Hstep.
      unfold disp_ok in Hd. rewrite Hdp in Hd. destruct Hd as (Hi & Hr & Ho).
      assert (Hsrc : source s = SDone)
        by (destruct (source s); [discriminate Hin | reflexivity]).
      rewrite Hsrc in Hr. simpl in Hr.
      assert (Hnn : n = length vs).
      { pose proof (length_drop vs n) as Hl. rewrite <- Hr in Hl. simpl in Hl. lia. }
      split; [reflexivity | exact Hlw | exact Hlo | exact Hsp
              | simpl; rewrite Hic; exact Hin | | exact Hw | exact Hwg | exact Hmain].
      exists n. split; [exact Hn|]. split; [|exact Hsh].
      unfold disp_ok; simpl. split; [reflexivity|]. split; [exact Hnn|].
      split; [exact Hsrc|]. split; [lia|]. intros k b Hk. rewrite Forall_lookup in Ho.
      rewrite (Ho _ _ Hk). split; [discriminate | lia].
    + (* a value is handed to its worker *)
      unfold disp_ok in Hd. rewrite Hdp in Hd. destruct Hd as (Hi & Hdata & Hr & Ho).
      subst i.
      assert (HK0 : (Z.of_nat numWorkers =? 0) = false) by (apply Z.eqb_neq; lia).
      pose proof (Nat.mod_upper_bound n numWorkers ltac:(lia)) as Hmod.
      pose proof (lookup_lt_Some _ _ _ Hdata) as Hlt.
      rewrite HK0, (FanOut.rem_index n numWorkers some_worker), Nat2Z.id in Hstep.
      assert (Hb : (Z.of_nat (n mod numWorkers) <? 0)
                   || (Z.of_nat (length (outputs_closed s)) <=? Z.of_nat (n mod numWorkers))
                   = false).
      { apply orb_false_iff. split; [apply Z.ltb_ge | apply Z.leb_gt]; lia. }
      rewrite Hb in Hstep.
      destruct (lookup_lt_is_Some_2 (outputs_closed s) (n mod numWorkers)
                  ltac:(lia)) as [b Hob].
      rewrite Forall_lookup in Ho. pose proof (Ho _ _ Hob) as ->.
      rewrite Hob in Hstep.
      destruct (workers s !! (n mod numWorkers)%nat) as [[[] done]|] eqn:Hwk;
        try discriminate.
      inversion Hstep; subst s'; clear Hstep.
      assert (Hadd : GoInt.add (Z.of_nat n) 1 = Z.of_nat (S n)).
      { unfold GoInt.add. rewrite GoInt.wrap_small; [lia|].
        unfold GoInt.in_range, GoInt.min_int, GoInt.max_int in *. lia. }
      split.
      * reflexivity.
      * simpl. rewrite length_insert. exact Hlw.
      * exact Hlo.
      * exact Hsp.
      * exact Hin.
      * exists (S n). split; [simpl; lia|]. split.
        -- unfold disp_ok; simpl. rewrite Forall_lookup. auto.
        -- simpl. intros k w Hk. apply lookup_insert_cases in Hk as [[-> ->] | [Hne Hk]].
           ++ simpl. rewrite (share_next _ _ _ Hdata), Nat.eqb_refl.
              rewrite <- (Hsh _ _ Hwk). reflexivity.
           ++ rewrite (share_next _ _ _ Hdata).
              destruct (n mod numWorkers =? k)%nat eqn:E;
                [apply Nat.eqb_eq in E; congruence|].
              rewrite app_nil_r. apply (Hsh _ _ Hk).
      * simpl. intros k w Hk. apply lookup_insert_cases in Hk as [[-> ->] | [Hne Hk]].
        -- apply (Hw _ _ Hwk).
        -- apply (Hw _ _ Hk).
      * simpl. pose proof (sum_list_insert active (workers s) _ _
                             (Worker WRecv (done ++ [(data, GoInt.mul data data)])) Hwk) as Hs.
        simpl in Hs. rewrite Hwg. f_equal. unfold active in *. simpl in *. lia.
      * pose proof (not_all_done s _ _ Hmain Hwk) as Hnd.
        unfold main_ok in Hmain |- *. simpl. destruct (mainpc s); auto; congruence.
    + (* the deferred closes *)
      unfold disp_ok in Hd. rewrite Hdp in Hd. destruct Hd as (-> & Hnn & Hsrc & Hjk & Hcl).
      destruct (outputs_closed s !! j) as [[|]|] eqn:Hj.
      * pose proof (proj1 (Hcl _ _ Hj) eq_refl). lia.
      * inversion Hstep; subst s'; clear Hstep.
        split.
        -- reflexivity.
        -- exact Hlw.
        -- simpl. rewrite length_insert. exact Hlo.
        -- exact Hsp.
        -- exact Hin.
        -- exists n. split; [exact Hn|]. split; [|exact Hsh].
           unfold disp_ok; simpl. split; [reflexivity|]. split; [exact Hnn|].
           split; [exact Hsrc|]. split; [apply lookup_lt_Some in Hj; lia|].
           intros k b Hk.
           apply lookup_insert_cases in Hk as [[-> ->] | [Hne Hk]].
           ++ split; [lia | reflexivity].
           ++ rewrite (Hcl _ _ Hk). lia.
        -- simpl. intros k w Hk. destruct (Hw _ _ Hk) as [H1 H2].
           split; [exact H1|]. intros Hdn. specialize (H2 Hdn).
           destruct (decide (k = j)) as [-> | Hne].
           ++ apply list_lookup_insert_eq. apply lookup_lt_Some in Hj. exact Hj.
           ++ rewrite list_lookup_insert_ne by congruence. exact H2.
        -- exact Hwg.
        -- exact Hmain.
      * inversion Hstep; subst s'; clear Hstep.
        apply lookup_ge_None in Hj.
        split; [reflexivity | exact Hlw | exact Hlo | exact Hsp | exact Hin | | exact Hw
                | exact Hwg | exact Hmain].
        exists n. split; [exact Hn|]. split; [|exact Hsh].
        unfold disp_ok; simpl. split; [exact Hnn|]. split; [exact Hsrc|].
        rewrite Forall_lookup. intros k b Hk. apply (Hcl _ _ Hk).
        apply lookup_lt_Some in Hk. lia.
  - (* WorkerEnd *)
    unfold step_worker_end in Hstep.
    destruct (workers s !! k) as [[[] done]|] eqn:Hwk; try discriminate.
    destruct (outputs_closed s !! k) as [[|]|] eqn:Hok; try discriminate.
    pose proof (active_pos _ _ _ Hwk) as Hact.
    assert (Hneg : (wg s - 1 <? 0) = false) by (apply Z.ltb_ge; lia).
    rewrite Hneg in Hstep. inversion Hstep; subst s'; clear Hstep.
    split.
    + reflexivity.
    + simpl. rewrite length_insert. exact Hlw.
    + exact Hlo.
    + exact Hsp.
    + exact Hin.
    + exists n. split; [exact Hn|]. split; [exact Hd|].
      simpl. intros j w Hj. apply lookup_insert_cases in Hj as [[-> ->] | [Hne Hj]].
      * apply (Hsh _ _ Hwk).
      * apply (Hsh _ _ Hj).
    + simpl. intros j w Hj. apply lookup_insert_cases in Hj as [[-> ->] | [Hne Hj]].
      * destruct (Hw _ _ Hwk) as [H1 _]. simpl in *.
        split; [|intros _; exact Hok].
        split; [discriminate|]. intros H. apply H1 in H. discriminate.
      * apply (Hw _ _ Hj).
    + simpl. pose proof (sum_list_insert active (workers s) _ _ (Worker WDone done) Hwk) as Hs.
      change (active (Worker WRecv done)) with 1%nat in Hs.
      change (active (Worker WDone done)) with 0%nat in Hs. lia.
    + pose proof (not_all_done s _ _ Hmain Hwk) as Hnd.
      unfold main_ok in Hmain |- *. simpl. destruct (mainpc s); auto; congruence.
  - (* Main *)
    unfold step_main in Hstep.
    destruct (mainpc s) eqn:Hmp; try discriminate.
    + destruct (workers s !! spawned s) as [w|] eqn:Hwk.
      * inversion Hstep; subst s'; clear Hstep.
        pose proof (lookup_lt_Some _ _ _ Hwk) as Hlt.
        destruct (Hw _ _ Hwk) as [H1 _].
        assert (Hns : wpc w = WNotStarted) by (apply H1; lia).
        split.
        -- reflexivity.
        -- simpl. rewrite length_insert. exact Hlw.
        -- exact Hlo.
        -- simpl. lia.
        -- exact Hin.
        -- exists n. split; [exact Hn|]. split; [exact Hd|].
           simpl. intros j w' Hj. apply lookup_insert_cases in Hj as [[-> ->] | [Hne Hj]].
           ++ apply (Hsh _ _ Hwk).
           ++ apply (Hsh _ _ Hj).
        -- simpl. intros j w' Hj. apply lookup_insert_cases in Hj as [[-> ->] | [Hne Hj]].
           ++ simpl. split; [split; [discriminate | lia] | discriminate].
           ++ destruct (Hw _ _ Hj) as [H3 H4]. split; [|exact H4].
              rewrite H3. lia.
        -- simpl. pose proof (sum_list_insert active (workers s) _ _
                                (Worker WRecv (processed w)) Hwk) as Hs.
           change (active (Worker WRecv (processed w))) with 1%nat in Hs.
           assert (Ha : active w = 0%nat) by (unfold active; rewrite Hns; reflexivity).
           lia.
        -- unfold main_ok. simpl. exact I.
      * inversion Hstep; subst s'; clear Hstep.
        apply lookup_ge_None in Hwk.
        split; [reflexivity | exact Hlw | exact Hlo | exact Hsp | exact Hin | | exact Hw
                | exact Hwg | ].
        -- exists n. split; [exact Hn|]. split; [exact Hd | exact Hsh].
        -- unfold main_ok. simpl. lia.
    + destruct (wg s =? 0) eqn:Hz; [|discriminate]. apply Z.eqb_eq in Hz.
      inversion Hstep; subst s'; clear Hstep.
      unfold main_ok in Hmain. rewrite Hmp in Hmain.
      split; [reflexivity | exact Hlw | exact Hlo | exact Hsp | exact Hin | | exact Hw
              | exact Hwg | ].
      * exists n. split; [exact Hn|]. split; [exact Hd | exact Hsh].
      * unfold main_ok. simpl. split; [exact Hmain|].
        rewrite Forall_lookup. intros j w Hj.
        pose proof (sum_list_zero_lookup active (workers s) j w ltac:(lia) Hj) as Ha.
        destruct (Hw _ _ Hj) as [H1 _]. pose proof (lookup_lt_Some _ _ _ Hj) as Hlt.
        unfold active in Ha. destruct (wpc w); [|discriminate|reflexivity].
        assert (spawned s <= j)%nat by (apply H1; reflexivity). lia.
Qed.

Lemma fo_measure_decreasing : decreasing (step numWorkers) inv measure.
Proof.
  intros l s s' Hinv Hstep.
  pose proof Hinv as [Hp Hlw Hlo Hsp Hin (n & Hn & Hd & Hsh) Hw Hwg Hmain].
  unfold step in Hstep. rewrite Hp in Hstep. unfold measure.
  destruct l as [| | |k|].
  - unfold step_source_send in Hstep.
    destruct (source s) as [[|v r]|] eqn:Hsrc; try discriminate.
    simpl in Hin. rewrite Hin in Hstep.
    destruct (disp s) as [i| | |] eqn:Hdp; try discriminate.
    inversion Hstep; subst s'; clear Hstep. simpl. lia.
  - unfold step_source_close in Hstep.
    destruct (source s) as [[|v r]|] eqn:Hsrc; try discriminate.
    simpl in Hin. rewrite Hin in Hstep.
    inversion Hstep; subst s'; clear Hstep. simpl. lia.
  - unfold step_disp in Hstep. unfold disp_ok in Hd.
    destruct (disp s) as [i|i data|j p|] eqn:Hdp; try discriminate.
    + destruct (input_closed s); [|discriminate].
      inversion Hstep; subst s'; clear Hstep. simpl. lia.
    + destruct Hd as (Hi & Hdata & Hr & Ho). subst i.
      assert (HK0 : (Z.of_nat numWorkers =? 0) = false) by (apply Z.eqb_neq; lia).
      pose proof (Nat.mod_upper_bound n numWorkers ltac:(lia)) as Hmod.
      rewrite HK0, (FanOut.rem_index n numWorkers some_worker), Nat2Z.id in Hstep.
      assert (Hb : (Z.of_nat (n mod numWorkers) <? 0)
                   || (Z.of_nat (length (outputs_closed s)) <=? Z.of_nat (n mod numWorkers))
                   = false).
      { apply orb_false_iff. split; [apply Z.ltb_ge | apply Z.leb_gt]; lia. }
      rewrite Hb in Hstep.
      destruct (lookup_lt_is_Some_2 (outputs_closed s) (n mod numWorkers)
                  ltac:(lia)) as [b Hob].
      rewrite Forall_lookup in Ho. pose proof (Ho _ _ Hob) as ->.
      rewrite Hob in Hstep.
      destruct (workers s !! (n mod numWorkers)%nat) as [[[] done]|] eqn:Hwk;
        try discriminate.
      inversion Hstep; subst s'; clear Hstep. simpl.
      pose proof (sum_list_insert worker_measure (workers s) _ _
                    (Worker WRecv (done ++ [(data, GoInt.mul data data)])) Hwk) as Hs.
      change (worker_measure (Worker WRecv done)) with 1%nat in Hs.
      change (worker_measure (Worker WRecv (done ++ [(data, GoInt.mul data data)])))
        with 1%nat in Hs.
      lia.
    + destruct Hd as (-> & Hnn & Hsrc & Hjk & Hcl).
      destruct (outputs_closed s !! j) as [[|]|] eqn:Hj.
      * pose proof (proj1 (Hcl _ _ Hj) eq_refl). lia.
      * inversion Hstep; subst s'; clear Hstep. simpl.
        apply lookup_lt_Some in Hj. lia.
      * inversion Hstep; subst s'; clear Hstep. simpl. lia.
  - unfold step_worker_end in Hstep.
    destruct (workers s !! k) as [[[] done]|] eqn:Hwk; try discriminate.
    destruct (outputs_closed s !! k) as [[|]|] eqn:Hok; try discriminate.
    pose proof (active_pos _ _ _ Hwk) as Hact.
    assert (Hneg : (wg s - 1 <? 0) = false) by (apply Z.ltb_ge; lia).
    rewrite Hneg in Hstep. inversion Hstep; subst s'; clear Hstep. simpl.
    pose proof (sum_list_insert worker_measure (workers s) _ _ (Worker WDone done) Hwk)
      as Hs.
    change (worker_measure (Worker WRecv done)) with 1%nat in Hs.
    change (worker_measure (Worker WDone done)) with 0%nat in Hs. lia.
  - unfold step_main in Hstep.
    destruct (mainpc s) eqn:Hmp; try discriminate.
    + destruct (workers s !! spawned s) as [w|] eqn:Hwk.
      * inversion Hstep; subst s'; clear Hstep. simpl.
        destruct (Hw _ _ Hwk) as [H1 _].
        assert (Hns : wpc w = WNotStarted) by (apply H1; lia).
        pose proof (sum_list_insert worker_measure (workers s) _ _
                      (Worker WRecv (processed w)) Hwk) as Hs.
        change (worker_measure (Worker WRecv (processed w))) with 1%nat in Hs.
        assert (Ha : worker_measure w = 2%nat)
          by (unfold worker_measure; rewrite Hns; reflexivity).
        lia.
      * inversion Hstep; subst s'; clear Hstep. simpl. lia.
    + destruct (wg s =? 0); [|discriminate].
      inversion Hstep; subst s'; clear Hstep. simpl. lia.
Qed.

(** The end of every run: the source has sent everything and closed
    [input], the goroutine of [fanOut] has closed every output, each worker
    has printed the squares of its share of the values and returned, and
    [fanOutExample] has returned. *)
Definition final (s : state) : Prop :=
  panic s = None /\ mainpc s = MDone /\ source s = SDone /\ disp s = DDone /\
  Forall (fun b => b = true) (outputs_closed s) /\
  workers s
  = map (fun k => Worker WDone (map squared (FanOut.residue_class numWorkers k 0 vs)))
        (seq 0 numWorkers).

Lemma fo_stuck_final (s : state) : inv s -> stuck (step numWorkers) s -> final s.
Proof.
  intros Hinv Hstuck.
  pose proof Hinv as [Hp Hlw Hlo Hsp Hin (n & Hn & Hd & Hsh) Hw Hwg Hmain].
  assert (Hst : forall l, match l with
                          | SourceSend => step_source_send s
                          | SourceClose => step_source_close s
                          | Disp => step_disp numWorkers s
                          | WorkerEnd k => step_worker_end k s
                          | Main => step_main s
                          end = None).
  { intros l. pose proof (Hstuck l) as H. unfold step in H. rewrite Hp in H. exact H. }
  (* the caller has started every worker *)
  assert (Hall : spawned s = numWorkers).
  { pose proof (Hst Main) as H. unfold step_main in H. unfold main_ok in Hmain.
    destruct (mainpc s); [|exact Hmain|apply Hmain].
    destruct (workers s !! spawned s); discriminate. }
  (* the goroutine of fanOut has finished *)
  assert (Hdd : disp s = DDone).
  { pose proof (Hst Disp) as H. unfold step_disp in H. unfold disp_ok in Hd.
    destruct (disp s) as [i|i data|j p|] eqn:Hdp; [| | |reflexivity]; exfalso.
    - destruct Hd as (Hi & Hr & Ho).
      destruct (input_closed s) eqn:Hic; [discriminate|].
      destruct (source s) as [[|v r]|] eqn:Hsrc; [| |discriminate].
      + pose proof (Hst SourceClose) as H2. unfold step_source_close in H2.
        rewrite Hsrc, Hic in H2. discriminate.
      + pose proof (Hst SourceSend) as H2. unfold step_source_send in H2.
        rewrite Hsrc, Hic, Hdp in H2. discriminate.
    - destruct Hd as (Hi & Hdata & Hr & Ho). subst i.
      assert (HK0 : (Z.of_nat numWorkers =? 0) = false) by (apply Z.eqb_neq; lia).
      pose proof (Nat.mod_upper_bound n numWorkers ltac:(lia)) as Hmod.
      rewrite HK0, (FanOut.rem_index n numWorkers some_worker), Nat2Z.id in H.
      assert (Hb : (Z.of_nat (n mod numWorkers) <? 0)
                   || (Z.of_nat (length (outputs_closed s)) <=? Z.of_nat (n mod numWorkers))
                   = false).
      { apply orb_false_iff. split; [apply Z.ltb_ge | apply Z.leb_gt]; lia. }
      rewrite Hb in H.
      destruct (lookup_lt_is_Some_2 (outputs_closed s) (n mod numWorkers)
                  ltac:(lia)) as [b Hob].
      rewrite Forall_lookup in Ho. pose proof (Ho _ _ Hob) as ->.
      rewrite Hob in H.
      destruct (lookup_lt_is_Some_2 (workers s) (n mod numWorkers) ltac:(lia))
        as [[pc done] Hwk].
      rewrite Hwk in H. destruct (Hw _ _ Hwk) as [H1 H2]. simpl in *.
      destruct pc; [|discriminate|].
      + assert (spawned s <= n mod numWorkers)%nat by (apply H1; reflexivity). lia.
      + specialize (H2 eq_refl). congruence.
    - destruct (outputs_closed s !! j) as [[|]|]; [discriminate..|].
      destruct p; discriminate. }
  unfold disp_ok in Hd. rewrite Hdd in Hd. destruct Hd as (Hnn & Hsrc & Hcl).
  (* every worker has returned *)
  assert (Hdone : forall k w, workers s !! k = Some w -> wpc w = WDone).
  { intros k [pc done] Hk. simpl. destruct (Hw _ _ Hk) as [H1 _]. simpl in H1.
    pose proof (lookup_lt_Some _ _ _ Hk) as Hlt.
    destruct pc; [|exfalso|reflexivity].
    - assert (spawned s <= k)%nat by (apply H1; reflexivity). lia.
    - destruct (lookup_lt_is_Some_2 (outputs_closed s) k ltac:(lia)) as [b Hob].
      rewrite Forall_lookup in Hcl. pose proof (Hcl _ _ Hob) as ->.
      pose proof (active_pos _ _ _ Hk) as Hact.
      pose proof (Hst (WorkerEnd k)) as H. unfold step_worker_end in H.
      rewrite Hk, Hob in H.
      destruct (wg s - 1 <? 0); discriminate. }
  assert (Hwg0 : wg s = 0).
  { rewrite Hwg.
    assert (Hz : sum_list (map active (workers s)) = 0%nat); [|lia].
    destruct (sum_list (map active (workers s))) eqn:E; [reflexivity|].
    destruct (sum_list_pos_lookup active (workers s)) as (k & w & Hk & Ha); [lia|].
    unfold active in Ha. rewrite (Hdone _ _ Hk) in Ha. congruence. }
  split; [exact Hp|]. split.
  { pose proof (Hst Main) as H. unfold step_main in H.
    destruct (mainpc s); [| |reflexivity].
    - destruct (workers s !! spawned s); discriminate.
    - rewrite Hwg0 in H. discriminate. }
  split; [exact Hsrc|]. split; [exact Hdd|]. split; [exact Hcl|].
  apply list_eq. intros k. rewrite list_lookup_fmap.
  destruct (decide (k < numWorkers)%nat) as [Hlt | Hge].
  - rewrite lookup_seq_lt by lia. simpl.
    destruct (lookup_lt_is_Some_2 (workers s) k ltac:(lia)) as [[pc done] Hk].
    rewrite Hk. pose proof (Hdone _ _ Hk) as Hpc. pose proof (Hsh _ _ Hk) as Hpr.
    simpl in *. subst pc. rewrite Hpr, share_all by lia. reflexivity.
  - rewrite (lookup_ge_None_2 (workers s) k) by lia.
    rewrite (lookup_ge_None_2 (seq 0 numWorkers) k) by (rewrite length_seq; lia).
    reflexivity.
Qed.
End Proofs.

Definition labels_of (s : state) : list label :=
  [SourceSend; SourceClose; Disp; Main] ++ map WorkerEnd (seq 0 (length (workers s))).

Lemma fo_can_move (numWorkers : nat) (s : state) :
  stuck (step numWorkers) s \/ exists l s', step numWorkers l s = Some s'.
Proof.
  apply (stuck_or_move (step numWorkers) (labels_of s)).
  intros l s' Hstep. unfold labels_of.
  unfold step in Hstep. destruct (panic s); [discriminate|].
  destruct l as [| | |k|]; simpl; auto.
  do 4 right. apply in_map, in_seq. unfold step_worker_end in Hstep.
  destruct (workers s !! k) eqn:Hk; [|discriminate].
  apply lookup_lt_Some in Hk. lia.
Qed.

(** [fanOutExample]: the values 1..10 and three workers. *)
Definition fanOutExample : state := init (seqZ 1 10) 3.
Definition fanout_step : label -> state -> option state := step 3.
End FanOutWorkers.

(** X16 — [fanOutExample] with its workers, for at least one worker and values
    the counter of [fanOut] can count.  Along every schedule: nothing
    panics; there is a number [n] of values dealt so far such that worker
    [k+1] has printed exactly the squares of the values at the indices
    below [n] congruent to [k] modulo [numWorkers], in their order; no
    schedule is longer than the initial measure, so no goroutine waits for
    ever; when nothing can move any more, [input] and every output are
    closed, every worker has printed the squares of its whole share and has
    returned, and [fanOutExample] has returned from [wg.Wait()]; and every
    reachable state can be run on to that end. *)
Theorem fan_out_example_deals_and_returns (vs : list Z) (numWorkers : nat)
    (sched : list FanOutWorkers.label) (s : FanOutWorkers.state) :
  (1 <= numWorkers)%nat -> Z.of_nat (length vs) <= GoInt.max_int ->
  run (FanOutWorkers.step numWorkers) sched (FanOutWorkers.init vs numWorkers) = Some s ->
  FanOutWorkers.panic s = None /\
  (exists n, (n <= length vs)%nat /\
     forall k w, FanOutWorkers.workers s !! k = Some w ->
       FanOutWorkers.processed w
       = map FanOutWorkers.squared (FanOut.residue_class numWorkers k 0 (take n vs))) /\
  (length sched
   <= FanOutWorkers.measure numWorkers (FanOutWorkers.init vs numWorkers))%nat /\
  (stuck (FanOutWorkers.step numWorkers) s -> FanOutWorkers.final vs numWorkers s) /\
  (exists sched' s',
      run (FanOutWorkers.step numWorkers) sched' s = Some s' /\
      stuck (FanOutWorkers.step numWorkers) s' /\
      FanOutWorkers.final vs numWorkers s').
Proof.
  intros HK Hlen Hrun.
  destruct (run_total (FanOutWorkers.step numWorkers)
              (FanOutWorkers.inv vs numWorkers) (FanOutWorkers.final vs numWorkers)
              (FanOutWorkers.measure numWorkers) (FanOutWorkers.init vs numWorkers)
              (FanOutWorkers.fo_inv_init vs numWorkers HK)
              (FanOutWorkers.fo_inv_preserved vs numWorkers HK Hlen)
              (FanOutWorkers.fo_measure_decreasing vs numWorkers HK)
              (fun s0 _ => FanOutWorkers.fo_can_move numWorkers s0)
              (FanOutWorkers.fo_stuck_final vs numWorkers HK) sched s Hrun)
    as (Hinv & Hl & Hst & Hex).
  destruct Hinv as [Hp _ _ _ _ (n & Hn & _ & Hsh) _ _ _].
  split; [exact Hp|]. split; [exists n; split; [exact Hn | exact Hsh]|].
  split; [lia|]. split; [exact Hst | exact Hex].
Qed.

(** Three values and two workers, run to the end. *)
Definition fanout_sched_3_2 : list FanOutWorkers.label :=
  [FanOutWorkers.Main; FanOutWorkers.Main; FanOutWorkers.Main;
   FanOutWorkers.SourceSend; FanOutWorkers.Disp;
   FanOutWorkers.SourceSend; FanOutWorkers.Disp;
   FanOutWorkers.SourceSend; FanOutWorkers.Disp;
   FanOutWorkers.SourceClose; FanOutWorkers.Disp; FanOutWorkers.Disp;
   FanOutWorkers.Disp; FanOutWorkers.Disp;
   FanOutWorkers.WorkerEnd 0; FanOutWorkers.WorkerEnd 1; FanOutWorkers.Main].

Definition fanout_end_3_2 : FanOutWorkers.state :=
  FanOutWorkers.State FanOutWorkers.SDone true FanOutWorkers.DDone [true; true]
    [FanOutWorkers.Worker FanOutWorkers.WDone [(5, 25); (7, 49)];
     FanOutWorkers.Worker FanOutWorkers.WDone [(6, 36)]]
    2 0 FanOutWorkers.MDone None.

Lemma fan_out_example_deals_and_returns_witness :
  run (FanOutWorkers.step 2) fanout_sched_3_2 (FanOutWorkers.init [5; 6; 7] 2)
  = Some fanout_end_3_2 /\
  FanOutWorkers.panic fanout_end_3_2 = None /\
  exists sched s,
    run FanOutWorkers.fanout_step sched FanOutWorkers.fanOutExample = Some s /\
    stuck FanOutWorkers.fanout_step s /\
    FanOutWorkers.mainpc s = FanOutWorkers.MDone /\
    map FanOutWorkers.processed (FanOutWorkers.workers s)
    = [[(1, 1); (4, 16); (7, 49); (10, 100)]; [(2, 4); (5, 25); (8, 64)];
       [(3, 9); (6, 36); (9, 81)]].
Proof.
  split; [reflexivity|]. split.
  - refine (proj1 (fan_out_example_deals_and_returns [5; 6; 7] 2 fanout_sched_3_2
                     fanout_end_3_2 _ _ eq_refl)).
    + lia.
    + unfold GoInt.max_int. simpl. lia.
  - destruct (fan_out_example_deals_and_returns (seqZ 1 10) 3 []
                FanOutWorkers.fanOutExample)
      as (_ & _ & _ & _ & sched & s & H1 & H2 & _ & H3 & _ & _ & _ & H4).
    + lia.
    + unfold GoInt.max_int. simpl. lia.
    + reflexivity.
    + exists sched, s. split; [exact H1|]. split; [exact H2|]. split; [exact H3|].
      rewrite H4. reflexivity.
Defined.
